(** * Synchronization primitives of the kernel (kern/thread/synch.c)

    Counting semaphores, reentrant locks and condition variables, embedded
    as functions on an explicit machine state.

    The kernel runs on one CPU.  Every function of synch.c brackets its body
    with [splhigh] / [splx], so the code between two scheduling points (a
    call, a [thread_sleep], a return) runs without interleaving.  The
    embedding follows that structure: a function is run from its entry, or
    from the point where it went to sleep, up to the next [thread_sleep] or
    to its return, and that run is one function application on the machine
    state.  A failed [assert] halts the kernel. *)

From Stdlib Require Import ZArith List Bool Lia String Permutation.
From Equations Require Import Equations.
Import ListNotations.
Open Scope Z_scope.

(** ** Data *)

(** Pointers are addresses; thread identities are pointers to thread
    structures, compared with [==] in the code. *)
Definition addr := Z.
Definition NULL : addr := 0.

(** The counters are C [int]s ([sem_create] takes the count as an [int]
    and stores it): 32 bits in two's complement on the kernel's machine,
    values from [INT_MIN] to [INT_MAX].  On an [int], [++] and [+ 1] step
    from [INT_MAX] around to [INT_MIN], and [--] and [- 1] from [INT_MIN]
    around to [INT_MAX]; everywhere else they add and take off one.
    [wrap_int z] is the [int] that the integer [z] is modulo 2^32, so that
    [int_succ] and [int_pred] are [+ 1] and [- 1] followed by [wrap_int]
    (lemmas [int_succ_wrap] and [int_pred_wrap]). *)
Definition INT_MAX : Z := 2147483647.
Definition INT_MIN : Z := -2147483648.
Definition int_modulus : Z := 4294967296.

Definition int_succ (x : Z) : Z := if x =? INT_MAX then INT_MIN else x + 1.
Definition int_pred (x : Z) : Z := if x =? INT_MIN then INT_MAX else x - 1.

Definition wrap_int (z : Z) : Z := (z - INT_MIN) mod int_modulus + INT_MIN.

Arguments int_succ : simpl never.
Arguments int_pred : simpl never.
Arguments wrap_int : simpl never.

(** Modelled from the spec: the structures are declared in synch.h, which is
    not among the sources.  The fields are the ones synch.c reads and writes;
    the counters ([count], and [lock_counter], the spec's [holdCount]) hold
    [int]s. *)
Record semaphore := mk_semaphore {
  sem_name : string;
  count : Z
}.

Record lock := mk_lock {
  lock_name : string;
  status : Z;                    (* 0: free, 1: held *)
  curthread_with_lock : addr;    (* owner, NULL when free *)
  lock_counter : Z               (* acquisitions by the owner not yet released *)
}.

(** Modelled from the spec: queue.c is not among the sources.  The queue is
    the spec's ordered sequence: [q_addtail] appends, [q_remhead] removes the
    oldest entry, [q_empty] tests for emptiness. *)
Definition queue := list addr.

Record cv := mk_cv {
  cv_name : string;
  q : queue
}.

(** The ambient per-CPU state the functions read: the running thread and the
    in-interrupt flag. *)
Record cpu := mk_cpu {
  curthread : addr;
  in_interrupt : Z
}.

(** Where a sleeping thread continues when it is woken: the statement after
    its [thread_sleep], with the locals that are live there.  [lock_acquire]
    is called by kernel code and by [cv_wait]; [caller] is its return
    address. *)
Inductive caller :=
| FromTop
| FromCvWait (spl : Z).

Inductive resume :=
| InP (sem : addr) (spl : Z)
| InLockAcquire (lock : addr) (spl : Z) (ret : caller)
| InCvWait (lock : addr) (spl : Z).

Record sleeper := mk_sleeper {
  sl_thread : addr;
  sl_chan : addr;
  sl_resume : resume
}.

(** The machine: one semaphore, one lock and one condition variable, the
    interrupt priority level, and the scheduler's view of the threads that
    are inside a blocking call (asleep on a channel, or woken and not yet
    running again). *)
Record machine := mk_machine {
  the_sem : semaphore;
  the_lock : lock;
  the_cv : cv;
  curspl : Z;
  sleepers : list sleeper;
  runq : list (addr * resume)
}.

Definition set_sem (s : semaphore) (m : machine) : machine :=
  mk_machine s (the_lock m) (the_cv m) (curspl m) (sleepers m) (runq m).
Definition set_lock (l : lock) (m : machine) : machine :=
  mk_machine (the_sem m) l (the_cv m) (curspl m) (sleepers m) (runq m).
Definition set_cv (c : cv) (m : machine) : machine :=
  mk_machine (the_sem m) (the_lock m) c (curspl m) (sleepers m) (runq m).
Definition set_spl (s : Z) (m : machine) : machine :=
  mk_machine (the_sem m) (the_lock m) (the_cv m) s (sleepers m) (runq m).
Definition set_sleepers (sl : list sleeper) (m : machine) : machine :=
  mk_machine (the_sem m) (the_lock m) (the_cv m) (curspl m) sl (runq m).
Definition set_runq (rq : list (addr * resume)) (m : machine) : machine :=
  mk_machine (the_sem m) (the_lock m) (the_cv m) (curspl m) (sleepers m) rq.

(** A run of a function up to its next scheduling point. *)
Inductive outcome :=
| Returns (m : machine)     (* ran to its return *)
| Sleeps (m : machine)      (* called thread_sleep; the thread is suspended *)
| Panics.                   (* an assertion failed: the kernel halts *)

(** What an allocating constructor hands back. *)
Inductive created (A : Type) :=
| Allocated (p : addr) (a : A)
| ReturnsNULL
| AssertFails.
Arguments Allocated {A} p a.
Arguments ReturnsNULL {A}.
Arguments AssertFails {A}.

(** What a destructor hands to [kfree], in the order of the calls, and the
    result of a destructor: it returns, with the machine and the blocks it
    freed, or it halts on an assertion. *)
Inductive freed :=
| FreedName (s : string)
| FreedStruct (p : addr).

Inductive destroyed :=
| Destroyed (m : machine) (log : list freed)
| DestroyPanics.

(** The allocator's answers to one constructor call: what [kmalloc] and
    [kstrdup] return. *)
Record alloc := mk_alloc {
  kmalloc_ret : addr;
  kstrdup_ret : option string
}.

(** ** Collaborators *)

(** Modelled from the spec: machine/spl.h and the interrupt code are not
    among the sources.  [splhigh] raises the interrupt mask to its highest
    level and returns the level before; [splx] sets it. *)
Definition SPL_HIGH : Z := 15.

Definition splhigh (m : machine) : Z * machine := (curspl m, set_spl SPL_HIGH m).
Definition splx (spl : Z) (m : machine) : machine := set_spl spl m.

(** Modelled from the spec: thread.c is not among the sources.
    [thread_sleep] suspends the calling thread on a channel until it is woken
    on it; [thread_wakeup] makes every thread sleeping on the channel runnable
    again, and does nothing when there is none. *)
Definition thread_sleep (c : cpu) (chan : addr) (k : resume) (m : machine) : machine :=
  set_sleepers (sleepers m ++ [mk_sleeper (curthread c) chan k]) m.

Definition on_chan (chan : addr) (s : sleeper) : bool := sl_chan s =? chan.
Definition off_chan (chan : addr) (s : sleeper) : bool := negb (sl_chan s =? chan).
Definition to_run (s : sleeper) : addr * resume := (sl_thread s, sl_resume s).

Definition thread_wakeup (chan : addr) (m : machine) : machine :=
  set_runq (runq m ++ map to_run (filter (on_chan chan) (sleepers m)))
    (set_sleepers (filter (off_chan chan) (sleepers m)) m).

(** Modelled from the spec: [thread_hassleepers] tells whether a thread is
    asleep on the channel; only the destructors' assertions use it. *)
Definition thread_hassleepers (chan : addr) (m : machine) : Z :=
  if existsb (on_chan chan) (sleepers m) then 1 else 0.

(** The queue operations, with the return code of [q_addtail] (non-zero when
    the queue cannot grow) given by the allocator. *)
Definition q_create (size : Z) : queue := [].
Definition q_empty (qu : queue) : Z := match qu with [] => 1 | _ :: _ => 0 end.
Definition q_addtail (rc : Z) (qu : queue) (x : addr) : Z * queue :=
  if rc =? 0 then (0, qu ++ [x]) else (rc, qu).
Definition q_remhead (qu : queue) : addr * queue :=
  match qu with [] => (NULL, []) | h :: t => (h, t) end.

(** ** Semaphore *)

Definition sem_create (namearg : string) (initial_count : Z) (a : alloc)
  : created semaphore :=
  if initial_count <? 0 then AssertFails
  else if kmalloc_ret a =? NULL then ReturnsNULL
  else match kstrdup_ret a with
       | None => ReturnsNULL
       | Some n => Allocated (kmalloc_ret a) (mk_semaphore n initial_count)
       end.

Definition sem_destroy (sem : addr) (m : machine) : destroyed :=
  if sem =? NULL then DestroyPanics
  else
    let (spl, m1) := splhigh m in
    if negb (thread_hassleepers sem m1 =? 0) then DestroyPanics
    else
      let m2 := splx spl m1 in
      Destroyed m2 [FreedName (sem_name (the_sem m2)); FreedStruct sem].

(** The [while] loop of [P] and what follows it. *)
Definition P_loop (c : cpu) (sem : addr) (spl : Z) (m : machine) : outcome :=
  if count (the_sem m) =? 0 then
    Sleeps (thread_sleep c sem (InP sem spl) m)
  else if 0 <? count (the_sem m) then
    Returns (splx spl
      (set_sem (mk_semaphore (sem_name (the_sem m)) (int_pred (count (the_sem m)))) m))
  else Panics.

Definition P (c : cpu) (sem : addr) (m : machine) : outcome :=
  if sem =? NULL then Panics
  else if negb (in_interrupt c =? 0) then Panics
  else let (spl, m1) := splhigh m in P_loop c sem spl m1.

Definition V (c : cpu) (sem : addr) (m : machine) : outcome :=
  if sem =? NULL then Panics
  else
    let (spl, m1) := splhigh m in
    let m2 := set_sem (mk_semaphore (sem_name (the_sem m1))
                                    (int_succ (count (the_sem m1)))) m1 in
    if 0 <? count (the_sem m2) then Returns (splx spl (thread_wakeup sem m2))
    else Panics.

(** ** Lock *)

Definition lock_create (name : string) (a : alloc) : created lock :=
  if kmalloc_ret a =? NULL then ReturnsNULL
  else match kstrdup_ret a with
       | None => ReturnsNULL
       | Some n => Allocated (kmalloc_ret a) (mk_lock n 0 NULL 0)
       end.

Definition lock_destroy (lock : addr) (m : machine) : destroyed :=
  if lock =? NULL then DestroyPanics
  else Destroyed m [FreedName (lock_name (the_lock m)); FreedStruct lock].

Definition return_to (ret : caller) (m : machine) : outcome :=
  match ret with
  | FromTop => Returns m
  | FromCvWait spl => Returns (splx spl m)      (* the tail of cv_wait *)
  end.

(** The [while] loop of [lock_acquire] and what follows it. *)
Definition lock_acquire_loop (c : cpu) (lock : addr) (spl : Z) (ret : caller)
  (m : machine) : outcome :=
  if status (the_lock m) =? 1 then
    Sleeps (thread_sleep c lock (InLockAcquire lock spl ret) m)
  else
    let l := the_lock m in
    return_to ret (splx spl
      (set_lock (mk_lock (lock_name l) 1 (curthread c)
                         (int_succ (lock_counter l))) m)).

Definition lock_acquire_from (ret : caller) (c : cpu) (lock : addr) (m : machine)
  : outcome :=
  if lock =? NULL then Panics
  else
    let (spl, m1) := splhigh m in
    let l := the_lock m1 in
    if curthread c =? curthread_with_lock l then
      return_to ret (splx spl
        (set_lock (mk_lock (lock_name l) (status l) (curthread_with_lock l)
                           (int_succ (lock_counter l))) m1))
    else lock_acquire_loop c lock spl ret m1.

Definition lock_acquire : cpu -> addr -> machine -> outcome :=
  lock_acquire_from FromTop.

Definition lock_release (c : cpu) (lock : addr) (m : machine) : outcome :=
  if lock =? NULL then Panics
  else
    let (spl, m1) := splhigh m in
    let l := the_lock m1 in
    if negb (curthread c =? curthread_with_lock l) then Returns (splx spl m1)
    else
      let n := int_pred (lock_counter l) in
      if n =? 0 then
        Returns (splx spl
          (thread_wakeup lock (set_lock (mk_lock (lock_name l) 0 NULL n) m1)))
      else
        Returns (splx spl
          (set_lock (mk_lock (lock_name l) (status l) (curthread_with_lock l) n) m1)).

Definition lock_do_i_hold (c : cpu) (lock : addr) (m : machine) : Z * machine :=
  let (spl, m1) := splhigh m in
  if curthread_with_lock (the_lock m1) =? curthread c then (1, splx spl m1)
  else (0, splx spl m1).

(** ** Condition variable *)

Definition cv_create (name : string) (a : alloc) : created cv :=
  if kmalloc_ret a =? NULL then ReturnsNULL
  else match kstrdup_ret a with
       | None => ReturnsNULL
       | Some n => Allocated (kmalloc_ret a) (mk_cv n (q_create 2))
       end.

(** The three functions assert [lock_do_i_hold] before they mask
    interrupts.  Only the caller can end its own hold of the lock (a release
    by another thread changes nothing), so the answer still stands when the
    mask is raised, and the assertion is run in the same step as the body.
    In [cv_wait], [rc] is the return code of the [q_addtail] call. *)
Definition cv_wait (c : cpu) (cv lock : addr) (rc : Z) (m : machine) : outcome :=
  let (held, m0) := lock_do_i_hold c lock m in
  if held =? 0 then Panics
  else
    let (spl, m1) := splhigh m0 in
    let (result, q') := q_addtail rc (q (the_cv m1)) (curthread c) in
    let m2 := set_cv (mk_cv (cv_name (the_cv m1)) q') m1 in
    if negb (result =? 0) then Panics
    else match lock_release c lock m2 with
         | Returns m3 =>
             Sleeps (thread_sleep c (curthread c) (InCvWait lock spl) m3)
         | _ => Panics
         end.

(** [q_remhead] takes the head out of the queue and hands it to
    [thread_wakeup]. *)
Definition wake_head (m : machine) : machine :=
  let (t, q') := q_remhead (q (the_cv m)) in
  thread_wakeup t (set_cv (mk_cv (cv_name (the_cv m)) q') m).

Definition cv_signal (c : cpu) (cv lock : addr) (m : machine) : outcome :=
  let (held, m0) := lock_do_i_hold c lock m in
  if held =? 0 then Panics
  else
    let (spl, m1) := splhigh m0 in
    let check_empty_q := q_empty (q (the_cv m1)) in
    if check_empty_q =? 0 then Returns (splx spl (wake_head m1))
    else Returns (splx spl m1).

Definition inspect {A : Type} (x : A) : {y : A | x = y} := exist _ x eq_refl.

(** The [while] loop of [cv_broadcast]: every turn takes one entry out of
    the queue, so the queue's length bounds the number of turns. *)
Equations? cv_broadcast_loop (m : machine) : machine
  by wf (List.length (q (the_cv m))) lt :=
  cv_broadcast_loop m with inspect (q_empty (q (the_cv m)) =? 0) := {
    | exist _ true _ => cv_broadcast_loop (wake_head m)
    | exist _ false _ => m }.
Proof.
  unfold wake_head. destruct (q (the_cv m)); simpl in *; [discriminate | lia].
Qed.

Definition cv_broadcast (c : cpu) (cv lock : addr) (m : machine) : outcome :=
  if cv =? NULL then Panics
  else
    let (held, m0) := lock_do_i_hold c lock m in
    if held =? 0 then Panics
    else
      let (spl, m1) := splhigh m0 in
      Returns (splx spl (cv_broadcast_loop m1)).

(** Waking a thread: it continues after its [thread_sleep]. *)
Definition resume_at (c : cpu) (k : resume) (m : machine) : outcome :=
  match k with
  | InP sem spl => P_loop c sem spl m
  | InLockAcquire lock spl ret => lock_acquire_loop c lock spl ret m
  | InCvWait lock spl => lock_acquire_from (FromCvWait spl) c lock m
  end.

(** The interrupt level a sleeping thread restores just before it returns to
    its caller: the one saved by the outermost function it is in. *)
Definition saved_spl (k : resume) : Z :=
  match k with
  | InP _ spl => spl
  | InLockAcquire _ spl FromTop => spl
  | InLockAcquire _ _ (FromCvWait spl) => spl
  | InCvWait _ spl => spl
  end.

(** The calling thread has gone to sleep with interrupts masked and with
    level [spl] to restore. *)
Definition sleeps_saving (c : cpu) (spl : Z) (m' : machine) : Prop :=
  curspl m' = SPL_HIGH /\
  exists sl s,
    sleepers m' = sl ++ [s] /\
    sl_thread s = curthread c /\
    saved_spl (sl_resume s) = spl.

(** ** The kernel as a transition system *)

(** Kernel code enters a function of synch.c ([Invoke], by the thread and in
    the context given by [c], running at interrupt level [spl]), or the
    scheduler lets a woken thread continue ([Resume]). *)
Inductive call :=
| CallP
| CallV
| CallAcquire
| CallRelease
| CallWait (rc : Z)
| CallSignal
| CallBroadcast.

Inductive event :=
| Invoke (c : cpu) (spl : Z) (f : call)
| Resume (t : addr).

Definition busy_threads (m : machine) : list addr :=
  map sl_thread (sleepers m) ++ map fst (runq m).

Definition busy (t : addr) (m : machine) : bool :=
  existsb (Z.eqb t) (busy_threads m).

(** The threads asleep on a channel, oldest first. *)
Definition sleeping_on (chan : addr) (m : machine) : list addr :=
  map sl_thread (filter (on_chan chan) (sleepers m)).

(** The threads asleep on their own thread structure, oldest first: the
    threads asleep inside [cv_wait]. *)
Definition own_chan (s : sleeper) : bool := sl_chan s =? sl_thread s.
Definition cv_sleepers (m : machine) : list addr :=
  map sl_thread (filter own_chan (sleepers m)).

(** The thread an event runs, and the ways in which the lock may pass from
    one state to the next when thread [t] runs: the owner stays, or [t]
    takes the free lock, or [t] gives its lock up. *)
Definition event_thread (e : event) : addr :=
  match e with
  | Invoke c _ _ => curthread c
  | Resume t => t
  end.

Definition lock_moves (t : addr) (l l' : lock) : Prop :=
  curthread_with_lock l' = curthread_with_lock l \/
  (curthread_with_lock l = NULL /\ curthread_with_lock l' = t /\
   lock_counter l' = 1) \/
  (curthread_with_lock l = t /\ curthread_with_lock l' = NULL).

Definition moves_from (c : cpu) (m : machine) (m' : machine) : Prop :=
  lock_moves (curthread c) (the_lock m) (the_lock m').

(** The calls that break a function's contract: [P] from interrupt context,
    [V] on a count that cannot grow, a wait, signal or broadcast by a thread
    that does not hold the lock, a wait for which the queue cannot grow. *)
Definition misuse (c : cpu) (f : call) (m : machine) : Prop :=
  match f with
  | CallP => in_interrupt c <> 0
  | CallV => count (the_sem m) = INT_MAX
  | CallAcquire | CallRelease => False
  | CallWait rc => curthread c <> curthread_with_lock (the_lock m) \/ rc <> 0
  | CallSignal | CallBroadcast => curthread c <> curthread_with_lock (the_lock m)
  end.

(** Takes the first entry of thread [t] out of the run queue. *)
Fixpoint take (t : addr) (rq : list (addr * resume))
  : option (resume * list (addr * resume)) :=
  match rq with
  | [] => None
  | (t', k) :: rest =>
      if t' =? t then Some (k, rest)
      else match take t rest with
           | Some (k', rest') => Some (k', (t', k) :: rest')
           | None => None
           end
  end.

(** [None] is the halted kernel. *)
Definition settle (o : outcome) : option machine :=
  match o with
  | Returns m => Some m
  | Sleeps m => Some m
  | Panics => None
  end.

Definition after (o : outcome) (Q : machine -> Prop) : Prop :=
  match o with
  | Returns m => Q m
  | Sleeps m => Q m
  | Panics => True
  end.

Definition lock_inv (l : lock) : Prop :=
  0 <= lock_counter l /\ (lock_counter l = 0 <-> curthread_with_lock l = NULL).

Definition lock_wf (l : lock) : Prop :=
  lock_inv l /\
  (status l = 0 \/ status l = 1) /\
  (status l = 0 <-> curthread_with_lock l = NULL).

Definition lock_inv_of (m : machine) : Prop := lock_inv (the_lock m).

(** What holds of the lock whatever the counter has gone through: the status
    says whether there is an owner, and a lock without owner has counter 0. *)
Definition lock_ok (l : lock) : Prop :=
  (status l = 0 \/ status l = 1) /\
  (status l = 0 <-> curthread_with_lock l = NULL) /\
  (curthread_with_lock l = NULL -> lock_counter l = 0) /\
  INT_MIN <= lock_counter l <= INT_MAX.

(** [n] calls in a row, as long as each one returns. *)
Fixpoint repeat_call (f : machine -> outcome) (n : nat) (m : machine) : outcome :=
  match n with
  | O => Returns m
  | S n' =>
      match f m with
      | Returns m' => repeat_call f n' m'
      | o => o
      end
  end.

(** Threads [ts] in turn take the lock and wait on the condition variable;
    thread [s] takes the lock and signals [n] times. *)
Definition wait_events (spl : Z) (ts : list addr) : list event :=
  flat_map (fun t => [Invoke (mk_cpu t 0) spl CallAcquire;
                      Invoke (mk_cpu t 0) spl (CallWait 0)]) ts.

Definition signal_events (spl : Z) (s : addr) (n : nat) : list event :=
  repeat (Invoke (mk_cpu s 0) spl CallSignal) n.

Definition boot (s : semaphore) (l : lock) (c : cv) (spl : Z) : machine :=
  mk_machine s l c spl [] [].

(** An example configuration: the semaphore at
    address 100 with count 0, the lock at 200, the condition variable at 300,
    and the machines reached when thread 1000 has taken the lock once and
    twice. *)
Definition ex_sem : semaphore := mk_semaphore "sem" 0.
Definition ex_lock : lock := mk_lock "lock" 0 NULL 0.
Definition ex_cv : cv := mk_cv "cv" [].
Definition ex_boot : machine := boot ex_sem ex_lock ex_cv 0.
Definition ex_held : machine := set_lock (mk_lock "lock" 1 1000 1) ex_boot.
Definition ex_held2 : machine := set_lock (mk_lock "lock" 1 1000 2) ex_boot.

(** Thread 1000 holds the lock with counter [z]; the semaphore's count is
    as large as an [int] gets. *)
Definition ex_held_at (z : Z) : machine :=
  set_lock (mk_lock "lock" 1 1000 z) ex_boot.
Definition ex_sem_max : machine := set_sem (mk_semaphore "sem" INT_MAX) ex_boot.

(** Thread 1000 has called [P] on count 0 and thread 2000 has then called
    [V]: the count is 1 and thread 1000 is ready to run. *)
Definition ex_after_V : machine :=
  mk_machine (mk_semaphore "sem" 1) ex_lock ex_cv 0 [] [(1000, InP 100 0)].

(** Threads 1000, 2000 and 3000 wait on the condition variable, in this
    order, and thread 4000 holds the lock. *)
Definition ex_waiting : machine :=
  mk_machine ex_sem (mk_lock "lock" 1 4000 1) (mk_cv "cv" [1000; 2000; 3000]) 0
    [mk_sleeper 1000 1000 (InCvWait 200 0);
     mk_sleeper 2000 2000 (InCvWait 200 0);
     mk_sleeper 3000 3000 (InCvWait 200 0)]
    [].

(** The example machine with count 2, and the one in which thread 2000 is
    asleep on the lock that thread 1000 holds. *)
Definition ex_count2 : machine := set_sem (mk_semaphore "sem" 2) ex_boot.
Definition ex_blocked : machine :=
  thread_sleep (mk_cpu 2000 0) 200 (InLockAcquire 200 0 FromTop)
    (set_spl SPL_HIGH ex_held).

(** The machines at the end of [ex_lock_trace] and of [ex_sem_trace]
    below. *)
Definition ex_lock_final : machine := set_lock (mk_lock "lock" 1 2000 1) ex_boot.
Definition ex_sem_final : machine := ex_boot.

(** Thread 1000 takes the lock twice, thread 2000 tries to take it, thread
    1000 releases twice, thread 2000 continues. *)
Definition ex_lock_trace : list event :=
  [Invoke (mk_cpu 1000 0) 0 CallAcquire;
   Invoke (mk_cpu 1000 0) 0 CallAcquire;
   Invoke (mk_cpu 2000 0) 0 CallAcquire;
   Invoke (mk_cpu 1000 0) 0 CallRelease;
   Invoke (mk_cpu 1000 0) 0 CallRelease;
   Resume 2000].

(** Thread 1000 calls [P] on count 0, thread 2000 calls [V], thread 1000
    continues. *)
Definition ex_sem_trace : list event :=
  [Invoke (mk_cpu 1000 0) 0 CallP;
   Invoke (mk_cpu 2000 0) 0 CallV;
   Resume 1000].

Section World.

(** The addresses of the semaphore, the lock and the condition variable. *)
Variables sem_addr lock_addr cv_addr : addr.

Definition run_call (c : cpu) (f : call) (m : machine) : outcome :=
  match f with
  | CallP => P c sem_addr m
  | CallV => V c sem_addr m
  | CallAcquire => lock_acquire c lock_addr m
  | CallRelease => lock_release c lock_addr m
  | CallWait rc => cv_wait c cv_addr lock_addr rc m
  | CallSignal => cv_signal c cv_addr lock_addr m
  | CallBroadcast => cv_broadcast c cv_addr lock_addr m
  end.

(** Modelled from the spec: the scheduler (thread.c) is not among the
    sources.  A thread that is asleep, or woken and not yet running again, is
    inside a call and enters no other; a woken thread continues in interrupt
    level [SPL_HIGH], inside the masked section in which it went to sleep.
    A failed assertion halts the kernel: there is no next state. *)
Definition step (m : machine) (e : event) : option machine :=
  match e with
  | Invoke c spl f =>
      if busy (curthread c) m then Some m
      else settle (run_call c f (set_spl spl m))
  | Resume t =>
      match take t (runq m) with
      | Some (k, rest) =>
          settle (resume_at (mk_cpu t 0) k (set_spl SPL_HIGH (set_runq rest m)))
      | None => Some m
      end
  end.

Fixpoint exec (evs : list event) (m : machine) : option machine :=
  match evs with
  | [] => Some m
  | e :: evs' =>
      match step m e with
      | Some m' => exec evs' m'
      | None => None
      end
  end.

(** The lock's counter has gone from [INT_MAX] around to [INT_MIN] between
    [m] and [m']; and no step of the run of [evs] from [m] does that. *)
Definition wraps (m m' : machine) : Prop :=
  lock_counter (the_lock m) = INT_MAX /\ lock_counter (the_lock m') = INT_MIN.

Fixpoint no_wrap (evs : list event) (m : machine) : bool :=
  match evs with
  | [] => true
  | e :: evs' =>
      match step m e with
      | Some m' =>
          negb ((lock_counter (the_lock m) =? INT_MAX) &&
                (lock_counter (the_lock m') =? INT_MIN)) &&
          no_wrap evs' m'
      | None => true
      end
  end.

(** Thread structures, the semaphore and the lock are distinct objects. *)
Definition thread_ok (t : addr) : Prop :=
  t <> NULL /\ t <> sem_addr /\ t <> lock_addr.

Definition event_ok (e : event) : Prop :=
  match e with
  | Invoke c _ _ => thread_ok (curthread c)
  | Resume _ => True
  end.

Definition resume_ok (k : resume) : Prop :=
  match k with
  | InP s _ => s = sem_addr
  | InLockAcquire l _ _ => l = lock_addr
  | InCvWait l _ => l = lock_addr
  end.

Definition sleeper_ok (s : sleeper) : Prop :=
  resume_ok (sl_resume s) /\
  (sl_chan s = sem_addr \/ sl_chan s = lock_addr \/ sl_chan s = sl_thread s).

Definition threads_ok (m : machine) : Prop :=
  Forall thread_ok (busy_threads m) /\
  NoDup (busy_threads m) /\
  Forall sleeper_ok (sleepers m) /\
  Forall (fun e => resume_ok (snd e)) (runq m).

(** Every queued waiter is asleep on its own thread structure, and nobody
    else is asleep there. *)
Definition queue_ok (m : machine) : Prop :=
  Forall (fun t => sleeping_on t m = [t]) (q (the_cv m)) /\
  NoDup (q (the_cv m)).

Definition world_inv (m : machine) : Prop :=
  lock_ok (the_lock m) /\
  0 <= count (the_sem m) /\
  threads_ok m /\
  queue_ok m.

(** No wake-up is lost: nobody is asleep on the lock while it is free, nor
    on the semaphore while its count is positive. *)
Definition no_lost_wakeup (m : machine) : Prop :=
  (curthread_with_lock (the_lock m) = NULL -> sleeping_on lock_addr m = []) /\
  (0 < count (the_sem m) -> sleeping_on sem_addr m = []).

(** The wait queue lists the threads asleep inside [cv_wait], in order. *)
Definition queue_is_waiters (m : machine) : Prop :=
  cv_sleepers m = q (the_cv m).

(** The running thread: a thread structure that is not inside a call. *)
Definition fresh (c : cpu) (m : machine) : Prop :=
  thread_ok (curthread c) /\ ~ In (curthread c) (busy_threads m).

Inductive reachable : machine -> Prop :=
| reach_boot : forall n1 k a1 s n2 a2 l n3 a3 c spl,
    sem_create n1 k a1 = Allocated sem_addr s ->
    lock_create n2 a2 = Allocated lock_addr l ->
    cv_create n3 a3 = Allocated cv_addr c ->
    reachable (boot s l c spl)
| reach_step : forall m e m',
    reachable m -> event_ok e -> step m e = Some m' -> reachable m'.


(** ** Arithmetic of the counters *)

Ltac int_arith :=
  unfold int_succ, int_pred, wrap_int, int_modulus, INT_MAX, INT_MIN in *;
  repeat match goal with
  | |- context [?a =? ?b] => destruct (Z.eqb_spec a b)
  | H : context [?a =? ?b] |- _ => destruct (Z.eqb_spec a b)
  end;
  try (Z.div_mod_to_equations; lia).

Lemma int_succ_below (x : Z) : x <> INT_MAX -> int_succ x = x + 1.
Proof. intros H. int_arith. Qed.

Lemma int_pred_above (x : Z) : x <> INT_MIN -> int_pred x = x - 1.
Proof. intros H. int_arith. Qed.

Lemma int_pred_pos (x : Z) : 0 < x -> int_pred x = x - 1.
Proof. intros H. int_arith. Qed.

Lemma int_succ_pos (x : Z) : 0 < int_succ x -> int_succ x = x + 1.
Proof. intros H. int_arith. Qed.

Lemma int_succ_range (x : Z) :
  INT_MIN <= x <= INT_MAX -> INT_MIN <= int_succ x <= INT_MAX.
Proof. intros H. int_arith. Qed.

Lemma int_pred_range (x : Z) :
  INT_MIN <= x <= INT_MAX -> INT_MIN <= int_pred x <= INT_MAX.
Proof. intros H. int_arith. Qed.

Lemma wrap_int_range (z : Z) : INT_MIN <= wrap_int z <= INT_MAX.
Proof. int_arith. Qed.

Lemma wrap_int_id (z : Z) : INT_MIN <= z <= INT_MAX -> wrap_int z = z.
Proof. intros H. int_arith. Qed.

(** On an [int], [int_succ] and [int_pred] are [+ 1] and [- 1] taken modulo
    2^32 into the range of [int]. *)
Lemma int_succ_wrap (z : Z) : int_succ (wrap_int z) = wrap_int (z + 1).
Proof. int_arith. Qed.

Lemma int_pred_wrap (z : Z) : int_pred (wrap_int z) = wrap_int (z - 1).
Proof. int_arith. Qed.

Lemma wrap_int_nonzero (z : Z) : 0 < z < int_modulus -> wrap_int z <> 0.
Proof. intros H. int_arith. Qed.

(** ** Lists of sleepers *)

Lemma filter_on_off_perm (chan : addr) (sl : list sleeper) :
  Permutation (filter (off_chan chan) sl ++ filter (on_chan chan) sl) sl.
Proof.
  induction sl as [|s sl IH]; simpl; [constructor|].
  unfold off_chan, on_chan in *.
  destruct (sl_chan s =? chan); simpl.
  - apply Permutation_sym, Permutation_cons_app, Permutation_sym, IH.
  - constructor. exact IH.
Qed.

Lemma map_fst_to_run (sl : list sleeper) :
  map fst (map to_run sl) = map sl_thread sl.
Proof. induction sl; simpl; congruence. Qed.

Lemma busy_wakeup (chan : addr) (m : machine) :
  Permutation (busy_threads (thread_wakeup chan m)) (busy_threads m).
Proof.
  unfold busy_threads, thread_wakeup; simpl.
  rewrite map_app, map_fst_to_run.
  rewrite <- (filter_on_off_perm chan (sleepers m)) at 3.
  rewrite map_app, <- !app_assoc.
  apply Permutation_app_head, Permutation_app_comm.
Qed.

Lemma busy_sleep (c : cpu) (chan : addr) (k : resume) (m : machine) :
  Permutation (busy_threads (thread_sleep c chan k m)) (curthread c :: busy_threads m).
Proof.
  unfold busy_threads, thread_sleep; simpl.
  rewrite map_app; simpl. rewrite <- app_assoc; simpl.
  apply Permutation_sym, Permutation_middle.
Qed.

Lemma filter_on_off (t chan : addr) (sl : list sleeper) :
  t <> chan ->
  filter (on_chan t) (filter (off_chan chan) sl) = filter (on_chan t) sl.
Proof.
  intros Hne. induction sl as [|s sl IH]; simpl; [reflexivity|].
  unfold off_chan, on_chan in *.
  destruct (Z.eqb_spec (sl_chan s) chan) as [E|E]; simpl.
  - destruct (Z.eqb_spec (sl_chan s) t); [congruence | exact IH].
  - destruct (sl_chan s =? t); [f_equal|]; exact IH.
Qed.

Lemma sleeping_on_wakeup (t chan : addr) (m : machine) :
  t <> chan -> sleeping_on t (thread_wakeup chan m) = sleeping_on t m.
Proof.
  intros Hne. unfold sleeping_on, thread_wakeup; simpl.
  now rewrite filter_on_off.
Qed.

Lemma sleeping_on_sleep (t : addr) (c : cpu) (chan : addr) (k : resume) (m : machine) :
  t <> chan -> sleeping_on t (thread_sleep c chan k m) = sleeping_on t m.
Proof.
  intros Hne. unfold sleeping_on, thread_sleep; simpl.
  rewrite filter_app; simpl. unfold on_chan at 2; simpl.
  destruct (Z.eqb_spec chan t); [congruence|]. now rewrite app_nil_r.
Qed.

Lemma sleeping_on_In (t chan : addr) (m : machine) :
  In t (sleeping_on chan m) -> In t (busy_threads m).
Proof.
  unfold sleeping_on, busy_threads. intros H.
  apply in_or_app; left.
  apply in_map_iff in H as (s & <- & Hs).
  apply filter_In in Hs as [Hs _]. now apply in_map.
Qed.

Lemma take_split (t : addr) (rq : list (addr * resume)) k rest :
  take t rq = Some (k, rest) ->
  exists l1 l2, rq = l1 ++ (t, k) :: l2 /\ rest = l1 ++ l2.
Proof.
  revert k rest. induction rq as [|[t' k'] rq IH]; simpl; intros k rest H.
  - discriminate.
  - destruct (Z.eqb_spec t' t) as [->|Hne].
    + inversion H; subst. now exists [], rest.
    + destruct (take t rq) as [[k1 r1]|]; [|discriminate].
      inversion H; subst.
      destruct (IH _ _ eq_refl) as (l1 & l2 & -> & ->).
      now exists ((t', k') :: l1), l2.
Qed.

Lemma busy_false (t : addr) (m : machine) :
  busy t m = false -> ~ In t (busy_threads m).
Proof.
  unfold busy. intros H Hin.
  assert (existsb (Z.eqb t) (busy_threads m) = true) as E.
  { apply existsb_exists. exists t. split; [assumption | apply Z.eqb_refl]. }
  congruence.
Qed.

(** ** The invariant of the kernel state *)

Lemma threads_ok_wakeup (chan : addr) (m : machine) :
  threads_ok m -> threads_ok (thread_wakeup chan m).
Proof.
  intros (Hok & Hnd & Hsl & Hrq). unfold threads_ok. repeat split.
  - eapply Permutation_Forall; [apply Permutation_sym, busy_wakeup | exact Hok].
  - eapply Permutation_NoDup; [apply Permutation_sym, busy_wakeup | exact Hnd].
  - simpl. apply Forall_forall. intros s Hs.
    apply filter_In in Hs as [Hs _].
    revert s Hs. now apply Forall_forall.
  - simpl. apply Forall_app. split; [exact Hrq|].
    apply Forall_forall. intros e He.
    apply in_map_iff in He as (s & <- & Hs).
    apply filter_In in Hs as [Hs _]. simpl.
    rewrite Forall_forall in Hsl. now apply Hsl.
Qed.

Lemma threads_ok_sleep (c : cpu) (chan : addr) (k : resume) (m : machine) :
  threads_ok m -> fresh c m -> resume_ok k ->
  chan = sem_addr \/ chan = lock_addr \/ chan = curthread c ->
  threads_ok (thread_sleep c chan k m).
Proof.
  intros (Hok & Hnd & Hsl & Hrq) [Hc Hfresh] Hk Hchan. unfold threads_ok. repeat split.
  - eapply Permutation_Forall; [apply Permutation_sym, busy_sleep|].
    now constructor.
  - eapply Permutation_NoDup; [apply Permutation_sym, busy_sleep|].
    now constructor.
  - simpl. apply Forall_app. split; [exact Hsl|].
    constructor; [|constructor]. split; simpl; assumption.
  - exact Hrq.
Qed.

Lemma queue_ok_wakeup_obj (chan : addr) (m : machine) :
  threads_ok m -> queue_ok m -> chan = sem_addr \/ chan = lock_addr ->
  queue_ok (thread_wakeup chan m).
Proof.
  intros (Hok & _) [Hq Hnd] Hchan. split; [|exact Hnd].
  simpl. rewrite Forall_forall in *. intros t Ht.
  rewrite sleeping_on_wakeup; [now apply Hq|].
  assert (thread_ok t) as (_ & Hs & Hl).
  { apply Hok. apply (sleeping_on_In t t). rewrite (Hq t Ht). now left. }
  destruct Hchan; congruence.
Qed.

Lemma queue_ok_sleep_obj (c : cpu) (chan : addr) (k : resume) (m : machine) :
  threads_ok m -> queue_ok m -> chan = sem_addr \/ chan = lock_addr ->
  queue_ok (thread_sleep c chan k m).
Proof.
  intros (Hok & _) [Hq Hnd] Hchan. split; [|exact Hnd].
  simpl. rewrite Forall_forall in *. intros t Ht.
  rewrite sleeping_on_sleep; [now apply Hq|].
  assert (thread_ok t) as (_ & Hs & Hl).
  { apply Hok. apply (sleeping_on_In t t). rewrite (Hq t Ht). now left. }
  destruct Hchan; congruence.
Qed.

Ltac zcases :=
  repeat match goal with
  | |- context [?a =? ?b] => destruct (Z.eqb_spec a b)
  | |- context [?a <? ?b] => destruct (Z.ltb_spec a b)
  end.

Ltac inv_split := split; [|split; [|split]].

Ltac lock_arith :=
  unfold lock_ok, lock_wf, lock_inv, NULL in *; simpl in *;
  try match goal with
  | |- context [int_succ ?x] =>
      pose proof (int_succ_range x); pose proof (int_succ_below x)
  | |- context [int_pred ?x] =>
      pose proof (int_pred_range x); pose proof (int_pred_above x)
  end;
  unfold INT_MIN, INT_MAX in *; intuition lia.

Lemma P_loop_inv (c : cpu) (spl : Z) (m : machine) :
  world_inv m -> fresh c m -> after (P_loop c sem_addr spl m) world_inv.
Proof.
  intros (Hl & Hs & Ht & Hq) Hc. unfold P_loop. zcases; simpl; auto.
  - inv_split; try assumption.
    + apply threads_ok_sleep; simpl; auto.
    + apply queue_ok_sleep_obj; auto.
  - inv_split; try assumption. simpl. rewrite int_pred_pos; lia.
Qed.

Lemma P_inv (c : cpu) (m : machine) :
  world_inv m -> fresh c m -> after (P c sem_addr m) world_inv.
Proof.
  intros Hm Hc. unfold P. zcases; simpl; auto.
  apply P_loop_inv; assumption.
Qed.

Lemma V_inv (c : cpu) (m : machine) :
  world_inv m -> after (V c sem_addr m) world_inv.
Proof.
  intros (Hl & Hs & Ht & Hq). unfold V. simpl. zcases; simpl; auto.
  inv_split; try assumption.
  - simpl in *. lia.
  - apply (threads_ok_wakeup sem_addr) in Ht. exact Ht.
  - apply (queue_ok_wakeup_obj sem_addr) in Hq; auto.
Qed.

Lemma return_to_inv (ret : caller) (m : machine) :
  world_inv m -> after (return_to ret m) world_inv.
Proof. intros H. destruct ret; exact H. Qed.

Lemma lock_acquire_loop_inv (c : cpu) (spl : Z) (ret : caller) (m : machine) :
  world_inv m -> fresh c m -> after (lock_acquire_loop c lock_addr spl ret m) world_inv.
Proof.
  intros (Hl & Hs & Ht & Hq) Hc. unfold lock_acquire_loop. zcases.
  - simpl. inv_split; try assumption.
    + apply threads_ok_sleep; simpl; auto.
    + apply queue_ok_sleep_obj; auto.
  - apply return_to_inv. split; [|split; [exact Hs | split; [exact Ht | exact Hq]]].
    destruct Hc as [(Hn & _) _]. revert Hn. generalize (curthread c). intros t Hn.
    lock_arith.
Qed.

Lemma lock_acquire_from_inv (ret : caller) (c : cpu) (m : machine) :
  world_inv m -> fresh c m -> after (lock_acquire_from ret c lock_addr m) world_inv.
Proof.
  intros Hm Hc. unfold lock_acquire_from. simpl.
  destruct (Z.eqb_spec lock_addr NULL); simpl; auto.
  destruct (Z.eqb_spec (curthread c) (curthread_with_lock (the_lock m))) as [E|E].
  - apply return_to_inv. destruct Hm as (Hl & Hs & Ht & Hq).
    split; [|split; [exact Hs | split; [exact Ht | exact Hq]]].
    destruct Hc as [(Hn & _) _]. rewrite E in Hn. lock_arith.
  - apply (lock_acquire_loop_inv c (curspl m) ret (set_spl SPL_HIGH m)); assumption.
Qed.

Lemma lock_release_inv (c : cpu) (m : machine) :
  world_inv m -> thread_ok (curthread c) -> after (lock_release c lock_addr m) world_inv.
Proof.
  intros (Hl & Hs & Ht & Hq) (Hn & _). unfold lock_release. simpl.
  destruct (Z.eqb_spec lock_addr NULL); simpl; auto.
  destruct (Z.eqb_spec (curthread c) (curthread_with_lock (the_lock m))) as [E|E]; simpl.
  - rewrite E in Hn.
    destruct (Z.eqb_spec (int_pred (lock_counter (the_lock m))) 0) as [E0|E0]; simpl.
    + split; [|split; [exact Hs | split]].
      * lock_arith.
      * apply (threads_ok_wakeup lock_addr) in Ht. exact Ht.
      * apply (queue_ok_wakeup_obj lock_addr) in Hq; auto.
    + split; [|split; [exact Hs | split; [exact Ht | exact Hq]]]. lock_arith.
  - inv_split; assumption.
Qed.

Lemma set_spl_id (m : machine) : set_spl (curspl m) m = m.
Proof. now destruct m. Qed.

Lemma lock_do_i_hold_eq (c : cpu) (lock : addr) (m : machine) :
  lock_do_i_hold c lock m =
  (if curthread_with_lock (the_lock m) =? curthread c then 1 else 0, m).
Proof.
  unfold lock_do_i_hold, splhigh, splx. simpl.
  replace (set_spl (curspl m) (set_spl SPL_HIGH m)) with m by now destruct m.
  now destruct (_ =? _).
Qed.

Lemma threads_ok_ext (m m' : machine) :
  sleepers m' = sleepers m -> runq m' = runq m -> threads_ok m -> threads_ok m'.
Proof.
  unfold threads_ok, busy_threads. intros -> ->. trivial.
Qed.

Lemma fresh_wakeup (c : cpu) (chan : addr) (m : machine) :
  fresh c m -> fresh c (thread_wakeup chan m).
Proof.
  intros [Hc Hn]. split; [exact Hc|]. intros Hin. apply Hn.
  eapply Permutation_in; [apply busy_wakeup | exact Hin].
Qed.

Lemma no_sleeper_on_fresh (c : cpu) (m : machine) :
  threads_ok m -> fresh c m -> sleeping_on (curthread c) m = [].
Proof.
  intros (_ & _ & Hsl & _) [(_ & Hs & Hl) Hn].
  unfold sleeping_on, busy_threads in *.
  assert (~ In (curthread c) (map sl_thread (sleepers m))) as Hn'.
  { intros H. apply Hn. apply in_or_app. now left. }
  clear Hn. induction (sleepers m) as [|s sl IH]; simpl in *; [reflexivity|].
  inversion Hsl as [|? ? [_ Hch] Hsl']; subst.
  unfold on_chan at 1.
  destruct (Z.eqb_spec (sl_chan s) (curthread c)) as [E|E].
  - exfalso. destruct Hch as [H|[H|H]]; try congruence.
    apply Hn'. left. congruence.
  - apply IH; [exact Hsl'|]. intros H. apply Hn'. now right.
Qed.

Lemma queue_ok_enqueue_sleep (c : cpu) (k : resume) (m m' : machine) :
  threads_ok m -> queue_ok m -> fresh c m ->
  sleepers m' = sleepers m ++ [mk_sleeper (curthread c) (curthread c) k] ->
  q (the_cv m') = q (the_cv m) ++ [curthread c] ->
  queue_ok m'.
Proof.
  intros Ht [Hq Hnd] Hc Es Eq.
  assert (forall t, In t (q (the_cv m)) -> In t (busy_threads m)) as Hbusy.
  { intros t Hin. rewrite Forall_forall in Hq.
    apply (sleeping_on_In t t). rewrite (Hq t Hin). now left. }
  assert (forall t, sleeping_on t m' =
                    sleeping_on t m ++ (if curthread c =? t then [curthread c] else [])) as E.
  { intros t. unfold sleeping_on. rewrite Es, filter_app, map_app. simpl.
    unfold on_chan at 2. simpl. now destruct (_ =? _). }
  split.
  - rewrite Eq. apply Forall_app. split.
    + rewrite Forall_forall in *. intros t Hin. rewrite E.
      destruct (Z.eqb_spec (curthread c) t) as [<-|_].
      * exfalso. apply Hc. now apply Hbusy.
      * rewrite app_nil_r. now apply Hq.
    + constructor; [|constructor]. rewrite E, Z.eqb_refl.
      now rewrite (no_sleeper_on_fresh c m).
  - rewrite Eq. apply NoDup_app.
    + exact Hnd.
    + constructor; [intros [] | constructor].
    + intros t Hin [<-|[]]. apply Hc. now apply Hbusy.
Qed.

Lemma cv_wait_inv (c : cpu) (rc : Z) (m : machine) :
  world_inv m -> fresh c m -> after (cv_wait c cv_addr lock_addr rc m) world_inv.
Proof.
  intros (Hl & Hs & Ht & Hq) Hc. unfold cv_wait.
  rewrite lock_do_i_hold_eq.
  destruct (Z.eqb_spec (curthread_with_lock (the_lock m)) (curthread c)) as [E|E];
    simpl; [|exact I].
  unfold q_addtail. destruct (Z.eqb_spec rc 0) as [->|Hrc]; simpl.
  2: { apply Z.eqb_neq in Hrc. rewrite Hrc. exact I. }
  unfold lock_release. simpl.
  destruct (Z.eqb_spec lock_addr NULL); simpl; [exact I|].
  rewrite E, Z.eqb_refl. simpl.
  assert (curthread_with_lock (the_lock m) <> NULL) as Hn.
  { rewrite E. apply Hc. }
  destruct (Z.eqb_spec (int_pred (lock_counter (the_lock m))) 0) as [E0|E0]; simpl.
  - inv_split.
    + lock_arith.
    + exact Hs.
    + apply threads_ok_sleep; simpl; auto.
      * apply (threads_ok_ext (thread_wakeup lock_addr m)); try reflexivity.
        now apply threads_ok_wakeup.
      * apply (fresh_wakeup c lock_addr) in Hc. exact Hc.
    + apply (queue_ok_enqueue_sleep c (InCvWait lock_addr (curspl m))
               (thread_wakeup lock_addr m)); try reflexivity.
      * now apply threads_ok_wakeup.
      * apply queue_ok_wakeup_obj; auto.
      * now apply fresh_wakeup.
  - inv_split.
    + lock_arith.
    + exact Hs.
    + apply threads_ok_sleep; simpl; auto.
    + apply (queue_ok_enqueue_sleep c (InCvWait lock_addr (curspl m)) m);
        auto; reflexivity.
Qed.

Lemma wake_head_inv (m : machine) : world_inv m -> world_inv (wake_head m).
Proof.
  intros (Hl & Hs & Ht & [Hq Hnd]). unfold wake_head, q_remhead.
  destruct (q (the_cv m)) as [|h rest] eqn:Eq.
  - inv_split; try assumption.
    + apply (threads_ok_ext (thread_wakeup NULL m)); try reflexivity.
      now apply threads_ok_wakeup.
    + split; simpl; constructor.
  - inv_split; try assumption.
    + apply (threads_ok_ext (thread_wakeup h m)); try reflexivity.
      now apply threads_ok_wakeup.
    + inversion Hq as [|? ? Hh Hrest]; subst.
      inversion Hnd as [|? ? Hnot Hnd']; subst.
      split; simpl; [|exact Hnd'].
      rewrite Forall_forall in *. intros t Hin.
      change (sleeping_on t (thread_wakeup h m) = [t]).
      rewrite sleeping_on_wakeup; [now apply Hrest|].
      intros ->. contradiction.
Qed.

Lemma cv_broadcast_loop_inv (m : machine) :
  world_inv m -> world_inv (cv_broadcast_loop m).
Proof.
  funelim (cv_broadcast_loop m); intros Hm.
  - match goal with IH : world_inv _ -> _ |- _ => apply IH end.
    now apply wake_head_inv.
  - exact Hm.
Qed.

Lemma cv_signal_inv (c : cpu) (m : machine) :
  world_inv m -> after (cv_signal c cv_addr lock_addr m) world_inv.
Proof.
  intros Hm. unfold cv_signal. rewrite lock_do_i_hold_eq.
  destruct (_ =? curthread c); simpl; [|exact I].
  destruct (q_empty (q (the_cv m)) =? 0); simpl.
  - apply (wake_head_inv (set_spl SPL_HIGH m)) in Hm. exact Hm.
  - exact Hm.
Qed.

Lemma cv_broadcast_inv (c : cpu) (m : machine) :
  world_inv m -> after (cv_broadcast c cv_addr lock_addr m) world_inv.
Proof.
  intros Hm. unfold cv_broadcast. destruct (cv_addr =? NULL); [exact I|].
  rewrite lock_do_i_hold_eq.
  destruct (_ =? curthread c); simpl; [|exact I].
  apply (cv_broadcast_loop_inv (set_spl SPL_HIGH m)) in Hm. exact Hm.
Qed.

Lemma run_call_inv (c : cpu) (f : call) (m : machine) :
  world_inv m -> fresh c m -> after (run_call c f m) world_inv.
Proof.
  intros Hm Hc. destruct f; simpl.
  - now apply P_inv.
  - now apply V_inv.
  - now apply lock_acquire_from_inv.
  - apply lock_release_inv; [exact Hm | apply Hc].
  - now apply cv_wait_inv.
  - now apply cv_signal_inv.
  - now apply cv_broadcast_inv.
Qed.

Lemma resume_at_inv (c : cpu) (k : resume) (m : machine) :
  world_inv m -> fresh c m -> resume_ok k -> after (resume_at c k m) world_inv.
Proof.
  intros Hm Hc Hk. destruct k; simpl in *; subst.
  - now apply P_loop_inv.
  - now apply lock_acquire_loop_inv.
  - now apply lock_acquire_from_inv.
Qed.

Lemma take_inv (t : addr) (k : resume) (rest : list (addr * resume)) (m : machine) :
  threads_ok m -> take t (runq m) = Some (k, rest) ->
  threads_ok (set_runq rest m) /\ fresh (mk_cpu t 0) (set_runq rest m) /\ resume_ok k.
Proof.
  intros (Hok & Hnd & Hsl & Hrq) Htake.
  apply take_split in Htake as (l1 & l2 & Erq & ->).
  unfold threads_ok, fresh, busy_threads in *. simpl. rewrite Erq in *.
  rewrite !map_app in *. simpl in *. rewrite app_assoc in *.
  apply NoDup_remove in Hnd as [Hnd Hnot].
  apply Forall_app in Hok as [Hok1 Hok2].
  inversion Hok2 as [|? ? Hot Hok3]; subst.
  apply Forall_app in Hrq as [Hr1 Hr2].
  inversion Hr2 as [|? ? Hk Hr3]; subst.
  repeat split; try assumption; try apply Hot.
  - apply Forall_app. split; assumption.
  - apply Forall_app. split; assumption.
Qed.

Lemma step_inv (m : machine) (e : event) (m' : machine) :
  world_inv m -> event_ok e -> step m e = Some m' -> world_inv m'.
Proof.
  intros Hm He. destruct e as [c spl f | t]; simpl.
  - destruct (busy (curthread c) m) eqn:Hb; [now intros [= <-]|].
    apply busy_false in Hb.
    pose proof (run_call_inv c f (set_spl spl m) Hm (conj He Hb)) as H.
    destruct (run_call c f (set_spl spl m)); simpl in *; congruence.
  - destruct (take t (runq m)) as [[k rest]|] eqn:Htake; [|now intros [= <-]].
    destruct Hm as (Hl & Hs & Ht & Hq).
    destruct (take_inv t k rest m Ht Htake) as (Ht' & Hc & Hk).
    assert (world_inv (set_spl SPL_HIGH (set_runq rest m))) as Hm1.
    { inv_split; assumption. }
    pose proof (resume_at_inv (mk_cpu t 0) k _ Hm1 Hc Hk) as H.
    destruct (resume_at _ _ _); simpl in *; congruence.
Qed.

Lemma created_lock_wf (n : string) (a : alloc) (p : addr) (l : lock) :
  lock_create n a = Allocated p l -> lock_wf l /\ p <> NULL.
Proof.
  unfold lock_create. destruct (Z.eqb_spec (kmalloc_ret a) NULL); [discriminate|].
  destruct (kstrdup_ret a); [|discriminate]. intros [= <- <-].
  split; [lock_arith | assumption].
Qed.

Lemma created_lock_ok (n : string) (a : alloc) (p : addr) (l : lock) :
  lock_create n a = Allocated p l -> lock_ok l /\ p <> NULL.
Proof.
  unfold lock_create. destruct (Z.eqb_spec (kmalloc_ret a) NULL); [discriminate|].
  destruct (kstrdup_ret a); [|discriminate]. intros [= <- <-].
  split; [lock_arith | assumption].
Qed.

Lemma created_sem_nonneg (n : string) (k : Z) (a : alloc) (p : addr) (s : semaphore) :
  sem_create n k a = Allocated p s -> 0 <= count s /\ count s = k /\ p <> NULL.
Proof.
  unfold sem_create. destruct (Z.ltb_spec k 0); [discriminate|].
  destruct (Z.eqb_spec (kmalloc_ret a) NULL); [discriminate|].
  destruct (kstrdup_ret a); [|discriminate]. intros [= <- <-]. simpl. auto.
Qed.

Lemma created_cv_empty (n : string) (a : alloc) (p : addr) (c : cv) :
  cv_create n a = Allocated p c -> q c = [] /\ p <> NULL.
Proof.
  unfold cv_create. destruct (Z.eqb_spec (kmalloc_ret a) NULL); [discriminate|].
  destruct (kstrdup_ret a); [|discriminate]. intros [= <- <-]. simpl. auto.
Qed.

Lemma boot_inv (s : semaphore) (l : lock) (c : cv) (spl : Z) :
  0 <= count s -> lock_ok l -> q c = [] -> world_inv (boot s l c spl).
Proof.
  intros Hs Hl Hq. inv_split; simpl; try assumption.
  - repeat split; simpl; constructor.
  - split; simpl; rewrite Hq; constructor.
Qed.

Lemma reachable_inv (m : machine) : reachable m -> world_inv m.
Proof.
  induction 1 as [n1 k a1 s n2 a2 l n3 a3 c spl Hs Hl Hc | m e m' _ IH He Hstep].
  - apply boot_inv.
    + eapply created_sem_nonneg; eauto.
    + eapply created_lock_ok; eauto.
    + eapply created_cv_empty; eauto.
  - eapply step_inv; eauto.
Qed.

Lemma exec_reachable (evs : list event) (m m' : machine) :
  reachable m -> Forall event_ok evs -> exec evs m = Some m' -> reachable m'.
Proof.
  revert m. induction evs as [|e evs IH]; simpl; intros m Hm Hev Hex.
  - now inversion Hex; subst.
  - inversion Hev; subst.
    destruct (step m e) as [m1|] eqn:Hstep; [|discriminate].
    apply (IH m1); auto. eapply reach_step; eauto.
Qed.

Lemma exec_app (evs1 evs2 : list event) (m : machine) :
  exec (evs1 ++ evs2) m =
  match exec evs1 m with Some m1 => exec evs2 m1 | None => None end.
Proof.
  revert m. induction evs1 as [|e evs1 IH]; simpl; intros m; [reflexivity|].
  destruct (step m e); [apply IH | reflexivity].
Qed.

Lemma reachable_addrs (m : machine) :
  reachable m -> sem_addr <> NULL /\ lock_addr <> NULL /\ cv_addr <> NULL.
Proof.
  induction 1 as [n1 k a1 s n2 a2 l n3 a3 c spl Hs Hl Hc | ]; [|assumption].
  apply created_sem_nonneg in Hs. apply created_lock_wf in Hl.
  apply created_cv_empty in Hc. tauto.
Qed.

(** What [thread_wakeup] does to the scheduler's lists: nobody is left
    asleep on the channel, and those who were are appended to the run queue
    in the order in which they went to sleep. *)
Lemma thread_wakeup_all (chan : addr) (m : machine) :
  sleeping_on chan (thread_wakeup chan m) = [] /\
  map fst (runq (thread_wakeup chan m)) = map fst (runq m) ++ sleeping_on chan m.
Proof.
  unfold sleeping_on, thread_wakeup; simpl. split.
  - induction (sleepers m) as [|s sl IH]; simpl; [reflexivity|].
    unfold off_chan at 1. destruct (Z.eqb_spec (sl_chan s) chan) as [E|E]; simpl.
    + exact IH.
    + unfold on_chan at 1. destruct (Z.eqb_spec (sl_chan s) chan); [congruence|].
      exact IH.
  - now rewrite map_app, map_fst_to_run.
Qed.

(** ** Lock: release by a thread that is not the owner *)

(** C4: when the calling thread is not the owner of the lock (a free lock,
    whose owner is NULL, included), [lock_release] returns without a fatal
    error and leaves the whole machine as it was: the lock's owner, counter
    and status, the sleeping threads and the run queue. *)
Theorem lock_release_not_owner (c : cpu) (lock : addr) (m : machine) :
  lock <> NULL ->
  curthread c <> curthread_with_lock (the_lock m) ->
  lock_release c lock m = Returns m.
Proof.
  intros Hl Hc. unfold lock_release.
  destruct (Z.eqb_spec lock NULL); [contradiction|]. simpl.
  destruct (Z.eqb_spec (curthread c) (curthread_with_lock (the_lock m)));
    [contradiction|]. simpl.
  f_equal. now destruct m.
Qed.

(** ** Condition variable: a failed enqueue *)

Lemma cv_wait_sleeps (c : cpu) (cv lock : addr) (rc : Z) (m m' : machine) :
  cv_wait c cv lock rc m = Sleeps m' ->
  rc = 0 /\
  q (the_cv m') = q (the_cv m) ++ [curthread c] /\
  exists sl spl,
    sleepers m' = sl ++ [mk_sleeper (curthread c) (curthread c) (InCvWait lock spl)].
Proof.
  unfold cv_wait. rewrite lock_do_i_hold_eq.
  destruct (curthread_with_lock (the_lock m) =? curthread c); simpl;
    [|discriminate].
  unfold q_addtail.
  destruct (Z.eqb_spec rc 0) as [->|Hrc]; simpl.
  2: { apply Z.eqb_neq in Hrc. rewrite Hrc. discriminate. }
  unfold lock_release. destruct (lock =? NULL); simpl; [discriminate|].
  destruct (negb _); simpl; [|destruct (_ =? 0); simpl];
    intros [= <-]; simpl; eauto.
Qed.

(** C10: when [q_addtail] returns a non-zero code, [cv_wait] halts on its
    assertion; it never returns within the run that enqueues; and whenever it
    reaches [thread_sleep], the code was zero and the calling thread is the
    last entry of the wait queue and the last sleeper, on its own channel. *)
Theorem cv_wait_enqueues_or_halts (c : cpu) (cv lock : addr) (rc : Z) (m : machine) :
  (rc <> 0 -> cv_wait c cv lock rc m = Panics) /\
  (forall m', cv_wait c cv lock rc m <> Returns m') /\
  (forall m', cv_wait c cv lock rc m = Sleeps m' ->
     rc = 0 /\
     q (the_cv m') = q (the_cv m) ++ [curthread c] /\
     exists sl spl,
       sleepers m' = sl ++ [mk_sleeper (curthread c) (curthread c) (InCvWait lock spl)]).
Proof.
  split; [|split].
  - intros Hrc. unfold cv_wait. rewrite lock_do_i_hold_eq.
    destruct (_ =? curthread c); simpl; [|reflexivity].
    unfold q_addtail. apply Z.eqb_neq in Hrc. rewrite Hrc. simpl.
    rewrite Hrc. reflexivity.
  - intros m'. unfold cv_wait. rewrite lock_do_i_hold_eq.
    destruct (_ =? curthread c); simpl; [|discriminate].
    destruct (q_addtail rc (q (the_cv m)) (curthread c)) as [result q'].
    destruct (negb (result =? 0)); [discriminate|].
    destruct (lock_release c lock _); discriminate.
  - intros m'. apply cv_wait_sleeps.
Qed.

(** ** Lock: the counter and the owner *)

Lemma lock_acquire_loop_lock_inv c lock spl ret m :
  curthread c <> NULL -> lock_inv_of m ->
  after (lock_acquire_loop c lock spl ret m) (fun m' => lock_inv_of m' \/ wraps m m').
Proof.
  intros Hc Hm. unfold lock_acquire_loop.
  destruct (status (the_lock m) =? 1); simpl; [now left|].
  destruct (Z.eq_dec (lock_counter (the_lock m)) INT_MAX) as [E|E].
  - destruct ret; simpl; right; (split; [exact E|]); simpl; rewrite E; reflexivity.
  - destruct ret; simpl; left; unfold lock_inv_of in *;
      revert Hc; generalize (curthread c); intros t Hc; lock_arith.
Qed.

Lemma lock_acquire_from_lock_inv ret c lock m :
  curthread c <> NULL -> lock_inv_of m ->
  after (lock_acquire_from ret c lock m) (fun m' => lock_inv_of m' \/ wraps m m').
Proof.
  intros Hc Hm. unfold lock_acquire_from.
  destruct (lock =? NULL); simpl; [exact I|].
  destruct (Z.eqb_spec (curthread c) (curthread_with_lock (the_lock m))) as [E|E].
  - rewrite E in Hc.
    destruct (Z.eq_dec (lock_counter (the_lock m)) INT_MAX) as [E1|E1].
    + destruct ret; simpl; right; (split; [exact E1|]); simpl; rewrite E1; reflexivity.
    + destruct ret; simpl; left; unfold lock_inv_of in *; lock_arith.
  - apply (lock_acquire_loop_lock_inv c lock (curspl m) ret (set_spl SPL_HIGH m));
      assumption.
Qed.

Lemma lock_release_lock_inv c lock m :
  curthread c <> NULL -> lock_inv_of m ->
  after (lock_release c lock m) lock_inv_of.
Proof.
  intros Hc Hm. unfold lock_release.
  destruct (lock =? NULL); simpl; [exact I|].
  destruct (Z.eqb_spec (curthread c) (curthread_with_lock (the_lock m))) as [E|E];
    simpl; [|exact Hm].
  rewrite E in Hc.
  assert (int_pred (lock_counter (the_lock m)) = lock_counter (the_lock m) - 1) as Ep.
  { apply int_pred_pos. unfold lock_inv_of in Hm. lock_arith. }
  rewrite Ep.
  destruct (Z.eqb_spec (lock_counter (the_lock m) - 1) 0); simpl;
    unfold lock_inv_of in *; lock_arith.
Qed.

Lemma wake_head_lock (m : machine) : the_lock (wake_head m) = the_lock m.
Proof. unfold wake_head. now destruct (q (the_cv m)). Qed.

Lemma cv_broadcast_loop_lock (m : machine) :
  the_lock (cv_broadcast_loop m) = the_lock m.
Proof.
  funelim (cv_broadcast_loop m).
  - match goal with IH : the_lock _ = _ |- _ => rewrite IH end.
    apply wake_head_lock.
  - reflexivity.
Qed.

Lemma run_call_lock_inv (c : cpu) (f : call) (m : machine) :
  curthread c <> NULL -> lock_inv_of m ->
  after (run_call c f m) (fun m' => lock_inv_of m' \/ wraps m m').
Proof.
  intros Hc Hm. destruct f; simpl.
  - unfold P, P_loop. destruct (sem_addr =? NULL); simpl; [exact I|].
    destruct (negb _); simpl; [exact I|].
    destruct (_ =? 0); simpl; [now left|].
    destruct (0 <? _); simpl; [now left | exact I].
  - unfold V. destruct (sem_addr =? NULL); simpl; [exact I|].
    destruct (0 <? _); simpl; [now left | exact I].
  - now apply lock_acquire_from_lock_inv.
  - pose proof (lock_release_lock_inv c lock_addr m Hc Hm) as H.
    destruct (lock_release c lock_addr m); simpl in *; auto.
  - unfold cv_wait. rewrite lock_do_i_hold_eq.
    destruct (_ =? curthread c); simpl; [|exact I].
    destruct (q_addtail rc (q (the_cv m)) (curthread c)) as [result q'].
    destruct (negb (result =? 0)); simpl; [exact I|].
    pose proof (lock_release_lock_inv c lock_addr
                  (set_cv (mk_cv (cv_name (the_cv m)) q') (set_spl SPL_HIGH m))
                  Hc Hm) as H.
    destruct (lock_release c lock_addr _); simpl in *; auto.
  - unfold cv_signal. rewrite lock_do_i_hold_eq.
    destruct (_ =? curthread c); simpl; [|exact I].
    destruct (_ =? 0); simpl; left; [|exact Hm].
    unfold lock_inv_of. simpl. now rewrite wake_head_lock.
  - unfold cv_broadcast. destruct (cv_addr =? NULL); simpl; [exact I|].
    rewrite lock_do_i_hold_eq.
    destruct (_ =? curthread c); simpl; [|exact I].
    left. unfold lock_inv_of. simpl. now rewrite cv_broadcast_loop_lock.
Qed.

Lemma step_lock_inv (m : machine) (e : event) (m' : machine) :
  world_inv m -> lock_inv_of m -> event_ok e -> step m e = Some m' ->
  lock_inv_of m' \/ wraps m m'.
Proof.
  intros Hw Hm He. destruct e as [c spl f | t]; simpl.
  - destruct (busy (curthread c) m); [intros [= <-]; now left|].
    pose proof (run_call_lock_inv c f (set_spl spl m) (proj1 He) Hm) as H.
    destruct (run_call c f (set_spl spl m)); simpl in *;
      try discriminate; intros [= <-]; exact H.
  - destruct (take t (runq m)) as [[k rest]|] eqn:Htake; [|intros [= <-]; now left].
    destruct Hw as (_ & _ & Ht & _).
    destruct (take_inv t k rest m Ht Htake) as (_ & [(Hn & _) _] & _).
    simpl in Hn.
    assert (after (resume_at (mk_cpu t 0) k (set_spl SPL_HIGH (set_runq rest m)))
              (fun m' => lock_inv_of m' \/ wraps m m')) as H.
    { destruct k as [sem spl | lock spl ret | lock spl]; simpl.
      - unfold P_loop. destruct (_ =? 0); simpl; [now left|].
        destruct (0 <? _); simpl; [now left | exact I].
      - now apply (lock_acquire_loop_lock_inv (mk_cpu t 0) lock spl ret
                     (set_spl SPL_HIGH (set_runq rest m))).
      - now apply (lock_acquire_from_lock_inv (FromCvWait spl) (mk_cpu t 0) lock
                     (set_spl SPL_HIGH (set_runq rest m))). }
    destruct (resume_at _ _ _); simpl in *;
      try discriminate; intros [= <-]; exact H.
Qed.

Lemma exec_lock_inv (evs : list event) :
  forall m m',
    world_inv m -> lock_inv_of m -> Forall event_ok evs ->
    no_wrap evs m = true -> exec evs m = Some m' -> lock_inv_of m'.
Proof.
  induction evs as [|e evs IH]; simpl; intros m m' Hw Hm Hev Hnw Hex.
  - now injection Hex as <-.
  - inversion Hev as [|? ? He Hev']; subst.
    destruct (step m e) as [m1|] eqn:Hstep; [|discriminate].
    apply andb_true_iff in Hnw as [Hno Hnw].
    apply (IH m1 m'); auto.
    + now apply (step_inv m e m1).
    + destruct (step_lock_inv m e m1 Hw Hm He Hstep) as [H|[H1 H2]]; [exact H|].
      rewrite H1, H2 in Hno. discriminate.
Qed.

(** C1: [lock_create] returns a lock with no owner and counter 0.  From any
    lock state with counter >= 0 and (counter = 0 iff no owner),
    [lock_release] (owner or not) leads to such a state again, and so does
    [lock_acquire] (entered, or continued after a sleep) unless it takes the
    counter from [INT_MAX] around to [INT_MIN].  Hence after every sequence
    of calls and wake-ups on the machine booted with the created lock in
    which the counter is never taken around, the counter is >= 0 and is 0
    exactly when the lock has no owner. *)
Theorem lock_invariant (n : string) (a : alloc) (l : lock) :
  lock_create n a = Allocated lock_addr l ->
  (curthread_with_lock l = NULL /\ lock_counter l = 0 /\ lock_inv l) /\
  (forall c lock m, curthread c <> NULL -> lock_inv (the_lock m) ->
     after (lock_acquire c lock m)
           (fun m' => lock_inv (the_lock m') \/ wraps m m') /\
     (forall spl ret,
        after (resume_at c (InLockAcquire lock spl ret) m)
              (fun m' => lock_inv (the_lock m') \/ wraps m m')) /\
     after (lock_release c lock m) (fun m' => lock_inv (the_lock m'))) /\
  (forall n1 k a1 s n3 a3 c spl evs m',
     sem_create n1 k a1 = Allocated sem_addr s ->
     cv_create n3 a3 = Allocated cv_addr c ->
     Forall event_ok evs ->
     no_wrap evs (boot s l c spl) = true ->
     exec evs (boot s l c spl) = Some m' ->
     lock_inv (the_lock m')).
Proof.
  intros Hl. split; [|split].
  - apply created_lock_wf in Hl as Hwf.
    unfold lock_create in Hl. destruct (kmalloc_ret a =? NULL); [discriminate|].
    destruct (kstrdup_ret a); [|discriminate]. injection Hl as _ <-.
    simpl. repeat split; try reflexivity; apply Hwf.
  - intros c lock m Hc Hm. split; [|split].
    + now apply lock_acquire_from_lock_inv.
    + intros spl ret. now apply lock_acquire_loop_lock_inv.
    + now apply lock_release_lock_inv.
  - intros n1 k a1 s n3 a3 c spl evs m' Hs Hcv Hev Hnw Hex.
    apply (exec_lock_inv evs (boot s l c spl) m'); auto.
    + apply boot_inv.
      * eapply created_sem_nonneg; eauto.
      * eapply created_lock_ok; eauto.
      * eapply created_cv_empty; eauto.
    + apply (created_lock_wf n a lock_addr l Hl).
Qed.

(** ** Semaphore: the count *)

Lemma P_loop_returns c sem spl m m' :
  P_loop c sem spl m = Returns m' ->
  0 < count (the_sem m) /\ count (the_sem m') = count (the_sem m) - 1.
Proof.
  unfold P_loop. destruct (count (the_sem m) =? 0); [discriminate|].
  destruct (Z.ltb_spec 0 (count (the_sem m))) as [Hpos|]; [|discriminate].
  intros [= <-]. simpl. rewrite int_pred_pos by exact Hpos. auto.
Qed.

(** C5: a semaphore comes out of [sem_create] with the non-negative count it
    was given; after every sequence of calls and wake-ups on the machine
    booted with it, the count is >= 0; a [P] that returns (at once, or after
    sleeping) found the count positive when it decremented it, and took
    exactly one off; a [V] that returns added exactly one. *)
Theorem sem_count_nonneg (n : string) (k : Z) (a : alloc) (s : semaphore) :
  sem_create n k a = Allocated sem_addr s ->
  (0 <= k /\ count s = k) /\
  (forall n2 a2 l n3 a3 c spl evs m',
     lock_create n2 a2 = Allocated lock_addr l ->
     cv_create n3 a3 = Allocated cv_addr c ->
     Forall event_ok evs ->
     exec evs (boot s l c spl) = Some m' ->
     0 <= count (the_sem m')) /\
  (forall c sem m m',
     P c sem m = Returns m' ->
     0 < count (the_sem m) /\ count (the_sem m') = count (the_sem m) - 1) /\
  (forall c sem spl m m',
     resume_at c (InP sem spl) m = Returns m' ->
     0 < count (the_sem m) /\ count (the_sem m') = count (the_sem m) - 1) /\
  (forall c sem m m',
     V c sem m = Returns m' ->
     count (the_sem m') = count (the_sem m) + 1 /\ 0 < count (the_sem m')).
Proof.
  intros Hs. split; [|split; [|split; [|split]]].
  - apply created_sem_nonneg in Hs. lia.
  - intros n2 a2 l n3 a3 c spl evs m' Hl Hcv Hev Hex.
    assert (reachable m') as Hr.
    { eapply exec_reachable; [|exact Hev|exact Hex]. eapply reach_boot; eauto. }
    apply reachable_inv in Hr. apply Hr.
  - intros c sem m m'. unfold P.
    destruct (sem =? NULL); [discriminate|].
    destruct (negb _); [discriminate|]. simpl.
    intros H. apply P_loop_returns in H. exact H.
  - intros c sem spl m m'. simpl. apply P_loop_returns.
  - intros c sem m m'. unfold V.
    destruct (sem =? NULL); [discriminate|]. simpl.
    destruct (Z.ltb_spec 0 (int_succ (count (the_sem m)))) as [Hpos|];
      [|discriminate].
    intros [= <-]. simpl. split; [now apply int_succ_pos | exact Hpos].
Qed.

(** C6: [V] on a count other than [INT_MAX] adds exactly one to the count
    and then moves every thread asleep on the semaphore's channel to the run
    queue, all of them, in one run; on a count of [INT_MAX] it halts on the
    assertion that follows the increment.  [P], outside interrupt context,
    goes to sleep on the semaphore's channel when the count is 0 and is then
    suspended inside its loop; each time it is woken it tests the count
    again, sleeping again on 0; only on a count other than 0 it takes
    exactly one off and returns. *)
Theorem V_wakes_all_P_rechecks (m : machine) (c : cpu) :
  reachable m ->
  let s := the_sem m in
  ((count s <> INT_MAX ->
    V c sem_addr m =
      Returns (thread_wakeup sem_addr
                 (set_sem (mk_semaphore (sem_name s) (count s + 1)) m)) /\
    forall m', V c sem_addr m = Returns m' ->
      count (the_sem m') = count s + 1 /\
      sleeping_on sem_addr m' = [] /\
      map fst (runq m') = map fst (runq m) ++ sleeping_on sem_addr m) /\
   (count s = INT_MAX -> V c sem_addr m = Panics)) /\
  (in_interrupt c = 0 ->
     (count s = 0 ->
        P c sem_addr m =
        Sleeps (thread_sleep c sem_addr (InP sem_addr (curspl m))
                  (set_spl SPL_HIGH m))) /\
     (count s <> 0 ->
        P c sem_addr m =
        Returns (set_sem (mk_semaphore (sem_name s) (count s - 1)) m))) /\
  (forall spl,
     (count s = 0 ->
        resume_at c (InP sem_addr spl) m =
        Sleeps (thread_sleep c sem_addr (InP sem_addr spl) m)) /\
     (count s <> 0 ->
        resume_at c (InP sem_addr spl) m =
        Returns (set_spl spl
                   (set_sem (mk_semaphore (sem_name s) (count s - 1)) m)))).
Proof.
  intros Hr s. subst s.
  pose proof (reachable_addrs m Hr) as (Hsem & _ & _).
  pose proof (reachable_inv m Hr) as (_ & Hcount & _ & _).
  split; [split | split].
  - intros Hmax.
    assert (V c sem_addr m =
            Returns (thread_wakeup sem_addr
              (set_sem (mk_semaphore (sem_name (the_sem m)) (count (the_sem m) + 1)) m)))
      as HV.
    { unfold V. destruct (Z.eqb_spec sem_addr NULL); [contradiction|]. simpl.
      rewrite (int_succ_below _ Hmax).
      destruct (Z.ltb_spec 0 (count (the_sem m) + 1)); [reflexivity | lia]. }
    split; [exact HV|]. rewrite HV. intros m' [= <-].
    split; [reflexivity|].
    apply (thread_wakeup_all sem_addr
             (set_sem (mk_semaphore (sem_name (the_sem m)) (count (the_sem m) + 1)) m)).
  - intros Hmax. unfold V.
    destruct (Z.eqb_spec sem_addr NULL); [reflexivity|]. simpl.
    rewrite Hmax. reflexivity.
  - intros Hint. unfold P.
    destruct (Z.eqb_spec sem_addr NULL); [contradiction|].
    rewrite Hint. simpl. unfold P_loop. simpl. split; intros H.
    + rewrite H. reflexivity.
    + destruct (Z.eqb_spec (count (the_sem m)) 0); [contradiction|].
      destruct (Z.ltb_spec 0 (count (the_sem m))); [|lia].
      rewrite int_pred_pos by assumption. reflexivity.
  - intros spl. simpl. unfold P_loop. split; intros H.
    + rewrite H. reflexivity.
    + destruct (Z.eqb_spec (count (the_sem m)) 0); [contradiction|].
      destruct (Z.ltb_spec 0 (count (the_sem m))); [|lia].
      rewrite int_pred_pos by assumption. reflexivity.
Qed.

(** ** Lock: acquire and release by the owner *)

Lemma status_held (l : lock) :
  lock_ok l -> (status l =? 1) = negb (curthread_with_lock l =? NULL).
Proof.
  intros Hwf. destruct (Z.eqb_spec (status l) 1), (Z.eqb_spec (curthread_with_lock l) NULL);
    simpl; try reflexivity; exfalso; lock_arith.
Qed.

(** C2: on a reachable machine, [lock_acquire] by the owner on a counter
    other than [INT_MAX] adds exactly one to the counter and returns,
    leaving owner, status, sleepers and run queue as they were; on a counter
    of [INT_MAX] it returns likewise, with counter [INT_MIN].  By another
    thread it goes to sleep on the lock's channel while the lock has an
    owner, suspended inside its loop; each time it is woken it tests again,
    sleeping again while the lock is held; once the lock is free it makes
    the calling thread the owner with counter 1 and status held. *)
Theorem lock_acquire_spec (m : machine) (c : cpu) :
  reachable m ->
  let l := the_lock m in
  (curthread c = curthread_with_lock l ->
     (lock_counter l <> INT_MAX ->
        lock_acquire c lock_addr m =
        Returns (set_lock (mk_lock (lock_name l) (status l) (curthread_with_lock l)
                                   (lock_counter l + 1)) m)) /\
     (lock_counter l = INT_MAX ->
        lock_acquire c lock_addr m =
        Returns (set_lock (mk_lock (lock_name l) (status l) (curthread_with_lock l)
                                   INT_MIN) m))) /\
  (curthread c <> curthread_with_lock l ->
     (curthread_with_lock l <> NULL ->
        lock_acquire c lock_addr m =
        Sleeps (thread_sleep c lock_addr (InLockAcquire lock_addr (curspl m) FromTop)
                  (set_spl SPL_HIGH m))) /\
     (curthread_with_lock l = NULL ->
        lock_acquire c lock_addr m =
        Returns (set_lock (mk_lock (lock_name l) 1 (curthread c) 1) m))) /\
  (forall spl,
     (curthread_with_lock l <> NULL ->
        resume_at c (InLockAcquire lock_addr spl FromTop) m =
        Sleeps (thread_sleep c lock_addr (InLockAcquire lock_addr spl FromTop) m)) /\
     (curthread_with_lock l = NULL ->
        resume_at c (InLockAcquire lock_addr spl FromTop) m =
        Returns (set_spl spl (set_lock (mk_lock (lock_name l) 1 (curthread c) 1) m)))).
Proof.
  intros Hr l. subst l.
  pose proof (reachable_addrs m Hr) as (_ & Hlock & _).
  pose proof (reachable_inv m Hr) as (Hwf & _).
  pose proof (status_held _ Hwf) as Hst.
  assert (curthread_with_lock (the_lock m) = NULL ->
          int_succ (lock_counter (the_lock m)) = 1) as Hone.
  { intros H. destruct Hwf as (_ & _ & H0 & _). rewrite (H0 H). reflexivity. }
  split; [|split].
  - intros E. unfold lock_acquire, lock_acquire_from.
    destruct (Z.eqb_spec lock_addr NULL); [contradiction|]. simpl.
    destruct (Z.eqb_spec (curthread c) (curthread_with_lock (the_lock m)));
      [|contradiction].
    split; intros Hmax.
    + rewrite (int_succ_below _ Hmax). reflexivity.
    + rewrite Hmax. reflexivity.
  - intros E. unfold lock_acquire, lock_acquire_from.
    destruct (Z.eqb_spec lock_addr NULL); [contradiction|]. simpl.
    destruct (Z.eqb_spec (curthread c) (curthread_with_lock (the_lock m)));
      [contradiction|].
    unfold lock_acquire_loop. simpl. rewrite Hst. split; intros H.
    + apply Z.eqb_neq in H. rewrite H. reflexivity.
    + rewrite (Hone H). rewrite H. reflexivity.
  - intros spl. simpl. unfold lock_acquire_loop. rewrite Hst. split; intros H.
    + apply Z.eqb_neq in H. rewrite H. reflexivity.
    + rewrite (Hone H). rewrite H. reflexivity.
Qed.

Lemma set_lock_id (m : machine) : set_lock (the_lock m) m = m.
Proof. now destruct m. Qed.

Lemma reacquire_n (c : cpu) (lock : addr) (n : nat) :
  lock <> NULL ->
  forall m nm st z,
    the_lock m = mk_lock nm st (curthread c) (wrap_int z) ->
    repeat_call (lock_acquire c lock) n m =
    Returns (set_lock (mk_lock nm st (curthread c) (wrap_int (z + Z.of_nat n))) m).
Proof.
  intros Hl. induction n as [|n IH]; intros m nm st z E.
  - simpl. rewrite Z.add_0_r, <- E, set_lock_id. reflexivity.
  - cbn [repeat_call].
    replace (z + Z.of_nat (S n)) with (z + 1 + Z.of_nat n) by lia.
    assert (lock_acquire c lock m =
            Returns (set_lock (mk_lock nm st (curthread c) (wrap_int (z + 1))) m)) as ->.
    { unfold lock_acquire, lock_acquire_from.
      destruct (Z.eqb_spec lock NULL); [contradiction|]. simpl.
      rewrite E. simpl. rewrite Z.eqb_refl, int_succ_wrap. reflexivity. }
    rewrite (IH (set_lock (mk_lock nm st (curthread c) (wrap_int (z + 1))) m)
               nm st (z + 1) eq_refl).
    reflexivity.
Qed.

Lemma release_inner (c : cpu) (lock : addr) (m : machine) nm k :
  lock <> NULL ->
  the_lock m = mk_lock nm 1 (curthread c) k ->
  int_pred k <> 0 ->
  lock_release c lock m =
  Returns (set_lock (mk_lock nm 1 (curthread c) (int_pred k)) m).
Proof.
  intros Hl E Hk. unfold lock_release.
  destruct (Z.eqb_spec lock NULL); [contradiction|]. simpl.
  rewrite E. simpl. rewrite Z.eqb_refl. simpl.
  destruct (Z.eqb_spec (int_pred k) 0); [contradiction | reflexivity].
Qed.

Lemma release_n (c : cpu) (lock : addr) (j : nat) :
  lock <> NULL ->
  forall m nm z,
    the_lock m = mk_lock nm 1 (curthread c) (wrap_int z) ->
    Z.of_nat j < z <= int_modulus ->
    repeat_call (lock_release c lock) j m =
    Returns (set_lock (mk_lock nm 1 (curthread c) (wrap_int (z - Z.of_nat j))) m).
Proof.
  intros Hl. induction j as [|j IH]; intros m nm z E Hj.
  - simpl. rewrite Z.sub_0_r, <- E, set_lock_id. reflexivity.
  - cbn [repeat_call].
    replace (z - Z.of_nat (S j)) with (z - 1 - Z.of_nat j) by lia.
    rewrite (release_inner c lock m nm (wrap_int z) Hl E), int_pred_wrap.
    2: { rewrite int_pred_wrap. apply wrap_int_nonzero. lia. }
    rewrite (IH (set_lock (mk_lock nm 1 (curthread c) (wrap_int (z - 1))) m)
               nm (z - 1) eq_refl) by lia.
    reflexivity.
Qed.

Lemma release_last (c : cpu) (lock : addr) (m : machine) nm st :
  lock <> NULL ->
  the_lock m = mk_lock nm st (curthread c) 1 ->
  lock_release c lock m =
  Returns (thread_wakeup lock (set_lock (mk_lock nm 0 NULL 0) m)).
Proof.
  intros Hl E. unfold lock_release.
  destruct (Z.eqb_spec lock NULL); [contradiction|]. simpl.
  rewrite E. simpl. rewrite Z.eqb_refl. reflexivity.
Qed.

Lemma acquire_held_sleeps (c : cpu) (lock : addr) (m : machine) :
  lock <> NULL ->
  status (the_lock m) = 1 ->
  curthread c <> curthread_with_lock (the_lock m) ->
  lock_acquire c lock m =
    Sleeps (thread_sleep c lock (InLockAcquire lock (curspl m) FromTop)
              (set_spl SPL_HIGH m)) /\
  forall spl,
    resume_at c (InLockAcquire lock spl FromTop) m =
    Sleeps (thread_sleep c lock (InLockAcquire lock spl FromTop) m).
Proof.
  intros Hl Hst Hc. unfold lock_acquire, lock_acquire_from, resume_at, lock_acquire_loop.
  destruct (Z.eqb_spec lock NULL); [contradiction|]. simpl.
  destruct (Z.eqb_spec (curthread c) (curthread_with_lock (the_lock m)));
    [contradiction|].
  rewrite Hst. simpl. auto.
Qed.

Lemma acquire_free_returns (c : cpu) (lock : addr) (m : machine) nm :
  lock <> NULL ->
  curthread c <> NULL ->
  the_lock m = mk_lock nm 0 NULL 0 ->
  lock_acquire c lock m = Returns (set_lock (mk_lock nm 1 (curthread c) 1) m) /\
  forall spl,
    resume_at c (InLockAcquire lock spl FromTop) m =
    Returns (set_spl spl (set_lock (mk_lock nm 1 (curthread c) 1) m)).
Proof.
  intros Hl Hc E. unfold lock_acquire, lock_acquire_from, resume_at, lock_acquire_loop.
  destruct (Z.eqb_spec lock NULL); [contradiction|]. simpl.
  rewrite E. simpl.
  destruct (Z.eqb_spec (curthread c) NULL); [contradiction|].
  split; [reflexivity | intros spl; reflexivity].
Qed.

Lemma free_lock_shape (l : lock) :
  lock_ok l -> curthread_with_lock l = NULL -> l = mk_lock (lock_name l) 0 NULL 0.
Proof.
  intros Hwf H. destruct l as [nm st ow cnt]. simpl in *. subst ow.
  f_equal; lock_arith.
Qed.

Lemma held_lock_shape (l : lock) :
  lock_ok l -> curthread_with_lock l <> NULL ->
  l = mk_lock (lock_name l) 1 (curthread_with_lock l) (lock_counter l).
Proof.
  intros Hwf H. destruct l as [nm st ow cnt]. simpl in *.
  f_equal; lock_arith.
Qed.

Lemma repeat_call_last (f : machine -> outcome) (n : nat) (m : machine) :
  repeat_call f (S n) m =
  match repeat_call f n m with Returns m' => f m' | o => o end.
Proof.
  revert m. induction n as [|n IH]; intros m.
  - simpl. now destruct (f m).
  - change (repeat_call f (S (S n)) m)
      with (match f m with Returns m' => repeat_call f (S n) m' | o => o end).
    cbn [repeat_call] in *. destruct (f m) as [m1| |]; try reflexivity.
    apply IH.
Qed.

(** [k] acquisitions of a free lock by one thread leave the counter at [k]
    as an [int]. *)
Lemma acquire_n_free (c : cpu) (lock : addr) (m : machine) (k : nat) nm :
  lock <> NULL -> curthread c <> NULL ->
  the_lock m = mk_lock nm 0 NULL 0 ->
  (1 <= k)%nat ->
  repeat_call (lock_acquire c lock) k m =
  Returns (set_lock (mk_lock nm 1 (curthread c) (wrap_int (Z.of_nat k))) m).
Proof.
  intros Hlock Hc Hshape Hk.
  destruct (acquire_free_returns c lock m _ Hlock Hc Hshape) as [Hacq1 _].
  destruct k as [|k]; [lia|]. cbn [repeat_call]. rewrite Hacq1.
  rewrite (reacquire_n c lock k Hlock
             (set_lock (mk_lock nm 1 (curthread c) 1) m) nm 1 1 eq_refl).
  replace (Z.of_nat (S k)) with (1 + Z.of_nat k) by lia.
  reflexivity.
Qed.

(** [k] acquisitions of a free lock by one thread and then [j] of the [k]
    releases, for [k] up to 2^32: the lock stays the thread's, with counter
    [k - j] as an [int], until the last release frees it. *)
Lemma acquire_release_n (c : cpu) (lock : addr) (m : machine) (k j : nat) :
  lock <> NULL -> curthread c <> NULL ->
  the_lock m = mk_lock (lock_name (the_lock m)) 0 NULL 0 ->
  (1 <= k)%nat -> (j <= k)%nat -> Z.of_nat k <= int_modulus ->
  let nm := lock_name (the_lock m) in
  let m1 := set_lock (mk_lock nm 1 (curthread c) (wrap_int (Z.of_nat k))) m in
  repeat_call (lock_acquire c lock) k m = Returns m1 /\
  ((j < k)%nat ->
     repeat_call (lock_release c lock) j m1 =
     Returns (set_lock (mk_lock nm 1 (curthread c)
                                (wrap_int (Z.of_nat k - Z.of_nat j))) m)) /\
  (j = k ->
     repeat_call (lock_release c lock) j m1 =
     Returns (thread_wakeup lock (set_lock (mk_lock nm 0 NULL 0) m))).
Proof.
  intros Hlock Hc Hshape Hk Hj Hmod nm m1.
  assert (repeat_call (lock_acquire c lock) k m = Returns m1) as Hacq
    by (apply acquire_n_free; assumption).
  assert (forall i : nat, (i < k)%nat ->
            repeat_call (lock_release c lock) i m1 =
            Returns (set_lock (mk_lock nm 1 (curthread c)
                                       (wrap_int (Z.of_nat k - Z.of_nat i))) m)) as Hrel.
  { intros i Hi.
    rewrite (release_n c lock i Hlock m1 nm (Z.of_nat k) eq_refl) by lia.
    reflexivity. }
  split; [exact Hacq | split].
  - intros Hlt. apply Hrel. exact Hlt.
  - intros ->. destruct k as [|k]; [lia|].
    rewrite repeat_call_last, (Hrel k) by lia.
    rewrite (release_last c lock _ nm 1 Hlock).
    + reflexivity.
    + cbn [the_lock set_lock]. f_equal.
      replace (Z.of_nat (S k) - Z.of_nat k) with 1 by lia. reflexivity.
Qed.

(** C3: on a reachable machine, [lock_release] by the owner takes exactly
    one off the counter, unless the counter is [INT_MIN], which it takes
    around to [INT_MAX].  From counter 1 it
    reaches 0: the owner is cleared, the status is free, and every thread
    asleep on the lock's channel is moved to the run queue.  From another
    counter the caller stays owner, the lock stays held, and sleepers and
    run queue are as before.  Hence, starting on a free lock, after k
    acquisitions by one thread, k up to 2^32, and fewer than k releases the
    lock is still that thread's and the acquire of any other thread (entered
    or woken) goes to sleep; after the k-th release the lock is free and the
    other thread's acquire makes it the owner with counter 1. *)
Theorem lock_release_spec (m : machine) (c : cpu) :
  reachable m ->
  curthread c <> NULL ->
  let l := the_lock m in
  (curthread c = curthread_with_lock l ->
     (lock_counter l = 1 ->
        lock_release c lock_addr m =
          Returns (thread_wakeup lock_addr
                     (set_lock (mk_lock (lock_name l) 0 NULL 0) m)) /\
        forall m', lock_release c lock_addr m = Returns m' ->
          sleeping_on lock_addr m' = [] /\
          map fst (runq m') = map fst (runq m) ++ sleeping_on lock_addr m) /\
     (lock_counter l <> 1 -> lock_counter l <> INT_MIN ->
        lock_release c lock_addr m =
          Returns (set_lock (mk_lock (lock_name l) 1 (curthread c)
                                     (lock_counter l - 1)) m)) /\
     (lock_counter l = INT_MIN ->
        lock_release c lock_addr m =
          Returns (set_lock (mk_lock (lock_name l) 1 (curthread c) INT_MAX) m))) /\
  (curthread_with_lock l = NULL ->
     forall (k j : nat) (other : cpu),
       (1 <= k)%nat -> (j <= k)%nat -> Z.of_nat k <= int_modulus ->
       curthread other <> NULL -> curthread other <> curthread c ->
       exists m1 m2,
         repeat_call (lock_acquire c lock_addr) k m = Returns m1 /\
         the_lock m1 = mk_lock (lock_name l) 1 (curthread c) (wrap_int (Z.of_nat k)) /\
         (Z.of_nat k <= INT_MAX -> lock_counter (the_lock m1) = Z.of_nat k) /\
         repeat_call (lock_release c lock_addr) j m1 = Returns m2 /\
         ((j < k)%nat ->
            the_lock m2 =
              mk_lock (lock_name l) 1 (curthread c)
                      (wrap_int (Z.of_nat k - Z.of_nat j)) /\
            sleepers m2 = sleepers m /\ runq m2 = runq m /\
            (exists m3, lock_acquire other lock_addr m2 = Sleeps m3) /\
            (forall spl, exists m3,
               resume_at other (InLockAcquire lock_addr spl FromTop) m2 = Sleeps m3)) /\
         (j = k ->
            the_lock m2 = mk_lock (lock_name l) 0 NULL 0 /\
            sleeping_on lock_addr m2 = [] /\
            lock_acquire other lock_addr m2 =
              Returns (set_lock (mk_lock (lock_name l) 1 (curthread other) 1) m2) /\
            (forall spl,
               resume_at other (InLockAcquire lock_addr spl FromTop) m2 =
               Returns (set_spl spl
                 (set_lock (mk_lock (lock_name l) 1 (curthread other) 1) m2))))).
Proof.
  intros Hr Hc l. subst l.
  pose proof (reachable_addrs m Hr) as (_ & Hlock & _).
  pose proof (reachable_inv m Hr) as (Hwf & _).
  split.
  - intros E.
    assert (curthread_with_lock (the_lock m) <> NULL) as Hown by congruence.
    pose proof (held_lock_shape _ Hwf Hown) as Hshape.
    rewrite <- E in Hshape.
    split; [|split].
    + intros H1. rewrite H1 in Hshape.
      rewrite (release_last c lock_addr m _ _ Hlock Hshape).
      split; [reflexivity|]. intros m' [= <-].
      apply (thread_wakeup_all lock_addr
               (set_lock (mk_lock (lock_name (the_lock m)) 0 NULL 0) m)).
    + intros H1 Hmin.
      rewrite (release_inner c lock_addr m _ _ Hlock Hshape);
        rewrite (int_pred_above _ Hmin); [reflexivity | lia].
    + intros Hmin.
      rewrite (release_inner c lock_addr m _ _ Hlock Hshape);
        rewrite Hmin; [reflexivity | discriminate].
  - intros Hfree k j other Hk Hj Hmod Ho Hoc.
    pose proof (free_lock_shape _ Hwf Hfree) as Hshape.
    destruct (acquire_release_n c lock_addr m k j Hlock Hc Hshape Hk Hj Hmod)
      as (Hacq & Hlt & Heq).
    set (nm := lock_name (the_lock m)) in *.
    set (m1 := set_lock (mk_lock nm 1 (curthread c) (wrap_int (Z.of_nat k))) m) in *.
    assert (Z.of_nat k <= INT_MAX -> lock_counter (the_lock m1) = Z.of_nat k) as Hcnt.
    { intros Hle. simpl. apply wrap_int_id. unfold INT_MIN, INT_MAX in *. lia. }
    destruct (Nat.eq_dec j k) as [->|Hne].
    + exists m1, (thread_wakeup lock_addr (set_lock (mk_lock nm 0 NULL 0) m)).
      split; [exact Hacq | split; [reflexivity | split; [exact Hcnt | split; [|split]]]].
      * now apply Heq.
      * intros; lia.
      * intros _. split; [reflexivity|]. split.
        -- apply (thread_wakeup_all lock_addr (set_lock (mk_lock nm 0 NULL 0) m)).
        -- apply (acquire_free_returns other lock_addr
                    (thread_wakeup lock_addr (set_lock (mk_lock nm 0 NULL 0) m))
                    nm Hlock Ho eq_refl).
    + exists m1, (set_lock (mk_lock nm 1 (curthread c)
                              (wrap_int (Z.of_nat k - Z.of_nat j))) m).
      split; [exact Hacq | split; [reflexivity | split; [exact Hcnt | split; [|split]]]].
      * apply Hlt. lia.
      * intros _. split; [reflexivity | split; [reflexivity | split; [reflexivity|]]].
        destruct (acquire_held_sleeps other lock_addr
                    (set_lock (mk_lock nm 1 (curthread c)
                                 (wrap_int (Z.of_nat k - Z.of_nat j))) m)
                    Hlock eq_refl Hoc) as [H1 H2].
        split; [eexists; exact H1 | intros spl; eexists; apply H2].
      * intros; lia.
Qed.

(** ** Condition variable: signal and broadcast *)

Lemma cv_broadcast_loop_step (m : machine) :
  cv_broadcast_loop m =
  if q_empty (q (the_cv m)) =? 0 then cv_broadcast_loop (wake_head m) else m.
Proof.
  funelim (cv_broadcast_loop m);
    match goal with E : (_ =? 0) = _ |- _ => rewrite E end; reflexivity.
Qed.

Lemma wake_head_cons (m : machine) (h : addr) (rest : queue) :
  world_inv m ->
  q (the_cv m) = h :: rest ->
  wake_head m = thread_wakeup h (set_cv (mk_cv (cv_name (the_cv m)) rest) m) /\
  q (the_cv (wake_head m)) = rest /\
  map fst (runq (wake_head m)) = map fst (runq m) ++ [h] /\
  sleeping_on h (wake_head m) = [] /\
  (forall ch, ch <> h -> sleeping_on ch (wake_head m) = sleeping_on ch m).
Proof.
  intros (_ & _ & _ & [Hq _]) E.
  assert (wake_head m = thread_wakeup h (set_cv (mk_cv (cv_name (the_cv m)) rest) m))
    as Hw by (unfold wake_head; now rewrite E).
  rewrite Hw. rewrite E in Hq. inversion Hq as [|? ? Hh _]; subst.
  pose proof (thread_wakeup_all h (set_cv (mk_cv (cv_name (the_cv m)) rest) m))
    as [H1 H2].
  split; [reflexivity | split; [reflexivity | split; [|split]]].
  - rewrite H2. f_equal. exact Hh.
  - exact H1.
  - intros ch Hne.
    apply (sleeping_on_wakeup ch h (set_cv (mk_cv (cv_name (the_cv m)) rest) m) Hne).
Qed.

Lemma cv_broadcast_loop_spec (m : machine) :
  world_inv m ->
  q (the_cv (cv_broadcast_loop m)) = [] /\
  map fst (runq (cv_broadcast_loop m)) = map fst (runq m) ++ q (the_cv m) /\
  Forall (fun t => sleeping_on t (cv_broadcast_loop m) = []) (q (the_cv m)) /\
  (forall ch, ~ In ch (q (the_cv m)) ->
     sleeping_on ch (cv_broadcast_loop m) = sleeping_on ch m) /\
  the_lock (cv_broadcast_loop m) = the_lock m /\
  the_sem (cv_broadcast_loop m) = the_sem m /\
  curspl (cv_broadcast_loop m) = curspl m.
Proof.
  remember (q (the_cv m)) as qu eqn:Eq. revert m Eq.
  induction qu as [|h rest IH]; intros m Eq Hm;
    rewrite cv_broadcast_loop_step, <- Eq; simpl.
  - rewrite <- Eq, app_nil_r. repeat split; auto.
  - symmetry in Eq.
    destruct (wake_head_cons m h rest Hm Eq) as (Hw & Hq & Hrq & Hh & Hoth).
    destruct (IH (wake_head m) (eq_sym Hq) (wake_head_inv m Hm))
      as (I1 & I2 & I3 & I4 & I5 & I6 & I7).
    assert (NoDup (h :: rest)) as Hnd.
    { rewrite <- Eq. apply Hm. }
    inversion Hnd as [|? ? Hnot _]; subst.
    split; [exact I1 | split; [|split; [|split; [|split; [|split]]]]].
    + rewrite I2, Hrq, <- app_assoc. reflexivity.
    + constructor; [|exact I3]. rewrite (I4 h Hnot). exact Hh.
    + intros ch Hch. simpl in Hch. rewrite I4, Hoth; auto.
    + rewrite I5, Hw. reflexivity.
    + rewrite I6, Hw. reflexivity.
    + rewrite I7, Hw. reflexivity.
Qed.

Lemma not_busy (t : addr) (m : machine) :
  ~ In t (busy_threads m) -> busy t m = false.
Proof.
  intros H. unfold busy. destruct (existsb _ _) eqn:E; [|reflexivity].
  apply existsb_exists in E as (x & Hx & Ex). apply Z.eqb_eq in Ex. now subst.
Qed.

Lemma cv_signal_held (c : cpu) (cv lock : addr) (m : machine) :
  curthread c = curthread_with_lock (the_lock m) ->
  (q (the_cv m) = [] -> cv_signal c cv lock m = Returns m) /\
  (q (the_cv m) <> [] -> cv_signal c cv lock m = Returns (wake_head m)).
Proof.
  intros E. unfold cv_signal. rewrite lock_do_i_hold_eq, <- E, Z.eqb_refl. simpl.
  unfold wake_head. simpl. destruct (q (the_cv m)) as [|h rest]; simpl.
  - split; [|congruence]. intros _. f_equal. now destruct m.
  - split; [discriminate|]. intros _. reflexivity.
Qed.

Lemma step_acquire_free (t : addr) (spl : Z) (m : machine) :
  lock_addr <> NULL -> t <> NULL ->
  lock_ok (the_lock m) -> curthread_with_lock (the_lock m) = NULL ->
  ~ In t (busy_threads m) ->
  step m (Invoke (mk_cpu t 0) spl CallAcquire) =
  Some (set_lock (mk_lock (lock_name (the_lock m)) 1 t 1) (set_spl spl m)).
Proof.
  intros Hl Ht Hwf Hfree Hb. simpl. rewrite (not_busy _ _ Hb).
  pose proof (free_lock_shape _ Hwf Hfree) as Hshape.
  destruct (acquire_free_returns (mk_cpu t 0) lock_addr (set_spl spl m) _ Hl Ht Hshape)
    as [-> _].
  reflexivity.
Qed.

Lemma step_wait_once (t : addr) (spl : Z) (m : machine) (nm : string) :
  lock_addr <> NULL ->
  the_lock m = mk_lock nm 1 t 1 ->
  ~ In t (busy_threads m) ->
  step m (Invoke (mk_cpu t 0) spl (CallWait 0)) =
  Some (thread_sleep (mk_cpu t 0) t (InCvWait lock_addr spl)
          (thread_wakeup lock_addr
             (set_lock (mk_lock nm 0 NULL 0)
                (set_cv (mk_cv (cv_name (the_cv m)) (q (the_cv m) ++ [t]))
                   (set_spl SPL_HIGH m))))).
Proof.
  intros Hl E Hb. simpl. rewrite (not_busy _ _ Hb).
  unfold cv_wait. rewrite lock_do_i_hold_eq. simpl. rewrite E. simpl.
  rewrite Z.eqb_refl. simpl.
  unfold lock_release. destruct (Z.eqb_spec lock_addr NULL); [contradiction|].
  simpl. rewrite E. simpl. rewrite Z.eqb_refl. reflexivity.
Qed.

Lemma waits_enqueue (spl : Z) (ts : list addr) :
  forall m,
    reachable m ->
    curthread_with_lock (the_lock m) = NULL ->
    NoDup ts -> Forall thread_ok ts ->
    (forall t, In t ts -> ~ In t (busy_threads m)) ->
    exists m',
      exec (wait_events spl ts) m = Some m' /\
      reachable m' /\
      curthread_with_lock (the_lock m') = NULL /\
      q (the_cv m') = q (the_cv m) ++ ts /\
      (forall x, In x (busy_threads m') -> In x ts \/ In x (busy_threads m)).
Proof.
  induction ts as [|t ts IH]; intros m Hr Hfree Hnd Hok Hnb.
  - exists m. simpl. rewrite app_nil_r.
    split; [reflexivity | split; [exact Hr | split; [exact Hfree | split; auto]]].
  - inversion Hnd as [|? ? Hnot Hnd']; subst.
    inversion Hok as [|? ? Ht Hok']; subst.
    pose proof (reachable_addrs m Hr) as (_ & Hlock & _).
    pose proof (reachable_inv m Hr) as (Hwf & _).
    assert (~ In t (busy_threads m)) as Hb by (apply Hnb; now left).
    set (nm := lock_name (the_lock m)).
    set (ma := set_lock (mk_lock nm 1 t 1) (set_spl spl m)).
    assert (step m (Invoke (mk_cpu t 0) spl CallAcquire) = Some ma) as Ha.
    { apply step_acquire_free; auto. apply Ht. }
    assert (reachable ma) as Hra.
    { exact (reach_step m (Invoke (mk_cpu t 0) spl CallAcquire) ma Hr Ht Ha). }
    pose proof (step_wait_once t spl ma nm Hlock eq_refl Hb) as Hw.
    match type of Hw with _ = Some ?x => set (mb := x) in * end.
    assert (reachable mb) as Hrb.
    { exact (reach_step ma (Invoke (mk_cpu t 0) spl (CallWait 0)) mb Hra Ht Hw). }
    assert (forall x, In x (busy_threads mb) -> x = t \/ In x (busy_threads m)) as Hbusy.
    { intros x Hx. unfold mb in Hx.
      apply (Permutation_in _ (busy_sleep _ _ _ _)) in Hx. simpl in Hx.
      destruct Hx as [<-|Hx]; [now left | right].
      apply (Permutation_in _ (busy_wakeup _ _)) in Hx. exact Hx. }
    destruct (IH mb Hrb eq_refl Hnd' Hok') as (m' & Hex & Hr' & Hfree' & Hq' & Hb').
    { intros x Hx Hin. apply Hbusy in Hin as [->|Hin]; [contradiction|].
      apply (Hnb x); [now right | exact Hin]. }
    exists m'. split; [|split; [exact Hr' | split; [exact Hfree' | split]]].
    + change (wait_events spl (t :: ts))
        with (Invoke (mk_cpu t 0) spl CallAcquire ::
              Invoke (mk_cpu t 0) spl (CallWait 0) :: wait_events spl ts).
      cbn [exec]. rewrite Ha, Hw. exact Hex.
    + rewrite Hq'. unfold mb. simpl. rewrite <- app_assoc. reflexivity.
    + intros x Hx. apply Hb' in Hx as [Hx|Hx]; [left; now right|].
      apply Hbusy in Hx as [->|Hx]; [left; now left | now right].
Qed.

Lemma signals_exec (spl : Z) (s : addr) (n : nat) :
  forall m,
    world_inv m ->
    curthread_with_lock (the_lock m) = s ->
    ~ In s (busy_threads m) ->
    exists m',
      exec (signal_events spl s n) m = Some m' /\
      q (the_cv m') = skipn n (q (the_cv m)) /\
      map fst (runq m') = map fst (runq m) ++ firstn n (q (the_cv m)).
Proof.
  induction n as [|n IH]; intros m Hm Hown Hb.
  - exists m. simpl. rewrite app_nil_r. repeat split.
  - assert (world_inv (set_spl spl m)) as Hm1 by exact Hm.
    destruct (cv_signal_held (mk_cpu s 0) cv_addr lock_addr (set_spl spl m)
                (eq_sym Hown)) as [Hemp Hne].
    change (signal_events spl s (S n))
      with (Invoke (mk_cpu s 0) spl CallSignal :: signal_events spl s n).
    cbn [exec step curthread run_call]. rewrite (not_busy _ _ Hb).
    destruct (q (the_cv m)) as [|h rest] eqn:Eq.
    + rewrite (Hemp Eq). cbn [settle].
      destruct (IH (set_spl spl m) Hm1 Hown Hb) as (m' & Hex & Hq' & Hrq').
      exists m'. split; [exact Hex|]. simpl in Hq', Hrq'.
      rewrite Eq in Hq', Hrq'. rewrite Hq', Hrq'.
      now destruct n.
    + rewrite Hne by (simpl; rewrite Eq; discriminate). cbn [settle].
      destruct (wake_head_cons (set_spl spl m) h rest Hm1 Eq)
        as (Hw & Hq1 & Hrq1 & _ & _).
      destruct (IH (wake_head (set_spl spl m))) as (m' & Hex & Hq' & Hrq').
      * now apply wake_head_inv.
      * rewrite Hw. exact Hown.
      * rewrite Hw. intros Hin. apply Hb.
        apply (Permutation_in _ (busy_wakeup _ _)) in Hin. exact Hin.
      * exists m'. split; [exact Hex|].
        rewrite Hq', Hrq', Hq1, Hrq1. simpl. rewrite <- app_assoc. auto.
Qed.

(** C7: on a reachable machine, [cv_signal] halts on its assertion when the
    caller does not hold the lock.  When it does: on an empty wait queue it
    changes nothing; on a queue with head [h] it removes exactly [h], [h]
    was the one thread asleep on its channel and is the one thread appended
    to the run queue, and every other sleeper stays asleep.  [cv_wait]
    appends the caller at the tail.  So when threads [ts] wait one after the
    other and a thread then signals [n] times, the threads put on the run
    queue by the signals are the first [n] waiters in the order in which
    they called wait. *)
Theorem cv_signal_fifo (m : machine) (c : cpu) :
  reachable m ->
  (curthread c <> curthread_with_lock (the_lock m) ->
     cv_signal c cv_addr lock_addr m = Panics) /\
  (curthread c = curthread_with_lock (the_lock m) ->
     (q (the_cv m) = [] -> cv_signal c cv_addr lock_addr m = Returns m) /\
     (forall h rest, q (the_cv m) = h :: rest ->
        exists m',
          cv_signal c cv_addr lock_addr m = Returns m' /\
          q (the_cv m') = rest /\
          sleeping_on h m = [h] /\
          map fst (runq m') = map fst (runq m) ++ [h] /\
          sleeping_on h m' = [] /\
          (forall ch, ch <> h -> sleeping_on ch m' = sleeping_on ch m) /\
          the_lock m' = the_lock m)) /\
  (forall m', cv_wait c cv_addr lock_addr 0 m = Sleeps m' ->
     q (the_cv m') = q (the_cv m) ++ [curthread c]) /\
  (curthread_with_lock (the_lock m) = NULL ->
   forall (spl : Z) (ts : list addr) (s : addr) (n : nat),
     NoDup (s :: ts) -> Forall thread_ok (s :: ts) ->
     (forall t, In t (s :: ts) -> ~ In t (busy_threads m)) ->
     exists m1 m2,
       exec (wait_events spl ts ++ [Invoke (mk_cpu s 0) spl CallAcquire]) m = Some m1 /\
       q (the_cv m1) = q (the_cv m) ++ ts /\
       exec (signal_events spl s n) m1 = Some m2 /\
       map fst (runq m2) = map fst (runq m1) ++ firstn n (q (the_cv m) ++ ts) /\
       q (the_cv m2) = skipn n (q (the_cv m) ++ ts)).
Proof.
  intros Hr. pose proof (reachable_inv m Hr) as Hm.
  split; [|split; [|split]].
  - intros Hne. unfold cv_signal. rewrite lock_do_i_hold_eq.
    destruct (Z.eqb_spec (curthread_with_lock (the_lock m)) (curthread c));
      [congruence | reflexivity].
  - intros Hown.
    destruct (cv_signal_held c cv_addr lock_addr m Hown) as [Hemp Hne].
    split; [exact Hemp|]. intros h rest Eq.
    destruct (wake_head_cons m h rest Hm Eq) as (Hw & Hq1 & Hrq1 & Hh & Hoth).
    exists (wake_head m).
    split; [apply Hne; rewrite Eq; discriminate|].
    split; [exact Hq1|]. split.
    { destruct Hm as (_ & _ & _ & [Hq _]). rewrite Eq in Hq.
      now inversion Hq. }
    split; [exact Hrq1 | split; [exact Hh | split; [exact Hoth|]]].
    rewrite Hw. reflexivity.
  - intros m' H.
    apply cv_wait_sleeps in H. apply H.
  - intros Hfree spl ts s n Hnd Hok Hnb.
    inversion Hnd as [|? ? Hnot Hnd']; subst.
    inversion Hok as [|? ? Hs Hok']; subst.
    destruct (waits_enqueue spl ts m Hr Hfree Hnd' Hok') as (mw & Hex & Hrw & Hfw & Hqw & Hbw).
    { intros t Ht. apply Hnb. now right. }
    pose proof (reachable_addrs mw Hrw) as (_ & Hlock & _).
    pose proof (reachable_inv mw Hrw) as (Hwf & _).
    assert (~ In s (busy_threads mw)) as Hsb.
    { intros Hin. apply Hbw in Hin as [Hin|Hin]; [contradiction|].
      apply (Hnb s); [now left | exact Hin]. }
    pose proof (step_acquire_free s spl mw Hlock (proj1 Hs) Hwf Hfw Hsb) as Ha.
    match type of Ha with _ = Some ?x => set (m1 := x) in * end.
    assert (reachable m1) as Hr1.
    { exact (reach_step mw (Invoke (mk_cpu s 0) spl CallAcquire) m1 Hrw Hs Ha). }
    destruct (signals_exec spl s n m1 (reachable_inv m1 Hr1) eq_refl Hsb)
      as (m2 & Hex2 & Hq2 & Hrq2).
    exists m1, m2. split; [|split; [exact Hqw | split; [exact Hex2 | split]]].
    + rewrite exec_app, Hex. cbn [exec]. rewrite Ha. reflexivity.
    + rewrite Hrq2. change (q (the_cv m1)) with (q (the_cv mw)). now rewrite Hqw.
    + rewrite Hq2. change (q (the_cv m1)) with (q (the_cv mw)). now rewrite Hqw.
Qed.

(** C8: on a reachable machine, [cv_broadcast] halts on its assertion when
    the caller does not hold the lock.  When it does, its loop takes the
    head out of the wait queue and wakes it, again and again until the queue
    is empty: afterwards the queue is empty, every waiter (each asleep alone
    on its own channel before) is no longer asleep, the waiters were
    appended to the run queue in the order of the wait queue, all other
    sleepers are still asleep, and a [cv_signal] that follows changes
    nothing. *)
Theorem cv_broadcast_spec (m : machine) (c : cpu) :
  reachable m ->
  (curthread c <> curthread_with_lock (the_lock m) ->
     cv_broadcast c cv_addr lock_addr m = Panics) /\
  (curthread c = curthread_with_lock (the_lock m) ->
     exists m',
       cv_broadcast c cv_addr lock_addr m = Returns m' /\
       q (the_cv m') = [] /\
       map fst (runq m') = map fst (runq m) ++ q (the_cv m) /\
       Forall (fun t => sleeping_on t m = [t] /\ sleeping_on t m' = [])
              (q (the_cv m)) /\
       (forall ch, ~ In ch (q (the_cv m)) ->
          sleeping_on ch m' = sleeping_on ch m) /\
       the_lock m' = the_lock m /\ the_sem m' = the_sem m /\
       curspl m' = curspl m /\
       cv_signal c cv_addr lock_addr m' = Returns m') /\
  (forall m0,
     cv_broadcast_loop m0 =
     if q_empty (q (the_cv m0)) =? 0 then cv_broadcast_loop (wake_head m0) else m0).
Proof.
  intros Hr. pose proof (reachable_inv m Hr) as Hm.
  pose proof (reachable_addrs m Hr) as (_ & _ & Hcv).
  split; [|split; [|exact cv_broadcast_loop_step]].
  - intros Hne. unfold cv_broadcast. destruct (cv_addr =? NULL); [reflexivity|].
    rewrite lock_do_i_hold_eq.
    destruct (Z.eqb_spec (curthread_with_lock (the_lock m)) (curthread c));
      [congruence | reflexivity].
  - intros Hown.
    assert (world_inv (set_spl SPL_HIGH m)) as Hm1 by exact Hm.
    destruct (cv_broadcast_loop_spec _ Hm1) as (I1 & I2 & I3 & I4 & I5 & I6 & I7).
    set (mb := cv_broadcast_loop (set_spl SPL_HIGH m)) in *.
    exists (splx (curspl m) mb).
    split; [|split; [exact I1 | split; [exact I2 | split; [|split; [exact I4|]]]]].
    + unfold cv_broadcast. destruct (Z.eqb_spec cv_addr NULL); [contradiction|].
      rewrite lock_do_i_hold_eq, <- Hown, Z.eqb_refl. reflexivity.
    + destruct Hm as (_ & _ & _ & [Hq _]).
      simpl in I3. rewrite Forall_forall in *. intros t Ht. split.
      * now apply Hq.
      * apply (I3 t Ht).
    + split; [exact I5 | split; [exact I6 | split; [reflexivity|]]].
      apply (cv_signal_held c cv_addr lock_addr (splx (curspl m) mb)).
      * simpl. rewrite I5. exact Hown.
      * exact I1.
Qed.

(** ** Interrupt context *)

Lemma P_in_interrupt (c : cpu) (sem : addr) (m : machine) :
  in_interrupt c <> 0 -> P c sem m = Panics.
Proof.
  intros H. unfold P. destruct (sem =? NULL); [reflexivity|].
  apply Z.eqb_neq in H. rewrite H. reflexivity.
Qed.

(** C9: with the in-interrupt flag set, [P] halts on its assertion whatever
    its arguments and the state.  [lock_acquire] and [cv_wait] never read the
    flag: they do with it set what they do with it clear.  Called by thread
    1000 with the flag set, [lock_acquire] on the free lock returns with
    thread 1000 as owner, and [cv_wait] with the lock held puts thread 1000
    on the wait queue and frees the lock before it reaches [thread_sleep]. *)
Theorem interrupt_context_checks :
  (forall (t sem : addr) (m : machine), P (mk_cpu t 1) sem m = Panics) /\
  (forall (t i lock : addr) (m : machine),
     lock_acquire (mk_cpu t i) lock m = lock_acquire (mk_cpu t 0) lock m) /\
  (forall (t i cv lock : addr) (rc : Z) (m : machine),
     cv_wait (mk_cpu t i) cv lock rc m = cv_wait (mk_cpu t 0) cv lock rc m) /\
  lock_acquire (mk_cpu 1000 1) 200 ex_boot = Returns ex_held /\
  cv_wait (mk_cpu 1000 1) 300 200 0 ex_held =
    Sleeps (mk_machine ex_sem ex_lock (mk_cv "cv" [1000]) SPL_HIGH
              [mk_sleeper 1000 1000 (InCvWait 200 0)] []).
Proof.
  split; [|split; [|split; [|split]]].
  - intros t sem m. apply P_in_interrupt. discriminate.
  - reflexivity.
  - reflexivity.
  - reflexivity.
  - reflexivity.
Qed.

(** ** Further properties: the interrupt level *)

Ltac last_sleeper :=
  split; [reflexivity | do 2 eexists; split; [reflexivity | split; reflexivity]].

Lemma P_loop_level (c : cpu) (sem : addr) (spl : Z) (m : machine) :
  (forall m', P_loop c sem spl m = Returns m' -> curspl m' = spl) /\
  (forall m', P_loop c sem spl m = Sleeps m' ->
     curspl m' = curspl m /\
     exists sl s, sleepers m' = sl ++ [s] /\ sl_thread s = curthread c /\
                  saved_spl (sl_resume s) = spl).
Proof.
  unfold P_loop. destruct (count (the_sem m) =? 0).
  - split; [discriminate|]. intros m' [= <-]. simpl. last_sleeper.
  - destruct (0 <? count (the_sem m)); split; try discriminate.
    intros m' [= <-]. reflexivity.
Qed.

Lemma lock_acquire_loop_level (c : cpu) (lock : addr) (spl : Z) (ret : caller)
  (m : machine) :
  (forall m', lock_acquire_loop c lock spl ret m = Returns m' ->
     curspl m' = saved_spl (InLockAcquire lock spl ret)) /\
  (forall m', lock_acquire_loop c lock spl ret m = Sleeps m' ->
     curspl m' = curspl m /\
     exists sl s, sleepers m' = sl ++ [s] /\ sl_thread s = curthread c /\
                  saved_spl (sl_resume s) = saved_spl (InLockAcquire lock spl ret)).
Proof.
  unfold lock_acquire_loop. destruct (status (the_lock m) =? 1).
  - split; [discriminate|]. intros m' [= <-]. simpl. last_sleeper.
  - split; destruct ret; simpl; try discriminate; intros m' [= <-]; reflexivity.
Qed.

Lemma lock_acquire_from_level (ret : caller) (c : cpu) (lock : addr) (m : machine) :
  (forall m', lock_acquire_from ret c lock m = Returns m' ->
     curspl m' = saved_spl (InLockAcquire lock (curspl m) ret)) /\
  (forall m', lock_acquire_from ret c lock m = Sleeps m' ->
     curspl m' = SPL_HIGH /\
     exists sl s, sleepers m' = sl ++ [s] /\ sl_thread s = curthread c /\
                  saved_spl (sl_resume s) = saved_spl (InLockAcquire lock (curspl m) ret)).
Proof.
  unfold lock_acquire_from. destruct (lock =? NULL); [split; discriminate|].
  simpl. destruct (curthread c =? curthread_with_lock (the_lock m)).
  - split; destruct ret; simpl; try discriminate; intros m' [= <-]; reflexivity.
  - apply (lock_acquire_loop_level c lock (curspl m) ret (set_spl SPL_HIGH m)).
Qed.

(** X1: every function of synch.c puts the interrupt level back before it
    returns, and a thread that goes to sleep carries the level to restore
    with it: a call that returns leaves the level as it found it; a call
    that goes to sleep does so at [SPL_HIGH] and saves the caller's level; a
    woken thread that returns restores the saved level, and one that goes to
    sleep again keeps it saved. *)
Theorem interrupt_level_restored (c : cpu) (f : call) (k : resume) (m : machine) :
  (forall m', run_call c f m = Returns m' -> curspl m' = curspl m) /\
  (forall m', run_call c f m = Sleeps m' -> sleeps_saving c (curspl m) m') /\
  (forall m', resume_at c k m = Returns m' -> curspl m' = saved_spl k) /\
  (forall m', resume_at c k m = Sleeps m' ->
     exists sl s,
       sleepers m' = sl ++ [s] /\ sl_thread s = curthread c /\
       saved_spl (sl_resume s) = saved_spl k) /\
  snd (lock_do_i_hold c lock_addr m) = m.
Proof.
  split; [|split; [|split; [|split]]].
  - intros m'. destruct f; simpl.
    + unfold P. destruct (sem_addr =? NULL); [discriminate|].
      destruct (negb _); [discriminate|]. simpl.
      apply (P_loop_level c sem_addr (curspl m) (set_spl SPL_HIGH m)).
    + unfold V. destruct (sem_addr =? NULL); [discriminate|]. simpl.
      destruct (0 <? _); [|discriminate]. intros [= <-]. reflexivity.
    + apply (lock_acquire_from_level FromTop c lock_addr m).
    + unfold lock_release. destruct (lock_addr =? NULL); [discriminate|]. simpl.
      destruct (negb _); simpl; [intros [= <-]; reflexivity|].
      destruct (_ =? 0); intros [= <-]; reflexivity.
    + intros H. exfalso.
      unfold cv_wait in H. rewrite lock_do_i_hold_eq in H.
      destruct (_ =? curthread c); simpl in H; [|discriminate].
      destruct (q_addtail rc (q (the_cv m)) (curthread c)) as [result q'].
      destruct (negb (result =? 0)); [discriminate|].
      destruct (lock_release c lock_addr _); discriminate.
    + unfold cv_signal. rewrite lock_do_i_hold_eq.
      destruct (_ =? curthread c); simpl; [|discriminate].
      destruct (_ =? 0); intros [= <-]; reflexivity.
    + unfold cv_broadcast. destruct (cv_addr =? NULL); [discriminate|].
      rewrite lock_do_i_hold_eq.
      destruct (_ =? curthread c); simpl; [|discriminate].
      intros [= <-]. reflexivity.
  - intros m'. unfold sleeps_saving. destruct f; simpl.
    + unfold P. destruct (sem_addr =? NULL); [discriminate|].
      destruct (negb _); [discriminate|]. simpl. intros H.
      apply (P_loop_level c sem_addr (curspl m) (set_spl SPL_HIGH m)) in H.
      exact H.
    + unfold V. destruct (sem_addr =? NULL); [discriminate|]. simpl.
      destruct (0 <? _); discriminate.
    + apply (lock_acquire_from_level FromTop c lock_addr m).
    + unfold lock_release. destruct (lock_addr =? NULL); [discriminate|]. simpl.
      destruct (negb _); simpl; [discriminate|].
      destruct (_ =? 0); discriminate.
    + unfold cv_wait. rewrite lock_do_i_hold_eq.
      destruct (_ =? curthread c); simpl; [|discriminate].
      unfold q_addtail. destruct (Z.eqb_spec rc 0) as [->|Hrc]; simpl.
      2: { apply Z.eqb_neq in Hrc. rewrite Hrc. discriminate. }
      unfold lock_release. destruct (lock_addr =? NULL); simpl; [discriminate|].
      destruct (negb _); simpl; [|destruct (_ =? 0); simpl];
        intros [= <-]; simpl; last_sleeper.
    + unfold cv_signal. rewrite lock_do_i_hold_eq.
      destruct (_ =? curthread c); simpl; [|discriminate].
      destruct (_ =? 0); discriminate.
    + unfold cv_broadcast. destruct (cv_addr =? NULL); [discriminate|].
      rewrite lock_do_i_hold_eq.
      destruct (_ =? curthread c); simpl; discriminate.
  - intros m'. destruct k as [sem spl | lock spl ret | lock spl]; simpl.
    + apply P_loop_level.
    + apply lock_acquire_loop_level.
    + apply (lock_acquire_from_level (FromCvWait spl) c lock m).
  - intros m'. destruct k as [sem spl | lock spl ret | lock spl]; simpl.
    + intros H. apply P_loop_level in H. apply H.
    + intros H. apply lock_acquire_loop_level in H. apply H.
    + intros H. apply (lock_acquire_from_level (FromCvWait spl) c lock m) in H.
      apply H.
  - rewrite lock_do_i_hold_eq. reflexivity.
Qed.

(** ** Further properties: the semaphore as a counter *)

Lemma set_sem_id (m : machine) : set_sem (the_sem m) m = m.
Proof. now destruct m. Qed.

Lemma P_positive (c : cpu) (sem : addr) (m : machine) :
  sem <> NULL -> in_interrupt c = 0 -> 0 < count (the_sem m) ->
  P c sem m =
  Returns (set_sem (mk_semaphore (sem_name (the_sem m)) (count (the_sem m) - 1)) m).
Proof.
  intros Hs Hi Hc. unfold P. destruct (Z.eqb_spec sem NULL); [contradiction|].
  rewrite Hi. simpl. unfold P_loop. simpl.
  destruct (Z.eqb_spec (count (the_sem m)) 0); [lia|].
  destruct (Z.ltb_spec 0 (count (the_sem m))); [|lia].
  rewrite int_pred_pos by exact Hc. reflexivity.
Qed.

Lemma P_zero (c : cpu) (sem : addr) (m : machine) :
  sem <> NULL -> in_interrupt c = 0 -> count (the_sem m) = 0 ->
  P c sem m =
  Sleeps (thread_sleep c sem (InP sem (curspl m)) (set_spl SPL_HIGH m)).
Proof.
  intros Hs Hi Hc. unfold P. destruct (Z.eqb_spec sem NULL); [contradiction|].
  rewrite Hi. simpl. unfold P_loop. simpl. rewrite Hc. reflexivity.
Qed.

(** X2: a semaphore whose count is n lets exactly n calls of [P] through:
    outside interrupt context, n calls in a row all return, leaving count 0
    and nothing else changed, and the next call goes to sleep on the
    semaphore's channel, behind the threads already asleep there. *)
Theorem P_counts_down (c : cpu) (sem : addr) (n : nat) (m : machine) :
  sem <> NULL ->
  in_interrupt c = 0 ->
  count (the_sem m) = Z.of_nat n ->
  let m0 := set_sem (mk_semaphore (sem_name (the_sem m)) 0) m in
  repeat_call (P c sem) n m = Returns m0 /\
  exists m',
    P c sem m0 = Sleeps m' /\
    count (the_sem m') = 0 /\
    sleeping_on sem m' = sleeping_on sem m ++ [curthread c].
Proof.
  intros Hs Hi. revert m. induction n as [|n IH]; intros m Hc m0; subst m0.
  - split.
    + simpl. f_equal. rewrite <- (set_sem_id m) at 1.
      destruct (the_sem m) as [nm cnt]. simpl in *. now subst.
    + eexists. split; [apply P_zero; auto|]. split; [reflexivity|].
      unfold sleeping_on. simpl. rewrite filter_app, map_app. simpl.
      unfold on_chan at 2. simpl. now rewrite Z.eqb_refl.
  - cbn [repeat_call]. rewrite P_positive by (auto; lia).
    specialize (IH (set_sem (mk_semaphore (sem_name (the_sem m))
                                          (count (the_sem m) - 1)) m)).
    simpl in IH. destruct IH as [IH1 IH2]; [lia|].
    split; [exact IH1 | exact IH2].
Qed.

(** ** Further properties: the lock around a wait *)

Lemma cv_wait_held (c : cpu) (cv lock : addr) (m : machine) nm st k :
  lock <> NULL ->
  the_lock m = mk_lock nm st (curthread c) k ->
  let m1 := set_cv (mk_cv (cv_name (the_cv m)) (q (the_cv m) ++ [curthread c]))
              (set_spl SPL_HIGH m) in
  cv_wait c cv lock 0 m =
  Sleeps (thread_sleep c (curthread c) (InCvWait lock (curspl m))
            (if int_pred k =? 0
             then thread_wakeup lock (set_lock (mk_lock nm 0 NULL (int_pred k)) m1)
             else set_lock (mk_lock nm st (curthread c) (int_pred k)) m1)).
Proof.
  intros Hl E m1. subst m1. unfold cv_wait. rewrite lock_do_i_hold_eq.
  rewrite E. simpl. rewrite Z.eqb_refl. simpl.
  unfold lock_release. destruct (Z.eqb_spec lock NULL); [contradiction|].
  simpl. rewrite E. simpl. rewrite Z.eqb_refl. simpl.
  destruct (int_pred k =? 0); reflexivity.
Qed.

(** X3: [cv_wait] gives the lock up once, not entirely.  Called by the owner
    on a reachable machine with room in the queue, it goes to sleep with the
    caller at the tail of the wait queue.  With the lock held once, the lock
    is then free and the threads asleep on it have been woken.  With the
    lock held more than once (any counter other than 1), the sleeping caller
    still owns it, with the counter stepped down (one acquisition less,
    unless the counter was [INT_MIN]), and nobody is woken: every other
    thread's [lock_acquire] goes to sleep, and its [cv_signal] and
    [cv_broadcast] halt on their assertion. *)
Theorem cv_wait_releases_once (m : machine) (c : cpu) :
  reachable m ->
  thread_ok (curthread c) ->
  curthread c = curthread_with_lock (the_lock m) ->
  let l := the_lock m in
  exists m',
    cv_wait c cv_addr lock_addr 0 m = Sleeps m' /\
    q (the_cv m') = q (the_cv m) ++ [curthread c] /\
    (lock_counter l = 1 ->
       the_lock m' = mk_lock (lock_name l) 0 NULL 0 /\
       sleeping_on lock_addr m' = [] /\
       map fst (runq m') = map fst (runq m) ++ sleeping_on lock_addr m) /\
    (lock_counter l <> 1 ->
       the_lock m' =
         mk_lock (lock_name l) 1 (curthread c) (int_pred (lock_counter l)) /\
       (lock_counter l <> INT_MIN ->
        lock_counter (the_lock m') = lock_counter l - 1) /\
       runq m' = runq m /\
       forall other : cpu,
         curthread other <> curthread c ->
         (exists m'', lock_acquire other lock_addr m' = Sleeps m'') /\
         cv_signal other cv_addr lock_addr m' = Panics /\
         cv_broadcast other cv_addr lock_addr m' = Panics).
Proof.
  intros Hr Hc Hown l. subst l.
  pose proof (reachable_addrs m Hr) as (_ & Hlock & Hcv).
  pose proof (reachable_inv m Hr) as (Hwf & _).
  assert (curthread_with_lock (the_lock m) <> NULL) as Hnn.
  { rewrite <- Hown. apply Hc. }
  pose proof (held_lock_shape _ Hwf Hnn) as Hshape.
  rewrite <- Hown in Hshape.
  rewrite (cv_wait_held c cv_addr lock_addr m _ _ _ Hlock Hshape).
  eexists. split; [reflexivity|].
  destruct (Z.eqb_spec (int_pred (lock_counter (the_lock m))) 0) as [E|E].
  - split; [reflexivity|]. split.
    2: { intros H1. exfalso. int_arith. }
    intros _.
    rewrite E. split; [reflexivity|].
    set (mw := set_lock (mk_lock (lock_name (the_lock m)) 0 NULL 0)
                 (set_cv (mk_cv (cv_name (the_cv m)) (q (the_cv m) ++ [curthread c]))
                    (set_spl SPL_HIGH m))).
    destruct (thread_wakeup_all lock_addr mw) as [H1 H2].
    split.
    + rewrite sleeping_on_sleep; [exact H1|]. intros Heq.
      destruct Hc as (_ & _ & Hc). congruence.
    + exact H2.
  - split; [reflexivity|]. split.
    { intros H1. rewrite H1 in E. exfalso. apply E. reflexivity. }
    intros _.
    split; [reflexivity|].
    split; [intros Hmin; simpl; now apply int_pred_above|].
    split; [reflexivity|].
    intros other Hne. split; [|split].
    + eexists.
      apply (acquire_held_sleeps other lock_addr
               (thread_sleep c (curthread c) (InCvWait lock_addr (curspl m))
                  (set_lock (mk_lock (lock_name (the_lock m)) 1 (curthread c)
                                     (int_pred (lock_counter (the_lock m))))
                     (set_cv (mk_cv (cv_name (the_cv m))
                                (q (the_cv m) ++ [curthread c]))
                        (set_spl SPL_HIGH m)))) Hlock eq_refl Hne).
    + unfold cv_signal. rewrite lock_do_i_hold_eq. simpl.
      destruct (Z.eqb_spec (curthread c) (curthread other)); [congruence|].
      reflexivity.
    + unfold cv_broadcast. destruct (cv_addr =? NULL); [reflexivity|].
      rewrite lock_do_i_hold_eq. simpl.
      destruct (Z.eqb_spec (curthread c) (curthread other)); [congruence|].
      reflexivity.
Qed.

(** X4: a woken waiter leaves [cv_wait] only as owner of the lock.  When it
    continues after its sleep it takes the lock if the lock is free, steps
    the counter up if the lock is its own (by one, unless the counter is
    [INT_MAX]), and in both cases returns at the interrupt level of the call
    of [cv_wait]; if another thread holds the lock it goes to sleep on the
    lock's channel, still inside [cv_wait], and whenever it returns from
    there it owns the lock as well. *)
Theorem cv_wait_returns_as_owner (c : cpu) (lock : addr) (spl : Z) (m : machine) :
  lock <> NULL ->
  curthread c <> NULL ->
  lock_ok (the_lock m) ->
  let l := the_lock m in
  (forall m',
     resume_at c (InCvWait lock spl) m = Returns m' ->
     (curthread_with_lock l = NULL \/ curthread_with_lock l = curthread c) /\
     the_lock m' =
       mk_lock (lock_name l) 1 (curthread c) (int_succ (lock_counter l)) /\
     (lock_counter l <> INT_MAX ->
      lock_counter (the_lock m') = lock_counter l + 1) /\
     curspl m' = spl) /\
  (curthread_with_lock l = NULL \/ curthread_with_lock l = curthread c ->
     exists m', resume_at c (InCvWait lock spl) m = Returns m') /\
  (curthread_with_lock l <> NULL -> curthread_with_lock l <> curthread c ->
     resume_at c (InCvWait lock spl) m =
     Sleeps (thread_sleep c lock (InLockAcquire lock (curspl m) (FromCvWait spl))
               (set_spl SPL_HIGH m))) /\
  (forall spl' m',
     resume_at c (InLockAcquire lock spl' (FromCvWait spl)) m = Returns m' ->
     curthread_with_lock l = NULL /\
     the_lock m' = mk_lock (lock_name l) 1 (curthread c) 1 /\
     curspl m' = spl).
Proof.
  intros Hl Hc Hwf l. subst l.
  pose proof (status_held _ Hwf) as Hst.
  assert (curthread_with_lock (the_lock m) = NULL ->
          status (the_lock m) = 0 /\ lock_counter (the_lock m) = 0) as Hfree
    by lock_arith.
  assert (curthread_with_lock (the_lock m) <> NULL -> status (the_lock m) = 1)
    as Hheld by lock_arith.
  simpl. unfold lock_acquire_from, lock_acquire_loop.
  destruct (Z.eqb_spec lock NULL); [contradiction|]. simpl.
  rewrite Hst.
  destruct (Z.eqb_spec (curthread c) (curthread_with_lock (the_lock m))) as [E|E];
    destruct (Z.eqb_spec (curthread_with_lock (the_lock m)) NULL) as [E0|E0];
    simpl.
  - congruence.
  - split; [|split; [|split]].
    + intros m' [= <-]. simpl. rewrite <- E, (Hheld E0).
      split; [now right | split; [reflexivity | split; [|reflexivity]]].
      apply int_succ_below.
    + intros _. eauto.
    + intros _ H. congruence.
    + discriminate.
  - destruct (Hfree E0) as [Hs0 Hc0]. split; [|split; [|split]].
    + intros m' [= <-]. simpl.
      split; [now left | split; [reflexivity | split; [|reflexivity]]].
      apply int_succ_below.
    + intros _. eauto.
    + intros H. contradiction.
    + intros spl' m' [= <-]. simpl. rewrite Hc0. auto.
  - split; [|split; [|split]].
    + discriminate.
    + intros [H|H]; congruence.
    + intros _ _. reflexivity.
    + discriminate.
Qed.

(** X5: [lock_do_i_hold] changes nothing and answers 1 exactly for the owner.
    Starting on a free lock of a reachable machine, a thread that has
    acquired k times, k up to 2^32, and released j times is told 1 as long
    as j < k and 0 from the k-th release on; before the first acquire it is
    told 0, and every other thread is told 0 while the lock is this
    thread's. *)
Theorem lock_do_i_hold_tracks (m : machine) (c : cpu) :
  reachable m ->
  curthread c <> NULL ->
  curthread_with_lock (the_lock m) = NULL ->
  lock_do_i_hold c lock_addr m = (0, m) /\
  forall (k j : nat), (1 <= k)%nat -> (j <= k)%nat -> Z.of_nat k <= int_modulus ->
    exists m1 m2,
      repeat_call (lock_acquire c lock_addr) k m = Returns m1 /\
      repeat_call (lock_release c lock_addr) j m1 = Returns m2 /\
      lock_do_i_hold c lock_addr m1 = (1, m1) /\
      lock_do_i_hold c lock_addr m2 = (if (j <? k)%nat then 1 else 0, m2) /\
      (forall other : cpu, curthread other <> curthread c ->
         lock_do_i_hold other lock_addr m1 = (0, m1)).
Proof.
  intros Hr Hc Hfree.
  pose proof (reachable_addrs m Hr) as (_ & Hlock & _).
  pose proof (reachable_inv m Hr) as (Hwf & _).
  split.
  - rewrite lock_do_i_hold_eq, Hfree.
    destruct (Z.eqb_spec NULL (curthread c)); [congruence | reflexivity].
  - intros k j Hk Hj Hmod.
    pose proof (free_lock_shape _ Hwf Hfree) as Hshape.
    destruct (acquire_release_n c lock_addr m k j Hlock Hc Hshape Hk Hj Hmod)
      as (Hacq & Hlt & Heq).
    set (nm := lock_name (the_lock m)) in *.
    set (m1 := set_lock (mk_lock nm 1 (curthread c) (wrap_int (Z.of_nat k))) m) in *.
    assert (lock_do_i_hold c lock_addr m1 = (1, m1)) as Hh1.
    { rewrite lock_do_i_hold_eq. simpl. now rewrite Z.eqb_refl. }
    assert (forall other : cpu, curthread other <> curthread c ->
              lock_do_i_hold other lock_addr m1 = (0, m1)) as Hoth.
    { intros other Hne. rewrite lock_do_i_hold_eq. simpl.
      destruct (Z.eqb_spec (curthread c) (curthread other)); [congruence|].
      reflexivity. }
    destruct (Nat.ltb_spec j k) as [Hjk|Hge].
    + exists m1, (set_lock (mk_lock nm 1 (curthread c)
                              (wrap_int (Z.of_nat k - Z.of_nat j))) m).
      split; [exact Hacq | split; [|split; [exact Hh1 | split; [|exact Hoth]]]].
      * apply Hlt. exact Hjk.
      * rewrite lock_do_i_hold_eq. simpl. now rewrite Z.eqb_refl.
    + assert (j = k) as Ejk by lia.
      exists m1, (thread_wakeup lock_addr (set_lock (mk_lock nm 0 NULL 0) m)).
      split; [exact Hacq | split; [|split; [exact Hh1 | split; [|exact Hoth]]]].
      * apply Heq. exact Ejk.
      * rewrite lock_do_i_hold_eq. cbn [the_lock thread_wakeup set_runq set_sleepers
                                          set_lock curthread_with_lock].
        destruct (Z.eqb_spec NULL (curthread c)); [congruence | reflexivity].
Qed.

(** ** Further properties: who is asleep *)

Lemma cv_sleepers_sleep (c : cpu) (chan : addr) (k : resume) (m : machine) :
  cv_sleepers (thread_sleep c chan k m) =
  cv_sleepers m ++ (if chan =? curthread c then [curthread c] else []).
Proof.
  unfold cv_sleepers, thread_sleep. simpl.
  rewrite filter_app, map_app. simpl. unfold own_chan at 2. simpl.
  now destruct (chan =? curthread c).
Qed.

Lemma cv_sleepers_wakeup (chan : addr) (m : machine) :
  cv_sleepers (thread_wakeup chan m) =
  filter (fun t => negb (t =? chan)) (cv_sleepers m).
Proof.
  unfold cv_sleepers, thread_wakeup. simpl.
  induction (sleepers m) as [|s sl IH]; simpl; [reflexivity|].
  unfold off_chan at 1, own_chan at 2.
  destruct (Z.eqb_spec (sl_chan s) chan) as [E|E],
           (Z.eqb_spec (sl_chan s) (sl_thread s)) as [E'|E']; simpl.
  - rewrite <- E', E, Z.eqb_refl. simpl. exact IH.
  - exact IH.
  - unfold own_chan at 1. rewrite <- E'. rewrite Z.eqb_refl. simpl.
    destruct (Z.eqb_spec (sl_chan s) chan); [contradiction|]. simpl.
    rewrite E' at 1. f_equal. exact IH.
  - unfold own_chan at 1.
    destruct (Z.eqb_spec (sl_chan s) (sl_thread s)); [contradiction|]. exact IH.
Qed.

Lemma cv_sleepers_busy (t : addr) (m : machine) :
  In t (cv_sleepers m) -> In t (busy_threads m).
Proof.
  unfold cv_sleepers, busy_threads. intros H. apply in_or_app; left.
  apply in_map_iff in H as (s & <- & Hs).
  apply filter_In in Hs as [Hs _]. now apply in_map.
Qed.

Lemma filter_keeps_all (chan : addr) (l : list addr) :
  ~ In chan l -> filter (fun t => negb (t =? chan)) l = l.
Proof.
  induction l as [|x l IH]; simpl; intros H; [reflexivity|].
  destruct (Z.eqb_spec x chan) as [->|_]; simpl.
  - exfalso. apply H. now left.
  - f_equal. apply IH. intros Hin. apply H. now right.
Qed.

Lemma cv_sleepers_wakeup_obj (chan : addr) (m : machine) :
  threads_ok m -> chan = sem_addr \/ chan = lock_addr ->
  cv_sleepers (thread_wakeup chan m) = cv_sleepers m.
Proof.
  intros (Hok & _) Hchan. rewrite cv_sleepers_wakeup. apply filter_keeps_all.
  intros Hin. apply cv_sleepers_busy in Hin.
  rewrite Forall_forall in Hok. destruct (Hok _ Hin) as (_ & Hs & Hl).
  destruct Hchan; congruence.
Qed.

Lemma sleeping_on_sleep_same (c : cpu) (chan : addr) (k : resume) (m : machine) :
  sleeping_on chan (thread_sleep c chan k m) = sleeping_on chan m ++ [curthread c].
Proof.
  unfold sleeping_on, thread_sleep. simpl.
  rewrite filter_app, map_app. simpl. unfold on_chan at 2. simpl.
  now rewrite Z.eqb_refl.
Qed.

Lemma queue_mem_ok (m : machine) (t : addr) :
  world_inv m -> In t (q (the_cv m)) -> thread_ok t.
Proof.
  intros (_ & _ & (Hok & _) & (Hq & _)) Hin.
  rewrite Forall_forall in Hok, Hq. apply Hok.
  apply (sleeping_on_In t t). rewrite (Hq t Hin). now left.
Qed.

Lemma qw_sleep_obj (c : cpu) (chan : addr) (k : resume) (m : machine) :
  fresh c m -> chan = sem_addr \/ chan = lock_addr ->
  queue_is_waiters m -> queue_is_waiters (thread_sleep c chan k m).
Proof.
  intros [(_ & Hs & Hl) _] Hchan Hq. unfold queue_is_waiters.
  rewrite cv_sleepers_sleep.
  destruct (Z.eqb_spec chan (curthread c)) as [E|_].
  - exfalso. destruct Hchan; congruence.
  - rewrite app_nil_r. exact Hq.
Qed.

Lemma qw_wakeup_obj (chan : addr) (m : machine) :
  threads_ok m -> chan = sem_addr \/ chan = lock_addr ->
  queue_is_waiters m -> queue_is_waiters (thread_wakeup chan m).
Proof.
  intros Ht Hchan Hq. unfold queue_is_waiters.
  rewrite cv_sleepers_wakeup_obj by assumption. exact Hq.
Qed.

Lemma P_loop_qw (c : cpu) (spl : Z) (m : machine) :
  fresh c m -> queue_is_waiters m ->
  after (P_loop c sem_addr spl m) queue_is_waiters.
Proof.
  intros Hc Hq. unfold P_loop.
  destruct (count (the_sem m) =? 0); simpl.
  - apply qw_sleep_obj; auto.
  - destruct (0 <? count (the_sem m)); simpl; [exact Hq | exact I].
Qed.

Lemma lock_acquire_loop_qw (c : cpu) (spl : Z) (ret : caller) (m : machine) :
  fresh c m -> queue_is_waiters m ->
  after (lock_acquire_loop c lock_addr spl ret m) queue_is_waiters.
Proof.
  intros Hc Hq. unfold lock_acquire_loop.
  destruct (status (the_lock m) =? 1); simpl.
  - apply qw_sleep_obj; auto.
  - destruct ret; exact Hq.
Qed.

Lemma lock_acquire_from_qw (ret : caller) (c : cpu) (m : machine) :
  fresh c m -> queue_is_waiters m ->
  after (lock_acquire_from ret c lock_addr m) queue_is_waiters.
Proof.
  intros Hc Hq. unfold lock_acquire_from.
  destruct (lock_addr =? NULL); simpl; [exact I|].
  destruct (curthread c =? curthread_with_lock (the_lock m)).
  - destruct ret; exact Hq.
  - apply (lock_acquire_loop_qw c (curspl m) ret (set_spl SPL_HIGH m)); assumption.
Qed.

Lemma lock_release_qw (c : cpu) (m : machine) :
  threads_ok m -> queue_is_waiters m ->
  after (lock_release c lock_addr m) queue_is_waiters.
Proof.
  intros Ht Hq. unfold lock_release.
  destruct (lock_addr =? NULL); simpl; [exact I|].
  destruct (negb _); simpl; [exact Hq|].
  destruct (_ =? 0); simpl; [|exact Hq].
  apply (qw_wakeup_obj lock_addr m) in Hq; auto.
Qed.

Lemma cv_wait_qw (c : cpu) (rc : Z) (m : machine) :
  world_inv m -> fresh c m -> queue_is_waiters m ->
  after (cv_wait c cv_addr lock_addr rc m) queue_is_waiters.
Proof.
  intros (_ & _ & Ht & _) Hc Hq.
  destruct (cv_wait c cv_addr lock_addr rc m) as [m'|m'|] eqn:Hw; simpl; try exact I.
  - exfalso. unfold cv_wait in Hw. rewrite lock_do_i_hold_eq in Hw.
    destruct (_ =? curthread c); simpl in Hw; [|discriminate].
    destruct (q_addtail rc (q (the_cv m)) (curthread c)) as [result q'].
    destruct (negb (result =? 0)); [discriminate|].
    destruct (lock_release c lock_addr _); discriminate.
  - unfold cv_wait in Hw. rewrite lock_do_i_hold_eq in Hw.
    destruct (_ =? curthread c); simpl in Hw; [|discriminate].
    unfold q_addtail in Hw.
    destruct (Z.eqb_spec rc 0) as [->|Hrc]; simpl in Hw.
    2: { apply Z.eqb_neq in Hrc. rewrite Hrc in Hw. discriminate. }
    unfold lock_release in Hw.
    destruct (lock_addr =? NULL); simpl in Hw; [discriminate|].
    unfold queue_is_waiters.
    destruct (negb _); simpl in Hw; [|destruct (_ =? 0); simpl in Hw];
      injection Hw as <-; rewrite cv_sleepers_sleep, Z.eqb_refl; simpl;
      f_equal; try exact Hq.
    apply (cv_sleepers_wakeup_obj lock_addr m) in Ht; auto.
    etransitivity; [exact Ht | exact Hq].
Qed.

Lemma wake_head_qw (m : machine) (h : addr) (rest : queue) :
  world_inv m -> q (the_cv m) = h :: rest ->
  queue_is_waiters m -> queue_is_waiters (wake_head m).
Proof.
  intros Hm E Hq.
  destruct (wake_head_cons m h rest Hm E) as (Hw & Hq1 & _).
  unfold queue_is_waiters in *. rewrite Hq1, Hw.
  rewrite cv_sleepers_wakeup.
  change (cv_sleepers (set_cv (mk_cv (cv_name (the_cv m)) rest) m))
    with (cv_sleepers m).
  rewrite Hq, E. simpl. rewrite Z.eqb_refl. simpl.
  apply filter_keeps_all.
  destruct Hm as (_ & _ & _ & (_ & Hnd)). rewrite E in Hnd.
  now inversion Hnd.
Qed.

Lemma cv_broadcast_loop_qw (m : machine) :
  world_inv m -> queue_is_waiters m -> queue_is_waiters (cv_broadcast_loop m).
Proof.
  remember (q (the_cv m)) as qu eqn:Eq. revert m Eq.
  induction qu as [|h rest IH]; intros m Eq Hm Hq;
    rewrite cv_broadcast_loop_step, <- Eq; simpl; [exact Hq|].
  symmetry in Eq.
  destruct (wake_head_cons m h rest Hm Eq) as (_ & Hq1 & _).
  apply IH.
  - now rewrite Hq1.
  - now apply wake_head_inv.
  - now apply (wake_head_qw m h rest).
Qed.

Lemma run_call_qw (c : cpu) (f : call) (m : machine) :
  world_inv m -> fresh c m -> queue_is_waiters m ->
  after (run_call c f m) queue_is_waiters.
Proof.
  intros Hm Hc Hq. pose proof Hm as (_ & _ & Ht & _). destruct f; simpl.
  - unfold P. destruct (sem_addr =? NULL); simpl; [exact I|].
    destruct (negb _); simpl; [exact I|].
    apply (P_loop_qw c (curspl m) (set_spl SPL_HIGH m)); assumption.
  - unfold V. destruct (sem_addr =? NULL); simpl; [exact I|].
    destruct (0 <? _); simpl; [|exact I].
    apply (qw_wakeup_obj sem_addr m) in Hq; auto.
  - now apply lock_acquire_from_qw.
  - now apply lock_release_qw.
  - now apply cv_wait_qw.
  - unfold cv_signal. rewrite lock_do_i_hold_eq.
    destruct (_ =? curthread c); simpl; [|exact I].
    destruct (q (the_cv m)) as [|h rest] eqn:E; simpl; [exact Hq|].
    apply (wake_head_qw (set_spl SPL_HIGH m) h rest); assumption.
  - unfold cv_broadcast. destruct (cv_addr =? NULL); simpl; [exact I|].
    rewrite lock_do_i_hold_eq.
    destruct (_ =? curthread c); simpl; [|exact I].
    apply (cv_broadcast_loop_qw (set_spl SPL_HIGH m)); assumption.
Qed.

Lemma resume_at_qw (c : cpu) (k : resume) (m : machine) :
  fresh c m -> resume_ok k -> queue_is_waiters m ->
  after (resume_at c k m) queue_is_waiters.
Proof.
  intros Hc Hk Hq. destruct k; simpl in *; subst.
  - now apply P_loop_qw.
  - now apply lock_acquire_loop_qw.
  - now apply lock_acquire_from_qw.
Qed.

Lemma step_qw (m : machine) (e : event) (m' : machine) :
  world_inv m -> event_ok e -> queue_is_waiters m ->
  step m e = Some m' -> queue_is_waiters m'.
Proof.
  intros Hm He Hq. destruct e as [c spl f | t]; simpl.
  - destruct (busy (curthread c) m) eqn:Hb; [now intros [= <-]|].
    apply busy_false in Hb.
    pose proof (run_call_qw c f (set_spl spl m) Hm (conj He Hb) Hq) as H.
    destruct (run_call c f (set_spl spl m)); simpl in *; congruence.
  - destruct (take t (runq m)) as [[k rest]|] eqn:Htake; [|now intros [= <-]].
    destruct Hm as (Hl & Hs & Ht & Hqo).
    destruct (take_inv t k rest m Ht Htake) as (Ht' & Hc & Hk).
    pose proof (resume_at_qw (mk_cpu t 0) k
                  (set_spl SPL_HIGH (set_runq rest m)) Hc Hk Hq) as H.
    destruct (resume_at _ _ _); simpl in *; congruence.
Qed.

Lemma reachable_qw (m : machine) : reachable m -> queue_is_waiters m.
Proof.
  induction 1 as [n1 k a1 s n2 a2 l n3 a3 c spl Hs Hl Hc | m e m' Hr IH He Hstep].
  - apply created_cv_empty in Hc as [Hq _]. unfold queue_is_waiters, cv_sleepers.
    simpl. now rewrite Hq.
  - eapply step_qw; eauto. now apply reachable_inv.
Qed.

(** X6: on every reachable machine the wait queue of the condition variable
    is, entry by entry and in the same order, the list of the threads asleep
    on their own thread structure, that is, inside [cv_wait]: no waiter is
    asleep without being in the queue, and nobody is in the queue without
    being asleep. *)
Theorem wait_queue_is_the_waiters (m : machine) :
  reachable m -> cv_sleepers m = q (the_cv m).
Proof. intros Hr. exact (reachable_qw m Hr). Qed.

Lemma nl_sleep_own (c : cpu) (k : resume) (m : machine) :
  fresh c m -> no_lost_wakeup m ->
  no_lost_wakeup (thread_sleep c (curthread c) k m).
Proof.
  intros [(_ & Hs & Hl) _] [Ha Hb]. split; intros H.
  - rewrite sleeping_on_sleep by congruence. now apply Ha.
  - rewrite sleeping_on_sleep by congruence. now apply Hb.
Qed.

Section Distinct.

Hypothesis sem_lock_distinct : sem_addr <> lock_addr.

Lemma P_loop_nl (c : cpu) (spl : Z) (m : machine) :
  no_lost_wakeup m -> after (P_loop c sem_addr spl m) no_lost_wakeup.
Proof.
  intros [Ha Hb]. unfold P_loop.
  destruct (Z.eqb_spec (count (the_sem m)) 0) as [E|E]; simpl.
  - split; simpl; intros H; [|lia].
    rewrite sleeping_on_sleep by congruence. now apply Ha.
  - destruct (Z.ltb_spec 0 (count (the_sem m))) as [Hpos|]; simpl; [|exact I].
    split; simpl; intros H; [now apply Ha | now apply Hb].
Qed.

Lemma V_nl (c : cpu) (m : machine) :
  no_lost_wakeup m -> after (V c sem_addr m) no_lost_wakeup.
Proof.
  intros [Ha Hb]. unfold V. destruct (sem_addr =? NULL); simpl; [exact I|].
  destruct (0 <? _); simpl; [|exact I].
  set (m2 := set_sem (mk_semaphore (sem_name (the_sem m))
                                   (int_succ (count (the_sem m))))
               (set_spl SPL_HIGH m)).
  split; intros H.
  - change (sleeping_on lock_addr (thread_wakeup sem_addr m2) = []).
    rewrite sleeping_on_wakeup by congruence. now apply Ha.
  - apply (thread_wakeup_all sem_addr m2).
Qed.

Lemma lock_acquire_loop_nl (c : cpu) (spl : Z) (ret : caller) (m : machine) :
  lock_ok (the_lock m) -> curthread c <> NULL -> no_lost_wakeup m ->
  after (lock_acquire_loop c lock_addr spl ret m) no_lost_wakeup.
Proof.
  intros Hwf Hc [Ha Hb]. unfold lock_acquire_loop.
  destruct (Z.eqb_spec (status (the_lock m)) 1) as [E|E]; simpl.
  - split; simpl; intros H.
    + exfalso. lock_arith.
    + rewrite sleeping_on_sleep by congruence. now apply Hb.
  - destruct ret; simpl; (split; simpl; intros H; [contradiction | now apply Hb]).
Qed.

Lemma lock_acquire_from_nl (ret : caller) (c : cpu) (m : machine) :
  lock_ok (the_lock m) -> curthread c <> NULL -> no_lost_wakeup m ->
  after (lock_acquire_from ret c lock_addr m) no_lost_wakeup.
Proof.
  intros Hwf Hc Hn. unfold lock_acquire_from.
  destruct (lock_addr =? NULL); simpl; [exact I|].
  destruct (Z.eqb_spec (curthread c) (curthread_with_lock (the_lock m))) as [E|E].
  - destruct Hn as [Ha Hb].
    destruct ret; simpl; (split; simpl; intros H; [congruence | now apply Hb]).
  - apply (lock_acquire_loop_nl c (curspl m) ret (set_spl SPL_HIGH m)); assumption.
Qed.

Lemma lock_release_nl (c : cpu) (m : machine) :
  curthread c <> NULL -> no_lost_wakeup m ->
  after (lock_release c lock_addr m) no_lost_wakeup.
Proof.
  intros Hc [Ha Hb]. unfold lock_release.
  destruct (lock_addr =? NULL); simpl; [exact I|].
  destruct (Z.eqb_spec (curthread c) (curthread_with_lock (the_lock m))) as [E|E];
    simpl; [|split; assumption].
  destruct (_ =? 0); simpl.
  - set (m2 := set_lock (mk_lock (lock_name (the_lock m)) 0 NULL
                                 (int_pred (lock_counter (the_lock m))))
                 (set_spl SPL_HIGH m)).
    split; intros H.
    + apply (thread_wakeup_all lock_addr m2).
    + change (sleeping_on sem_addr (thread_wakeup lock_addr m2) = []).
      rewrite sleeping_on_wakeup by congruence. now apply Hb.
  - split; simpl; intros H; [congruence | now apply Hb].
Qed.

Lemma cv_wait_nl (c : cpu) (rc : Z) (m : machine) :
  fresh c m -> no_lost_wakeup m ->
  after (cv_wait c cv_addr lock_addr rc m) no_lost_wakeup.
Proof.
  intros Hc Hn.
  destruct (cv_wait c cv_addr lock_addr rc m) as [m'|m'|] eqn:Hw; simpl; try exact I.
  - exfalso. unfold cv_wait in Hw. rewrite lock_do_i_hold_eq in Hw.
    destruct (_ =? curthread c); simpl in Hw; [|discriminate].
    destruct (q_addtail rc (q (the_cv m)) (curthread c)) as [result q'].
    destruct (negb (result =? 0)); [discriminate|].
    destruct (lock_release c lock_addr _); discriminate.
  - unfold cv_wait in Hw. rewrite lock_do_i_hold_eq in Hw.
    destruct (_ =? curthread c); simpl in Hw; [|discriminate].
    destruct (q_addtail rc (q (the_cv m)) (curthread c)) as [result q'].
    destruct (negb (result =? 0)); [discriminate|].
    set (m2 := set_cv (mk_cv (cv_name (the_cv m)) q') (set_spl SPL_HIGH m)) in *.
    assert (no_lost_wakeup m2) as Hn2 by exact Hn.
    assert (fresh c m2) as Hc2 by exact Hc.
    pose proof (lock_release_nl c m2 (proj1 (proj1 Hc)) Hn2) as Hrel.
    destruct (lock_release c lock_addr m2) as [m3| |] eqn:Hr; try discriminate.
    injection Hw as <-. simpl in Hrel.
    apply nl_sleep_own; [|exact Hrel].
    assert (Permutation (busy_threads m3) (busy_threads m2)) as Hp.
    { unfold lock_release in Hr.
      destruct (lock_addr =? NULL); simpl in Hr; [discriminate|].
      destruct (negb _); simpl in Hr; [injection Hr as <-; reflexivity|].
      destruct (_ =? 0); simpl in Hr; injection Hr as <-; [|reflexivity].
      apply (busy_wakeup lock_addr
               (set_lock (mk_lock (lock_name (the_lock m)) 0 NULL
                                  (int_pred (lock_counter (the_lock m)))) m2)). }
    split; [apply Hc|]. intros Hin. apply (proj2 Hc).
    apply (Permutation_in _ Hp) in Hin. exact Hin.
Qed.

Lemma wake_head_nl (m : machine) (h : addr) (rest : queue) :
  world_inv m -> q (the_cv m) = h :: rest ->
  no_lost_wakeup m -> no_lost_wakeup (wake_head m).
Proof.
  intros Hm E [Ha Hb].
  destruct (wake_head_cons m h rest Hm E) as (Hw & _ & _ & _ & Hoth).
  assert (thread_ok h) as (_ & Hs & Hl).
  { apply (queue_mem_ok m); [exact Hm | rewrite E; now left]. }
  split; intros H.
  - rewrite Hoth by congruence. apply Ha. rewrite Hw in H. exact H.
  - rewrite Hoth by congruence. apply Hb. rewrite Hw in H. exact H.
Qed.

Lemma cv_broadcast_loop_nl (m : machine) :
  world_inv m -> no_lost_wakeup m -> no_lost_wakeup (cv_broadcast_loop m).
Proof.
  intros Hm [Ha Hb].
  destruct (cv_broadcast_loop_spec m Hm) as (_ & _ & _ & Hoth & Hl & Hs & _).
  assert (forall ch, ch = sem_addr \/ ch = lock_addr -> ~ In ch (q (the_cv m)))
    as Hnot.
  { intros ch Hch Hin. destruct (queue_mem_ok m ch Hm Hin) as (_ & H1 & H2).
    destruct Hch; congruence. }
  split; intros H.
  - rewrite Hoth by auto. apply Ha. now rewrite <- Hl.
  - rewrite Hoth by auto. apply Hb. now rewrite <- Hs.
Qed.

Lemma run_call_nl (c : cpu) (f : call) (m : machine) :
  world_inv m -> fresh c m -> no_lost_wakeup m ->
  after (run_call c f m) no_lost_wakeup.
Proof.
  intros Hm Hc Hn. pose proof Hm as (Hwf & _).
  pose proof (proj1 (proj1 Hc)) as Hnn. destruct f; simpl.
  - unfold P. destruct (sem_addr =? NULL); simpl; [exact I|].
    destruct (negb _); simpl; [exact I|].
    apply (P_loop_nl c (curspl m) (set_spl SPL_HIGH m)); assumption.
  - now apply V_nl.
  - now apply lock_acquire_from_nl.
  - now apply lock_release_nl.
  - now apply cv_wait_nl.
  - unfold cv_signal. rewrite lock_do_i_hold_eq.
    destruct (_ =? curthread c); simpl; [|exact I].
    destruct (q (the_cv m)) as [|h rest] eqn:E; simpl; [exact Hn|].
    apply (wake_head_nl (set_spl SPL_HIGH m) h rest); assumption.
  - unfold cv_broadcast. destruct (cv_addr =? NULL); simpl; [exact I|].
    rewrite lock_do_i_hold_eq.
    destruct (_ =? curthread c); simpl; [|exact I].
    apply (cv_broadcast_loop_nl (set_spl SPL_HIGH m)); assumption.
Qed.

Lemma resume_at_nl (c : cpu) (k : resume) (m : machine) :
  lock_ok (the_lock m) -> fresh c m -> resume_ok k -> no_lost_wakeup m ->
  after (resume_at c k m) no_lost_wakeup.
Proof.
  intros Hwf Hc Hk Hn. pose proof (proj1 (proj1 Hc)) as Hnn.
  destruct k; simpl in *; subst.
  - now apply P_loop_nl.
  - now apply lock_acquire_loop_nl.
  - now apply lock_acquire_from_nl.
Qed.

Lemma step_nl (m : machine) (e : event) (m' : machine) :
  world_inv m -> event_ok e -> no_lost_wakeup m ->
  step m e = Some m' -> no_lost_wakeup m'.
Proof.
  intros Hm He Hn. destruct e as [c spl f | t]; simpl.
  - destruct (busy (curthread c) m) eqn:Hb; [now intros [= <-]|].
    apply busy_false in Hb.
    pose proof (run_call_nl c f (set_spl spl m) Hm (conj He Hb) Hn) as H.
    destruct (run_call c f (set_spl spl m)); simpl in *; congruence.
  - destruct (take t (runq m)) as [[k rest]|] eqn:Htake; [|now intros [= <-]].
    destruct Hm as (Hl & Hs & Ht & Hqo).
    destruct (take_inv t k rest m Ht Htake) as (Ht' & Hc & Hk).
    pose proof (resume_at_nl (mk_cpu t 0) k
                  (set_spl SPL_HIGH (set_runq rest m)) Hl Hc Hk Hn) as H.
    destruct (resume_at _ _ _); simpl in *; congruence.
Qed.

Lemma reachable_nl (m : machine) : reachable m -> no_lost_wakeup m.
Proof.
  induction 1 as [n1 k a1 s n2 a2 l n3 a3 c spl Hs Hl Hc | m e m' Hr IH He Hstep].
  - split; reflexivity.
  - eapply step_nl; eauto. now apply reachable_inv.
Qed.

(** X7: no wake-up is lost.  On every reachable machine whose semaphore and
    lock are distinct objects, nobody is asleep on the lock's channel while
    the lock has no owner, and nobody is asleep on the semaphore's channel
    while its count is positive: a thread only ever sleeps on a held lock or
    on a semaphore at 0. *)
Theorem no_wakeup_is_lost (m : machine) :
  reachable m ->
  (curthread_with_lock (the_lock m) = NULL -> sleeping_on lock_addr m = []) /\
  (0 < count (the_sem m) -> sleeping_on sem_addr m = []).
Proof. intros Hr. exact (reachable_nl m Hr). Qed.

End Distinct.

(** ** Further properties: destroying a semaphore *)

Lemma hassleepers_none (chan : addr) (m : machine) :
  sleeping_on chan m = [] -> thread_hassleepers chan m = 0.
Proof.
  unfold sleeping_on, thread_hassleepers. intros H.
  destruct (existsb (on_chan chan) (sleepers m)) eqn:E; [|reflexivity].
  apply existsb_exists in E as (s & Hin & Hs).
  assert (In s (filter (on_chan chan) (sleepers m))) as Hf
    by (apply filter_In; auto).
  destruct (filter (on_chan chan) (sleepers m)); [contradiction | discriminate].
Qed.

Lemma hassleepers_some (chan : addr) (m : machine) :
  sleeping_on chan m <> [] -> thread_hassleepers chan m = 1.
Proof.
  unfold sleeping_on, thread_hassleepers. intros H.
  destruct (existsb (on_chan chan) (sleepers m)) eqn:E; [reflexivity|].
  exfalso. apply H.
  destruct (filter (on_chan chan) (sleepers m)) as [|s l] eqn:F; [reflexivity|].
  assert (In s (filter (on_chan chan) (sleepers m))) as Hin by (rewrite F; now left).
  apply filter_In in Hin as [Hin Hs].
  assert (existsb (on_chan chan) (sleepers m) = true) as E'
    by (apply existsb_exists; eauto).
  congruence.
Qed.

Lemma sem_destroy_by_sleepers (sem : addr) (m : machine) :
  sem <> NULL ->
  (sleeping_on sem m = [] ->
     sem_destroy sem m =
     Destroyed m [FreedName (sem_name (the_sem m)); FreedStruct sem]) /\
  (sleeping_on sem m <> [] -> sem_destroy sem m = DestroyPanics).
Proof.
  intros Hs. unfold sem_destroy.
  destruct (Z.eqb_spec sem NULL); [contradiction|]. simpl.
  split; intros H.
  - rewrite (hassleepers_none sem (set_spl SPL_HIGH m)) by exact H. simpl.
    unfold splx. replace (set_spl (curspl m) (set_spl SPL_HIGH m)) with m
      by now destruct m.
    reflexivity.
  - rewrite (hassleepers_some sem (set_spl SPL_HIGH m)) by exact H. reflexivity.
Qed.

(** X8: [sem_destroy] frees the semaphore (its name, then the structure, the
    machine untouched) exactly when nobody is asleep on its channel, and
    halts on its assertion otherwise.  So on a reachable machine it halts
    right after a [P] that went to sleep, it goes through right after any [V]
    that returned, and it goes through whenever the count is positive.
    [lock_destroy], by contrast, looks at nothing but its pointer: it frees a
    lock that is held and has threads asleep on its channel, and wakes
    nobody. *)
Theorem sem_destroy_checks_sleepers (m : machine) :
  reachable m ->
  sem_addr <> lock_addr ->
  let gone m0 := Destroyed m0 [FreedName (sem_name (the_sem m0)); FreedStruct sem_addr] in
  (sleeping_on sem_addr m = [] -> sem_destroy sem_addr m = gone m) /\
  (sleeping_on sem_addr m <> [] -> sem_destroy sem_addr m = DestroyPanics) /\
  (0 < count (the_sem m) -> sem_destroy sem_addr m = gone m) /\
  (forall c m', V c sem_addr m = Returns m' -> sem_destroy sem_addr m' = gone m') /\
  (forall c m', P c sem_addr m = Sleeps m' ->
     sem_destroy sem_addr m' = DestroyPanics) /\
  lock_destroy lock_addr m =
    Destroyed m [FreedName (lock_name (the_lock m)); FreedStruct lock_addr].
Proof.
  intros Hr Hd gone. subst gone.
  pose proof (reachable_addrs m Hr) as (Hsem & Hlock & _).
  pose proof (reachable_nl Hd m Hr) as [_ Hb].
  split; [|split; [|split; [|split; [|split]]]].
  - apply (sem_destroy_by_sleepers sem_addr m Hsem).
  - apply (sem_destroy_by_sleepers sem_addr m Hsem).
  - intros H. apply (sem_destroy_by_sleepers sem_addr m Hsem). now apply Hb.
  - intros c m'. unfold V. destruct (sem_addr =? NULL); [discriminate|]. simpl.
    destruct (0 <? _); [|discriminate]. intros [= <-].
    apply sem_destroy_by_sleepers; [exact Hsem|].
    apply (thread_wakeup_all sem_addr
             (set_sem (mk_semaphore (sem_name (the_sem m))
                                    (int_succ (count (the_sem m))))
                (set_spl SPL_HIGH m))).
  - intros c m'. unfold P. destruct (sem_addr =? NULL); [discriminate|].
    destruct (negb _); [discriminate|]. simpl. unfold P_loop. simpl.
    destruct (count (the_sem m) =? 0).
    + intros [= <-]. apply sem_destroy_by_sleepers; [exact Hsem|].
      rewrite sleeping_on_sleep_same. now destruct (sleeping_on sem_addr _).
    + destruct (0 <? _); discriminate.
  - unfold lock_destroy. destruct (Z.eqb_spec lock_addr NULL); [contradiction|].
    reflexivity.
Qed.

(** ** Further properties: handing over *)

Lemma take_of_In (t : addr) (k : resume) (rq : list (addr * resume)) :
  NoDup (map fst rq) -> In (t, k) rq -> exists rest, take t rq = Some (k, rest).
Proof.
  induction rq as [|[t' k'] rq IH]; simpl; intros Hnd Hin; [contradiction|].
  inversion Hnd as [|? ? Hnot Hnd']; subst.
  destruct (Z.eqb_spec t' t) as [->|Hne].
  - destruct Hin as [[= ->]|Hin]; [eauto|].
    exfalso. apply Hnot. apply (in_map fst) in Hin. exact Hin.
  - destruct Hin as [[= -> _]|Hin]; [contradiction|].
    destruct (IH Hnd' Hin) as (rest & ->). eauto.
Qed.

Lemma step_resume (t : addr) (k : resume) (m : machine) :
  world_inv m -> In (t, k) (runq m) ->
  exists rest,
    step m (Resume t) =
      settle (resume_at (mk_cpu t 0) k (set_spl SPL_HIGH (set_runq rest m))) /\
    ~ In t (map sl_thread (sleepers m) ++ map fst rest).
Proof.
  intros (_ & _ & Ht & _) Hin.
  assert (NoDup (map fst (runq m))) as Hnd.
  { destruct Ht as (_ & Hnd & _). unfold busy_threads in Hnd.
    now apply NoDup_app_remove_l in Hnd. }
  destruct (take_of_In t k (runq m) Hnd Hin) as (rest & Htake).
  exists rest. simpl. rewrite Htake. split; [reflexivity|].
  destruct (take_inv t k rest m Ht Htake) as (_ & [_ Hfresh] & _).
  exact Hfresh.
Qed.

(** X9: a blocked [P] is handed the count by the next [V].  On a reachable
    machine with count 0, when a thread outside interrupt context calls [P],
    any other context then calls [V], and the first thread is scheduled
    again, the three steps run without a halt: the [P] has returned, the
    count is 0 again, the thread is no longer inside a call, the interrupt
    level is the one at which it called [P], and lock and condition variable
    are as before. *)
Theorem V_hands_over_to_P (m : machine) (t spl : Z) (cu : cpu) (splu : Z) :
  reachable m ->
  count (the_sem m) = 0 ->
  thread_ok t -> thread_ok (curthread cu) -> curthread cu <> t ->
  ~ In t (busy_threads m) -> ~ In (curthread cu) (busy_threads m) ->
  exists m',
    exec [Invoke (mk_cpu t 0) spl CallP; Invoke cu splu CallV; Resume t] m = Some m' /\
    count (the_sem m') = 0 /\
    ~ In t (busy_threads m') /\
    curspl m' = spl /\
    the_lock m' = the_lock m /\ the_cv m' = the_cv m.
Proof.
  intros Hr Hc Ht Hu Hne Hbt Hbu.
  pose proof (reachable_addrs m Hr) as (Hsem & _ & _).
  set (m1 := thread_sleep (mk_cpu t 0) sem_addr (InP sem_addr spl)
               (set_spl SPL_HIGH m)).
  assert (step m (Invoke (mk_cpu t 0) spl CallP) = Some m1) as H1.
  { simpl. rewrite (not_busy _ _ Hbt).
    rewrite (P_zero (mk_cpu t 0) sem_addr (set_spl spl m) Hsem eq_refl Hc).
    reflexivity. }
  assert (reachable m1) as Hr1
    by exact (reach_step m (Invoke (mk_cpu t 0) spl CallP) m1 Hr Ht H1).
  set (m2 := thread_wakeup sem_addr
               (set_sem (mk_semaphore (sem_name (the_sem m)) 1) (set_spl splu m1))).
  assert (step m1 (Invoke cu splu CallV) = Some m2) as H2.
  { simpl. rewrite not_busy.
    - unfold V. destruct (Z.eqb_spec sem_addr NULL); [contradiction|]. simpl.
      rewrite Hc. reflexivity.
    - intros Hin. apply (Permutation_in _ (busy_sleep _ _ _ _)) in Hin.
      destruct Hin as [Hin|Hin]; [simpl in Hin; congruence | contradiction]. }
  assert (reachable m2) as Hr2
    by exact (reach_step m1 (Invoke cu splu CallV) m2 Hr1 Hu H2).
  assert (In (t, InP sem_addr spl) (runq m2)) as Hin.
  { unfold m2, thread_wakeup. simpl. apply in_or_app. right.
    apply (in_map to_run _ (mk_sleeper t sem_addr (InP sem_addr spl))).
    apply filter_In. split; [apply in_or_app; right; now left|].
    unfold on_chan. simpl. apply Z.eqb_refl. }
  destruct (step_resume t _ m2 (reachable_inv m2 Hr2) Hin) as (rest & H3 & Hfresh).
  eexists. split.
  - cbn [exec]. rewrite H1, H2, H3. reflexivity.
  - simpl. repeat split; try reflexivity. exact Hfresh.
Qed.

(** X10: wait, signal, and the waiter is back with the lock.  On a reachable
    machine with an empty wait queue, when the thread that holds the lock
    once calls [cv_wait], a second thread takes the lock, calls [cv_signal],
    releases the lock, and the first thread is scheduled again, the five
    steps run without a halt: the second thread got the lock at once, the
    [cv_wait] has returned, the first thread owns the lock once again, the
    wait queue is empty, the thread is no longer inside a call, and the
    interrupt level is the one at which it called [cv_wait]. *)
Theorem signal_hands_lock_back (m : machine) (a b spl splb : Z) :
  reachable m ->
  q (the_cv m) = [] ->
  curthread_with_lock (the_lock m) = a ->
  lock_counter (the_lock m) = 1 ->
  thread_ok a -> thread_ok b -> a <> b ->
  ~ In a (busy_threads m) -> ~ In b (busy_threads m) ->
  exists m2 m',
    exec [Invoke (mk_cpu a 0) spl (CallWait 0);
          Invoke (mk_cpu b 0) splb CallAcquire] m = Some m2 /\
    curthread_with_lock (the_lock m2) = b /\
    exec [Invoke (mk_cpu b 0) splb CallSignal;
          Invoke (mk_cpu b 0) splb CallRelease;
          Resume a] m2 = Some m' /\
    the_lock m' = mk_lock (lock_name (the_lock m)) 1 a 1 /\
    q (the_cv m') = [] /\
    ~ In a (busy_threads m') /\
    curspl m' = spl.
Proof.
  intros Hr Hq Hown Hcnt Ha Hb Hne Hba Hbb.
  pose proof (reachable_addrs m Hr) as (_ & Hlock & _).
  pose proof (reachable_inv m Hr) as (Hwf & _).
  assert (curthread_with_lock (the_lock m) <> NULL) as Hnn.
  { rewrite Hown. apply Ha. }
  pose proof (held_lock_shape _ Hwf Hnn) as Hshape.
  rewrite Hown, Hcnt in Hshape.
  set (nm := lock_name (the_lock m)) in *.
  (* the wait *)
  pose proof (step_wait_once a spl m nm Hlock Hshape Hba) as H1.
  match type of H1 with _ = Some ?x => set (m1 := x) in * end.
  assert (reachable m1) as Hr1
    by exact (reach_step m (Invoke (mk_cpu a 0) spl (CallWait 0)) m1 Hr Ha H1).
  assert (forall x, In x (busy_threads m1) -> x = a \/ In x (busy_threads m)) as Hbusy1.
  { intros x Hx. unfold m1 in Hx.
    apply (Permutation_in _ (busy_sleep _ _ _ _)) in Hx. simpl in Hx.
    destruct Hx as [<-|Hx]; [now left | right].
    apply (Permutation_in _ (busy_wakeup _ _)) in Hx. exact Hx. }
  assert (~ In b (busy_threads m1)) as Hbb1.
  { intros Hin. apply Hbusy1 in Hin as [->|Hin]; [congruence | contradiction]. }
  (* the second thread takes the lock *)
  pose proof (reachable_inv m1 Hr1) as (Hwf1 & _).
  pose proof (step_acquire_free b splb m1 Hlock (proj1 Hb) Hwf1 eq_refl Hbb1) as H2.
  match type of H2 with _ = Some ?x => set (m2 := x) in * end.
  assert (reachable m2) as Hr2
    by exact (reach_step m1 (Invoke (mk_cpu b 0) splb CallAcquire) m2 Hr1 Hb H2).
  (* signal *)
  assert (q (the_cv m2) = [a]) as Hq2 by (unfold m2, m1; simpl; now rewrite Hq).
  assert (~ In b (busy_threads m2)) as Hbb2 by exact Hbb1.
  set (m3 := wake_head (set_spl splb m2)).
  assert (step m2 (Invoke (mk_cpu b 0) splb CallSignal) = Some m3) as H3.
  { simpl. rewrite (not_busy _ _ Hbb2).
    destruct (cv_signal_held (mk_cpu b 0) cv_addr lock_addr (set_spl splb m2) eq_refl)
      as [_ Hsig].
    rewrite Hsig; [reflexivity|]. simpl. rewrite Hq. discriminate. }
  assert (reachable m3) as Hr3
    by exact (reach_step m2 (Invoke (mk_cpu b 0) splb CallSignal) m3 Hr2 Hb H3).
  destruct (wake_head_cons (set_spl splb m2) a [] (reachable_inv m2 Hr2) Hq2)
    as (Hw3 & Hq3 & Hrq3 & _ & _).
  fold m3 in Hw3, Hq3, Hrq3.
  assert (In (a, InCvWait lock_addr spl) (runq m3)) as Hin3.
  { rewrite Hw3. unfold thread_wakeup. simpl. apply in_or_app. right.
    apply (in_map to_run _ (mk_sleeper a a (InCvWait lock_addr spl))).
    apply filter_In. split; [apply in_or_app; right; now left|].
    unfold on_chan. simpl. apply Z.eqb_refl. }
  assert (~ In b (busy_threads m3)) as Hbb3.
  { rewrite Hw3. intros Hin.
    apply (Permutation_in _ (busy_wakeup _ _)) in Hin. exact (Hbb2 Hin). }
  (* release *)
  assert (the_lock m3 = mk_lock nm 1 b 1) as Hl3 by (rewrite Hw3; reflexivity).
  set (m4 := thread_wakeup lock_addr (set_lock (mk_lock nm 0 NULL 0) (set_spl splb m3))).
  assert (step m3 (Invoke (mk_cpu b 0) splb CallRelease) = Some m4) as H4.
  { simpl. rewrite (not_busy _ _ Hbb3).
    rewrite (release_last (mk_cpu b 0) lock_addr (set_spl splb m3) nm 1 Hlock Hl3).
    reflexivity. }
  assert (reachable m4) as Hr4
    by exact (reach_step m3 (Invoke (mk_cpu b 0) splb CallRelease) m4 Hr3 Hb H4).
  assert (In (a, InCvWait lock_addr spl) (runq m4)) as Hin4.
  { unfold m4, thread_wakeup. simpl. apply in_or_app. now left. }
  (* the waiter continues *)
  destruct (step_resume a _ m4 (reachable_inv m4 Hr4) Hin4) as (rest & H5 & Hfresh).
  assert (resume_at (mk_cpu a 0) (InCvWait lock_addr spl)
            (set_spl SPL_HIGH (set_runq rest m4)) =
          Returns (set_spl spl
                     (set_lock (mk_lock nm 1 a 1)
                        (set_spl SPL_HIGH (set_runq rest m4))))) as Hres'.
  { simpl. unfold lock_acquire_from, lock_acquire_loop.
    destruct (Z.eqb_spec lock_addr NULL); [contradiction|]. simpl.
    destruct (Z.eqb_spec a NULL) as [E|_]; [destruct Ha; contradiction|].
    reflexivity. }
  rewrite Hres' in H5. cbn [settle] in H5.
  exists m2. eexists.
  split; [cbn [exec]; rewrite H1, H2; reflexivity|].
  split; [reflexivity|].
  split; [cbn [exec]; rewrite H3, H4, H5; reflexivity|].
  split; [reflexivity|].
  split; [simpl; exact Hq3|].
  split; [exact Hfresh | reflexivity].
Qed.

(** ** Further properties: mutual exclusion *)

Lemma lock_acquire_loop_moves (c : cpu) (lock : addr) (spl : Z) (ret : caller)
  (m : machine) :
  lock_ok (the_lock m) ->
  after (lock_acquire_loop c lock spl ret m) (moves_from c m).
Proof.
  intros Hwf. unfold lock_acquire_loop, moves_from, lock_moves.
  destruct (Z.eqb_spec (status (the_lock m)) 1) as [E|E]; simpl; [now left|].
  assert (curthread_with_lock (the_lock m) = NULL /\ lock_counter (the_lock m) = 0)
    as [H1 H2] by lock_arith.
  destruct ret; simpl; right; left; rewrite H2; auto.
Qed.

Lemma lock_acquire_from_moves (ret : caller) (c : cpu) (lock : addr) (m : machine) :
  lock_ok (the_lock m) ->
  after (lock_acquire_from ret c lock m) (moves_from c m).
Proof.
  intros Hwf. unfold lock_acquire_from.
  destruct (lock =? NULL); simpl; [exact I|].
  destruct (curthread c =? curthread_with_lock (the_lock m)).
  - destruct ret; simpl; unfold moves_from; now left.
  - apply (lock_acquire_loop_moves c lock (curspl m) ret (set_spl SPL_HIGH m) Hwf).
Qed.

Lemma lock_release_moves (c : cpu) (lock : addr) (m : machine) :
  after (lock_release c lock m) (moves_from c m).
Proof.
  unfold lock_release, moves_from, lock_moves.
  destruct (lock =? NULL); simpl; [exact I|].
  destruct (Z.eqb_spec (curthread c) (curthread_with_lock (the_lock m))) as [E|E];
    simpl; [|now left].
  destruct (_ =? 0); simpl; [right; right; auto | now left].
Qed.

Lemma cv_wait_moves (c : cpu) (cv lock : addr) (rc : Z) (m : machine) :
  after (cv_wait c cv lock rc m) (moves_from c m).
Proof.
  unfold cv_wait. rewrite lock_do_i_hold_eq.
  destruct (_ =? curthread c); simpl; [|exact I].
  destruct (q_addtail rc (q (the_cv m)) (curthread c)) as [result q'].
  destruct (negb (result =? 0)); simpl; [exact I|].
  pose proof (lock_release_moves c lock
                (set_cv (mk_cv (cv_name (the_cv m)) q') (set_spl SPL_HIGH m))) as H.
  destruct (lock_release c lock _); simpl in *; [exact H | exact I | exact I].
Qed.

Lemma run_call_moves (c : cpu) (f : call) (m : machine) :
  world_inv m -> after (run_call c f m) (moves_from c m).
Proof.
  intros Hm. pose proof Hm as (Hwf & _). unfold moves_from at 1.
  destruct f; simpl.
  - unfold P, P_loop. destruct (sem_addr =? NULL); simpl; [exact I|].
    destruct (negb _); simpl; [exact I|].
    destruct (_ =? 0); simpl; [now left|].
    destruct (0 <? _); simpl; [now left | exact I].
  - unfold V. destruct (sem_addr =? NULL); simpl; [exact I|].
    destruct (0 <? _); simpl; [now left | exact I].
  - now apply lock_acquire_from_moves.
  - apply lock_release_moves.
  - apply cv_wait_moves.
  - unfold cv_signal. rewrite lock_do_i_hold_eq.
    destruct (_ =? curthread c); simpl; [|exact I].
    unfold wake_head. simpl.
    destruct (q (the_cv m)); simpl; unfold lock_moves; now left.
  - unfold cv_broadcast. destruct (cv_addr =? NULL); simpl; [exact I|].
    rewrite lock_do_i_hold_eq.
    destruct (_ =? curthread c); simpl; [|exact I].
    left. assert (world_inv (set_spl SPL_HIGH m)) as Hm1 by exact Hm.
    destruct (cv_broadcast_loop_spec _ Hm1) as (_ & _ & _ & _ & Hl & _).
    unfold moves_from. simpl. now rewrite Hl.
Qed.

Lemma resume_at_moves (c : cpu) (k : resume) (m : machine) :
  lock_ok (the_lock m) -> after (resume_at c k m) (moves_from c m).
Proof.
  intros Hwf. destruct k as [sem spl | lock spl ret | lock spl]; simpl.
  - unfold P_loop, moves_from. destruct (_ =? 0); simpl; [now left|].
    destruct (0 <? _); simpl; [now left | exact I].
  - now apply lock_acquire_loop_moves.
  - now apply lock_acquire_from_moves.
Qed.

(** X11: mutual exclusion.  In every step from a reachable machine the lock
    either keeps its owner, or it was free and the thread that ran has taken
    it with counter 1, or the thread that ran was the owner and has given it
    up.  So no thread ever takes the lock away from another: a thread that
    owns the lock still owns it after every step of any other thread. *)
Theorem lock_stays_with_owner (m : machine) (e : event) (m' : machine) :
  reachable m ->
  step m e = Some m' ->
  lock_moves (event_thread e) (the_lock m) (the_lock m') /\
  (curthread_with_lock (the_lock m) <> NULL ->
   curthread_with_lock (the_lock m) <> event_thread e ->
   curthread_with_lock (the_lock m') = curthread_with_lock (the_lock m)).
Proof.
  intros Hr Hstep.
  pose proof (reachable_inv m Hr) as Hm.
  assert (lock_moves (event_thread e) (the_lock m) (the_lock m')) as Hmv.
  { destruct e as [c spl f | t]; simpl in *.
    - destruct (busy (curthread c) m); [injection Hstep as <-; now left|].
      pose proof (run_call_moves c f (set_spl spl m) Hm) as H.
      destruct (run_call c f (set_spl spl m)); simpl in *;
        try discriminate; injection Hstep as <-; exact H.
    - destruct (take t (runq m)) as [[k rest]|]; [|injection Hstep as <-; now left].
      pose proof (resume_at_moves (mk_cpu t 0) k
                    (set_spl SPL_HIGH (set_runq rest m)) (proj1 Hm)) as H.
      destruct (resume_at _ _ _); simpl in *;
        try discriminate; injection Hstep as <-; exact H. }
  split; [exact Hmv|].
  intros Hnn Hne. destruct Hmv as [H|[(H & _)|(H & _)]]; [exact H | |]; congruence.
Qed.

(** ** Further properties: broadcast and signal *)

Lemma wake_head_spl (s : Z) (m : machine) :
  wake_head (set_spl s m) = set_spl s (wake_head m).
Proof. unfold wake_head. simpl. now destruct (q (the_cv m)). Qed.

Lemma wake_head_queue (m : machine) (h : addr) (rest : queue) :
  q (the_cv m) = h :: rest ->
  q (the_cv (wake_head m)) = rest /\ the_lock (wake_head m) = the_lock m.
Proof. intros E. unfold wake_head. rewrite E. simpl. auto. Qed.

Lemma cv_broadcast_loop_spl (s : Z) (m : machine) :
  cv_broadcast_loop (set_spl s m) = set_spl s (cv_broadcast_loop m).
Proof.
  remember (q (the_cv m)) as qu eqn:Eq. revert m Eq.
  induction qu as [|h rest IH]; intros m Eq;
    rewrite (cv_broadcast_loop_step m), (cv_broadcast_loop_step (set_spl s m));
    simpl; rewrite <- Eq; simpl; [reflexivity|].
  rewrite wake_head_spl. apply IH.
  symmetry. apply (wake_head_queue m h rest). now symmetry.
Qed.

Lemma signals_are_loop (c : cpu) (cv lock : addr) (n : nat) :
  forall m,
    curthread c = curthread_with_lock (the_lock m) ->
    List.length (q (the_cv m)) = n ->
    repeat_call (cv_signal c cv lock) n m = Returns (cv_broadcast_loop m).
Proof.
  induction n as [|n IH]; intros m Hown Hlen; rewrite cv_broadcast_loop_step.
  - destruct (q (the_cv m)); [reflexivity | discriminate].
  - destruct (q (the_cv m)) as [|h rest] eqn:E; [discriminate|]. simpl.
    destruct (cv_signal_held c cv lock m Hown) as [_ Hsig].
    rewrite Hsig by (rewrite E; discriminate).
    destruct (wake_head_queue m h rest E) as [Hq Hl].
    apply IH.
    + now rewrite Hl.
    + rewrite Hq. simpl in Hlen. congruence.
Qed.

(** X12: a broadcast is as many signals as there are waiters.  For a caller
    that holds the lock, [cv_broadcast] returns the very machine that
    [cv_signal], called once per entry of the wait queue, returns; and a
    signal after that changes nothing. *)
Theorem broadcast_is_repeated_signal (c : cpu) (cv lock : addr) (m : machine) :
  cv <> NULL ->
  curthread c = curthread_with_lock (the_lock m) ->
  cv_broadcast c cv lock m =
    repeat_call (cv_signal c cv lock) (List.length (q (the_cv m))) m /\
  forall m', cv_broadcast c cv lock m = Returns m' ->
    cv_signal c cv lock m' = Returns m'.
Proof.
  intros Hcv Hown.
  assert (cv_broadcast c cv lock m = Returns (cv_broadcast_loop m)) as Hb.
  { unfold cv_broadcast. destruct (Z.eqb_spec cv NULL); [contradiction|].
    rewrite lock_do_i_hold_eq, <- Hown, Z.eqb_refl. simpl.
    rewrite cv_broadcast_loop_spl. f_equal.
    transitivity (set_spl (curspl m) (cv_broadcast_loop m)).
    - unfold splx. now destruct (cv_broadcast_loop m).
    - now rewrite <- cv_broadcast_loop_spl, set_spl_id. }
  split.
  - rewrite Hb. symmetry. now apply signals_are_loop.
  - rewrite Hb. intros m' [= <-].
    assert (forall n m0, List.length (q (the_cv m0)) = n ->
              q (the_cv (cv_broadcast_loop m0)) = [] /\
              the_lock (cv_broadcast_loop m0) = the_lock m0) as Hend.
    { induction n as [|n IH]; intros m0 Hlen; rewrite cv_broadcast_loop_step.
      - destruct (q (the_cv m0)) eqn:E; [simpl; auto | discriminate].
      - destruct (q (the_cv m0)) as [|h rest] eqn:E; [discriminate|]. simpl.
        destruct (wake_head_queue m0 h rest E) as [Hq Hl].
        destruct (IH (wake_head m0)) as [I1 I2].
        + rewrite Hq. simpl in Hlen. congruence.
        + split; [exact I1 | congruence]. }
    destruct (Hend _ m eq_refl) as [Hq Hl].
    apply (cv_signal_held c cv lock (cv_broadcast_loop m)).
    + now rewrite Hl.
    + exact Hq.
Qed.

(** ** Further properties: when the kernel halts *)

Lemma run_call_panics (c : cpu) (f : call) (m : machine) :
  sem_addr <> NULL -> lock_addr <> NULL -> cv_addr <> NULL ->
  0 <= count (the_sem m) ->
  (run_call c f m = Panics <-> misuse c f m).
Proof.
  intros Hsem Hlock Hcv Hcount. destruct f; simpl.
  - unfold P, P_loop. destruct (Z.eqb_spec sem_addr NULL); [contradiction|].
    destruct (Z.eqb_spec (in_interrupt c) 0) as [E|E]; simpl.
    + split; [|contradiction].
      destruct (Z.eqb_spec (count (the_sem m)) 0); [discriminate|].
      destruct (Z.ltb_spec 0 (count (the_sem m))); [discriminate | lia].
    + tauto.
  - unfold V. destruct (Z.eqb_spec sem_addr NULL); [contradiction|]. simpl.
    destruct (Z.ltb_spec 0 (int_succ (count (the_sem m)))) as [Hp|Hn].
    + split; [discriminate|]. intros E. exfalso. int_arith.
    + split; [intros _ | reflexivity]. int_arith.
  - unfold lock_acquire, lock_acquire_from, lock_acquire_loop.
    destruct (Z.eqb_spec lock_addr NULL); [contradiction|]. simpl.
    split; [|contradiction].
    destruct (_ =? curthread_with_lock _); [discriminate|].
    destruct (_ =? 1); discriminate.
  - unfold lock_release. destruct (Z.eqb_spec lock_addr NULL); [contradiction|].
    simpl. split; [|contradiction].
    destruct (negb _); simpl; [discriminate|]. destruct (_ =? 0); discriminate.
  - unfold cv_wait. rewrite lock_do_i_hold_eq.
    destruct (Z.eqb_spec (curthread_with_lock (the_lock m)) (curthread c)) as [E|E];
      simpl.
    2: { split; [intros _; left; congruence | reflexivity]. }
    unfold q_addtail. destruct (Z.eqb_spec rc 0) as [->|Hrc]; simpl.
    2: { apply Z.eqb_neq in Hrc as Hrc'. rewrite Hrc'. simpl. tauto. }
    unfold lock_release. destruct (Z.eqb_spec lock_addr NULL); [contradiction|].
    simpl. split.
    + destruct (negb _); simpl; [discriminate|]. destruct (_ =? 0); discriminate.
    + intros [H|H]; [congruence | contradiction].
  - unfold cv_signal. rewrite lock_do_i_hold_eq.
    destruct (Z.eqb_spec (curthread_with_lock (the_lock m)) (curthread c)) as [E|E];
      simpl.
    + split; [destruct (_ =? 0); discriminate | congruence].
    + split; [intros _; congruence | reflexivity].
  - unfold cv_broadcast. destruct (Z.eqb_spec cv_addr NULL); [contradiction|].
    rewrite lock_do_i_hold_eq.
    destruct (Z.eqb_spec (curthread_with_lock (the_lock m)) (curthread c)) as [E|E];
      simpl.
    + split; [discriminate | congruence].
    + split; [intros _; congruence | reflexivity].
Qed.

Lemma resume_at_no_panic (c : cpu) (k : resume) (m : machine) :
  sem_addr <> NULL -> lock_addr <> NULL -> resume_ok k ->
  0 <= count (the_sem m) ->
  resume_at c k m <> Panics.
Proof.
  intros Hsem Hlock Hk Hcount. destruct k as [sem spl | lock spl ret | lock spl];
    simpl in *; subst.
  - unfold P_loop. destruct (Z.eqb_spec (count (the_sem m)) 0); [discriminate|].
    destruct (Z.ltb_spec 0 (count (the_sem m))); [discriminate | lia].
  - unfold lock_acquire_loop. destruct (_ =? 1); [discriminate|].
    destruct ret; discriminate.
  - unfold lock_acquire_from, lock_acquire_loop.
    destruct (Z.eqb_spec lock_addr NULL); [contradiction|]. simpl.
    destruct (_ =? curthread_with_lock _); [discriminate|].
    destruct (_ =? 1); discriminate.
Qed.

(** X13: the kernel halts only on misuse.  A step from a reachable machine
    halts exactly when a thread that is not inside a call enters [P] from
    interrupt context, or [V] on a count of [INT_MAX], or [cv_wait],
    [cv_signal] or [cv_broadcast] without holding the lock, or [cv_wait]
    when the queue cannot grow.  [lock_acquire], [lock_release] and every
    continuation of a woken thread never halt: the assertion on the count
    inside [P] and the assertions on the pointers never fail, and the one
    inside [V] fails only when the count has gone around. *)
Theorem halts_only_on_misuse (m : machine) (e : event) :
  reachable m ->
  (step m e = None <->
   match e with
   | Invoke c spl f => ~ In (curthread c) (busy_threads m) /\ misuse c f m
   | Resume _ => False
   end).
Proof.
  intros Hr.
  pose proof (reachable_addrs m Hr) as (Hsem & Hlock & Hcv).
  pose proof (reachable_inv m Hr) as (Hl & Hs & Ht & Hq).
  destruct e as [c spl f | t]; simpl.
  - destruct (busy (curthread c) m) eqn:Hb.
    + split; [discriminate|]. intros [Hnb _].
      apply not_busy in Hnb. congruence.
    + apply busy_false in Hb.
      pose proof (run_call_panics c f (set_spl spl m) Hsem Hlock Hcv Hs) as Hp.
      assert (misuse c f (set_spl spl m) <-> misuse c f m) as Hm
        by (destruct f; reflexivity).
      destruct (run_call c f (set_spl spl m)) as [m1|m1|]; simpl; split.
      * discriminate.
      * intros [_ H]. apply Hm, Hp in H. discriminate.
      * discriminate.
      * intros [_ H]. apply Hm, Hp in H. discriminate.
      * intros _. split; [exact Hb|]. apply Hm, Hp. reflexivity.
      * reflexivity.
  - destruct (take t (runq m)) as [[k rest]|] eqn:Htake;
      [|split; [discriminate | contradiction]].
    destruct (take_inv t k rest m Ht Htake) as (_ & _ & Hk).
    pose proof (resume_at_no_panic (mk_cpu t 0) k
                  (set_spl SPL_HIGH (set_runq rest m)) Hsem Hlock Hk Hs) as Hnp.
    destruct (resume_at _ _ _) as [m1|m1|]; simpl; split;
      try discriminate; try contradiction.
Qed.

(** X14: the functions take NULL for "no owner", so a caller whose
    [curthread] is NULL passes for the owner of a free lock.  On a free lock
    of a reachable machine such a caller is told by [lock_do_i_hold] that it
    holds the lock, and its [lock_acquire] returns at once having only added
    one to the counter: the lock is still free, its counter is 1, and the
    next thread that takes it owns it with counter 2 and must release it
    twice. *)
Theorem null_thread_passes_for_owner (m : machine) (c other : cpu) :
  reachable m ->
  curthread_with_lock (the_lock m) = NULL ->
  curthread c = NULL ->
  curthread other <> NULL ->
  let nm := lock_name (the_lock m) in
  let m1 := set_lock (mk_lock nm 0 NULL 1) m in
  lock_do_i_hold c lock_addr m = (1, m) /\
  lock_acquire c lock_addr m = Returns m1 /\
  ~ lock_inv (the_lock m1) /\
  lock_acquire other lock_addr m1 =
    Returns (set_lock (mk_lock nm 1 (curthread other) 2) m) /\
  lock_release other lock_addr (set_lock (mk_lock nm 1 (curthread other) 2) m) =
    Returns (set_lock (mk_lock nm 1 (curthread other) 1) m).
Proof.
  intros Hr Hfree Hc Ho nm m1. subst nm m1.
  pose proof (reachable_addrs m Hr) as (_ & Hlock & _).
  pose proof (reachable_inv m Hr) as (Hwf & _).
  pose proof (free_lock_shape _ Hwf Hfree) as Hshape.
  split; [|split; [|split; [|split]]].
  - rewrite lock_do_i_hold_eq, Hfree, Hc, Z.eqb_refl. reflexivity.
  - unfold lock_acquire, lock_acquire_from.
    destruct (Z.eqb_spec lock_addr NULL); [contradiction|]. simpl.
    rewrite Hfree, Hc, Z.eqb_refl. simpl. rewrite Hshape at 2 3. reflexivity.
  - unfold lock_inv. simpl. intros [_ H]. unfold NULL in H.
    assert (1 = 0) by (apply H; reflexivity). lia.
  - unfold lock_acquire, lock_acquire_from, lock_acquire_loop.
    destruct (Z.eqb_spec lock_addr NULL); [contradiction|]. simpl.
    destruct (Z.eqb_spec (curthread other) NULL); [contradiction|]. reflexivity.
  - unfold lock_release.
    destruct (Z.eqb_spec lock_addr NULL); [contradiction|]. simpl.
    rewrite Z.eqb_refl. reflexivity.
Qed.

(** ** Further properties: what the lock keeps when its counter goes around *)

(** X15: whatever the counter has gone through, on every reachable machine
    the status of the lock is 0 or 1, it is 0 exactly when the lock has no
    owner, a lock without owner has counter 0, and the counter is an [int]:
    the status and the owner keep telling whether the lock is held even
    where the counter no longer does. *)
Theorem lock_status_tracks_owner (m : machine) :
  reachable m ->
  let l := the_lock m in
  (status l = 0 \/ status l = 1) /\
  (status l = 0 <-> curthread_with_lock l = NULL) /\
  (curthread_with_lock l = NULL -> lock_counter l = 0) /\
  INT_MIN <= lock_counter l <= INT_MAX.
Proof. intros Hr. exact (proj1 (reachable_inv m Hr)). Qed.

(** ** The counter over many acquisitions *)

Lemma Forall_repeat_same {A : Type} (Q : A -> Prop) (x : A) (n : nat) :
  Q x -> Forall Q (repeat x n).
Proof. intros H. induction n; simpl; constructor; assumption. Qed.

Lemma step_reacquire (t : addr) (spl : Z) (m : machine) nm st z :
  lock_addr <> NULL -> curspl m = spl -> ~ In t (busy_threads m) ->
  the_lock m = mk_lock nm st t z ->
  step m (Invoke (mk_cpu t 0) spl CallAcquire) =
  Some (set_lock (mk_lock nm st t (int_succ z)) m).
Proof.
  intros Hl <- Hb E. simpl. rewrite (not_busy _ _ Hb), set_spl_id.
  unfold lock_acquire, lock_acquire_from.
  destruct (Z.eqb_spec lock_addr NULL); [contradiction|]. simpl.
  rewrite E. simpl. rewrite Z.eqb_refl. reflexivity.
Qed.

Lemma exec_reacquire (t : addr) (spl : Z) (n : nat) :
  lock_addr <> NULL ->
  forall m nm st z,
    curspl m = spl ->
    ~ In t (busy_threads m) ->
    the_lock m = mk_lock nm st t (wrap_int z) ->
    exec (repeat (Invoke (mk_cpu t 0) spl CallAcquire) n) m =
    Some (set_lock (mk_lock nm st t (wrap_int (z + Z.of_nat n))) m).
Proof.
  intros Hl. induction n as [|n IH]; intros m nm st z Hs Hb E.
  - simpl. rewrite Z.add_0_r, <- E, set_lock_id. reflexivity.
  - cbn [repeat exec].
    rewrite (step_reacquire t spl m nm st _ Hl Hs Hb E), int_succ_wrap.
    replace (z + Z.of_nat (S n)) with (z + 1 + Z.of_nat n) by lia.
    rewrite (IH (set_lock (mk_lock nm st t (wrap_int (z + 1))) m)
               nm st (z + 1) Hs Hb eq_refl).
    reflexivity.
Qed.

End World.

(** ** The example configuration *)

Lemma ex_thread_ok (t : addr) :
  (t =? 0) = false -> (t =? 100) = false -> (t =? 200) = false ->
  thread_ok 100 200 t.
Proof.
  intros H0 H1 H2. repeat split; apply Z.eqb_neq; assumption.
Defined.

Lemma ex_not_null (t : addr) : (t =? 0) = false -> t <> NULL.
Proof. intros H. apply Z.eqb_neq. exact H. Defined.

Lemma ex_boot_reachable : reachable 100 200 300 ex_boot.
Proof.
  apply (reach_boot 100 200 300
           "sem" 0 (mk_alloc 100 (Some "sem"%string)) ex_sem
           "lock" (mk_alloc 200 (Some "lock"%string)) ex_lock
           "cv" (mk_alloc 300 (Some "cv"%string)) ex_cv 0); reflexivity.
Defined.

Lemma ex_held_reachable : reachable 100 200 300 ex_held.
Proof.
  apply (reach_step 100 200 300 ex_boot (Invoke (mk_cpu 1000 0) 0 CallAcquire)).
  - exact ex_boot_reachable.
  - apply ex_thread_ok; reflexivity.
  - reflexivity.
Defined.

Lemma ex_lock_trace_ok : Forall (event_ok 100 200) ex_lock_trace.
Proof.
  repeat constructor; apply Z.eqb_neq; reflexivity.
Defined.

Lemma ex_sem_trace_ok : Forall (event_ok 100 200) ex_sem_trace.
Proof.
  repeat constructor; apply Z.eqb_neq; reflexivity.
Defined.

Lemma ex_lock_trace_exec :
  exec 100 200 300 ex_lock_trace ex_boot = Some ex_lock_final.
Proof. vm_compute. reflexivity. Defined.

Lemma ex_sem_trace_exec :
  exec 100 200 300 ex_sem_trace ex_boot = Some ex_sem_final.
Proof. vm_compute. reflexivity. Defined.

Lemma ex_lock_trace_no_wrap :
  no_wrap 100 200 300 ex_lock_trace ex_boot = true.
Proof. vm_compute. reflexivity. Defined.

Lemma lock_invariant_witness :
  lock_create "lock" (mk_alloc 200 (Some "lock"%string)) = Allocated 200 ex_lock /\
  no_wrap 100 200 300 ex_lock_trace ex_boot = true /\
  exec 100 200 300 ex_lock_trace ex_boot = Some ex_lock_final /\
  lock_inv (mk_lock "lock" 1 2000 1).
Proof.
  split; [reflexivity | split; [exact ex_lock_trace_no_wrap |
                                split; [exact ex_lock_trace_exec|]]].
  exact (proj2 (proj2 (lock_invariant 100 200 300
           "lock" (mk_alloc 200 (Some "lock"%string)) ex_lock eq_refl))
           "sem"%string 0 (mk_alloc 100 (Some "sem"%string)) ex_sem
           "cv"%string (mk_alloc 300 (Some "cv"%string)) ex_cv 0
           ex_lock_trace ex_lock_final eq_refl eq_refl
           ex_lock_trace_ok ex_lock_trace_no_wrap ex_lock_trace_exec).
Defined.

(** The machines reached by 2^31 - 1 and by 2^31 acquisitions of thread
    1000. *)
Lemma ex_wrap_max : wrap_int (Z.of_nat (Z.to_nat 2147483647)) = INT_MAX.
Proof. rewrite Z2Nat.id by lia. reflexivity. Qed.

Lemma ex_wrap_min : wrap_int (Z.of_nat (Z.to_nat 2147483648)) = INT_MIN.
Proof. rewrite Z2Nat.id by lia. reflexivity. Qed.

Lemma ex_acquire_events_ok (n : nat) :
  Forall (event_ok 100 200) (repeat (Invoke (mk_cpu 1000 0) 0 CallAcquire) n).
Proof.
  apply Forall_repeat_same. apply ex_thread_ok; reflexivity.
Qed.

Lemma ex_acquires_exec (n : nat) :
  (1 <= n)%nat ->
  exec 100 200 300 (repeat (Invoke (mk_cpu 1000 0) 0 CallAcquire) n) ex_boot =
  Some (ex_held_at (wrap_int (Z.of_nat n))).
Proof.
  intros Hn. destruct n as [|n]; [lia|].
  assert (step 100 200 300 ex_boot (Invoke (mk_cpu 1000 0) 0 CallAcquire) =
          Some ex_held) as Hs by reflexivity.
  cbn [repeat exec]. rewrite Hs.
  rewrite (exec_reacquire 100 200 300 1000 0 n (ex_not_null 200 eq_refl)
             ex_held "lock" 1 1 eq_refl (fun H => H) eq_refl).
  replace (Z.of_nat (S n)) with (1 + Z.of_nat n) by lia.
  reflexivity.
Qed.

Lemma ex_held_at_reachable (n : nat) :
  (1 <= n)%nat -> reachable 100 200 300 (ex_held_at (wrap_int (Z.of_nat n))).
Proof.
  intros Hn.
  apply (exec_reachable 100 200 300
           (repeat (Invoke (mk_cpu 1000 0) 0 CallAcquire) n) ex_boot).
  - exact ex_boot_reachable.
  - apply ex_acquire_events_ok.
  - now apply ex_acquires_exec.
Qed.

Lemma ex_held_max_reachable : reachable 100 200 300 (ex_held_at INT_MAX).
Proof.
  rewrite <- ex_wrap_max. apply ex_held_at_reachable. lia.
Qed.

Lemma ex_held_min_reachable : reachable 100 200 300 (ex_held_at INT_MIN).
Proof.
  rewrite <- ex_wrap_min. apply ex_held_at_reachable. lia.
Qed.

Lemma ex_sem_max_reachable : reachable 100 200 300 ex_sem_max.
Proof.
  apply (reach_boot 100 200 300
           "sem" INT_MAX (mk_alloc 100 (Some "sem"%string))
           (mk_semaphore "sem" INT_MAX)
           "lock" (mk_alloc 200 (Some "lock"%string)) ex_lock
           "cv" (mk_alloc 300 (Some "cv"%string)) ex_cv 0); reflexivity.
Qed.

(** The counter goes around: after 2^31 - 1 acquisitions the lock of thread
    1000 has counter [INT_MAX] and satisfies the invariant; the next
    acquisition returns with counter [INT_MIN], a negative counter on a
    lock that has an owner. *)
Lemma lock_invariant_counterexample :
  lock_create "lock" (mk_alloc 200 (Some "lock"%string)) = Allocated 200 ex_lock /\
  exec 100 200 300
    (repeat (Invoke (mk_cpu 1000 0) 0 CallAcquire) (Z.to_nat 2147483647)) ex_boot =
    Some (ex_held_at INT_MAX) /\
  lock_inv (the_lock (ex_held_at INT_MAX)) /\
  lock_acquire (mk_cpu 1000 0) 200 (ex_held_at INT_MAX) =
    Returns (ex_held_at INT_MIN) /\
  Forall (event_ok 100 200)
    (repeat (Invoke (mk_cpu 1000 0) 0 CallAcquire) (Z.to_nat 2147483648)) /\
  exec 100 200 300
    (repeat (Invoke (mk_cpu 1000 0) 0 CallAcquire) (Z.to_nat 2147483648)) ex_boot =
    Some (ex_held_at INT_MIN) /\
  lock_counter (the_lock (ex_held_at INT_MIN)) < 0 /\
  ~ lock_inv (the_lock (ex_held_at INT_MIN)).
Proof.
  split; [reflexivity|]. split.
  { rewrite ex_acquires_exec by lia. rewrite ex_wrap_max. reflexivity. }
  split.
  { unfold lock_inv, NULL. simpl. unfold INT_MAX. split; [lia|]. split; lia. }
  split; [reflexivity|]. split; [apply ex_acquire_events_ok|]. split.
  { rewrite ex_acquires_exec by lia. rewrite ex_wrap_min. reflexivity. }
  split; [reflexivity|].
  intros [H _]. revert H. simpl. unfold INT_MIN. lia.
Qed.

Lemma lock_acquire_spec_witness :
  reachable 100 200 300 ex_held /\
  lock_acquire (mk_cpu 1000 0) 200 ex_held = Returns ex_held2 /\
  lock_acquire (mk_cpu 2000 0) 200 ex_held =
    Sleeps (thread_sleep (mk_cpu 2000 0) 200 (InLockAcquire 200 0 FromTop)
              (set_spl SPL_HIGH ex_held)).
Proof.
  split; [exact ex_held_reachable|].
  pose proof (lock_acquire_spec 100 200 300 ex_held (mk_cpu 1000 0) ex_held_reachable)
    as (Hown & _ & _).
  pose proof (lock_acquire_spec 100 200 300 ex_held (mk_cpu 2000 0) ex_held_reachable)
    as (_ & Hother & _).
  split.
  - apply (proj1 (Hown eq_refl)). simpl. unfold INT_MAX. lia.
  - apply Hother; simpl; unfold NULL; lia.
Defined.

(** The owner's acquisition at counter [INT_MAX] does not add one: the
    counter comes out as [INT_MIN]. *)
Lemma lock_acquire_spec_counterexample :
  reachable 100 200 300 (ex_held_at INT_MAX) /\
  curthread (mk_cpu 1000 0) = curthread_with_lock (the_lock (ex_held_at INT_MAX)) /\
  lock_counter (the_lock (ex_held_at INT_MAX)) = 2147483647 /\
  lock_acquire (mk_cpu 1000 0) 200 (ex_held_at INT_MAX) =
    Returns (ex_held_at (-2147483648)) /\
  -2147483648 <> lock_counter (the_lock (ex_held_at INT_MAX)) + 1.
Proof.
  split; [exact ex_held_max_reachable|].
  split; [reflexivity|]. split; [reflexivity|]. split; [reflexivity|].
  simpl. unfold INT_MAX. lia.
Qed.

Lemma lock_release_spec_witness :
  reachable 100 200 300 ex_held /\
  lock_release (mk_cpu 1000 0) 200 ex_held =
    Returns (thread_wakeup 200 (set_lock (mk_lock "lock" 0 NULL 0) ex_held)) /\
  exists m1 m2,
    repeat_call (lock_acquire (mk_cpu 1000 0) 200) 2 ex_boot = Returns m1 /\
    lock_counter (the_lock m1) = 2 /\
    repeat_call (lock_release (mk_cpu 1000 0) 200) 1 m1 = Returns m2 /\
    exists m3, lock_acquire (mk_cpu 2000 0) 200 m2 = Sleeps m3.
Proof.
  assert (curthread (mk_cpu 1000 0) <> NULL) as Hc by (simpl; unfold NULL; lia).
  split; [exact ex_held_reachable | split].
  - pose proof (lock_release_spec 100 200 300 ex_held (mk_cpu 1000 0)
                  ex_held_reachable Hc) as (Hown & _).
    destruct (Hown eq_refl) as (Hlast & _).
    exact (proj1 (Hlast eq_refl)).
  - pose proof (lock_release_spec 100 200 300 ex_boot (mk_cpu 1000 0)
                  ex_boot_reachable Hc) as (_ & Hk).
    assert (Z.of_nat 2 <= int_modulus) as Hmod by (unfold int_modulus; lia).
    assert (curthread (mk_cpu 2000 0) <> NULL) as Ho by (simpl; unfold NULL; lia).
    assert (curthread (mk_cpu 2000 0) <> curthread (mk_cpu 1000 0)) as Hne
      by (simpl; lia).
    assert ((1 <= 2)%nat) as H12 by lia.
    assert ((1 < 2)%nat) as Hlt12 by lia.
    destruct (Hk eq_refl 2%nat 1%nat (mk_cpu 2000 0) H12 H12 Hmod Ho Hne)
      as (m1 & m2 & Hacq & _ & Hcnt & Hrel & Hlt & _).
    exists m1, m2. split; [exact Hacq|].
    split; [apply Hcnt; unfold INT_MAX; lia|].
    split; [exact Hrel|].
    exact (proj1 (proj2 (proj2 (proj2 (Hlt Hlt12))))).
Defined.

(** One release of a counter at [INT_MIN] takes it to [INT_MAX]; and a
    thread that has acquired 2^32 + 1 times holds the lock with counter 1:
    after a single release another thread's acquire succeeds. *)
Lemma lock_release_spec_counterexample :
  (reachable 100 200 300 (ex_held_at INT_MIN) /\
   curthread (mk_cpu 1000 0) = curthread_with_lock (the_lock (ex_held_at INT_MIN)) /\
   lock_release (mk_cpu 1000 0) 200 (ex_held_at INT_MIN) =
     Returns (ex_held_at INT_MAX)) /\
  (repeat_call (lock_acquire (mk_cpu 1000 0) 200) (Z.to_nat 4294967297) ex_boot =
     Returns ex_held /\
   lock_release (mk_cpu 1000 0) 200 ex_held = Returns ex_boot /\
   lock_acquire (mk_cpu 2000 0) 200 ex_boot = Returns ex_lock_final).
Proof.
  split.
  - split; [exact ex_held_min_reachable|]. split; reflexivity.
  - split; [|split; reflexivity].
    rewrite (acquire_n_free (mk_cpu 1000 0) 200 ex_boot (Z.to_nat 4294967297) "lock"
               (ex_not_null 200 eq_refl) (ex_not_null 1000 eq_refl) eq_refl) by lia.
    rewrite Z2Nat.id by lia. reflexivity.
Qed.

Lemma lock_release_not_owner_witness :
  lock_release (mk_cpu 2000 0) 200 ex_held = Returns ex_held /\
  lock_release (mk_cpu 2000 0) 200 ex_boot = Returns ex_boot.
Proof.
  split; apply lock_release_not_owner; simpl; unfold NULL; lia.
Defined.

Lemma sem_count_nonneg_witness :
  sem_create "sem" 0 (mk_alloc 100 (Some "sem"%string)) = Allocated 100 ex_sem /\
  exec 100 200 300 ex_sem_trace ex_boot = Some ex_sem_final /\
  0 <= count (the_sem ex_sem_final).
Proof.
  split; [reflexivity | split; [exact ex_sem_trace_exec|]].
  exact (proj1 (proj2 (sem_count_nonneg 100 200 300
           "sem" 0 (mk_alloc 100 (Some "sem"%string)) ex_sem eq_refl))
           "lock"%string (mk_alloc 200 (Some "lock"%string)) ex_lock
           "cv"%string (mk_alloc 300 (Some "cv"%string)) ex_cv 0
           ex_sem_trace ex_sem_final eq_refl eq_refl
           ex_sem_trace_ok ex_sem_trace_exec).
Defined.

Lemma V_wakes_all_P_rechecks_witness :
  reachable 100 200 300 ex_boot /\
  V (mk_cpu 2000 0) 100 ex_boot =
    Returns (set_sem (mk_semaphore "sem" 1) ex_boot) /\
  P (mk_cpu 1000 0) 100 ex_boot =
    Sleeps (thread_sleep (mk_cpu 1000 0) 100 (InP 100 0) (set_spl SPL_HIGH ex_boot)).
Proof.
  split; [exact ex_boot_reachable|].
  pose proof (V_wakes_all_P_rechecks 100 200 300 ex_boot (mk_cpu 2000 0)
                ex_boot_reachable) as ((HV & _) & _ & _).
  pose proof (V_wakes_all_P_rechecks 100 200 300 ex_boot (mk_cpu 1000 0)
                ex_boot_reachable) as (_ & HP & _).
  split.
  - apply HV. simpl. unfold INT_MAX. lia.
  - exact (proj1 (HP eq_refl) eq_refl).
Defined.

(** On a count of [INT_MAX], [V] adds nothing and wakes nobody: the count
    goes around and the kernel halts on the assertion that follows the
    increment. *)
Lemma V_wakes_all_P_rechecks_counterexample :
  sem_create "sem" 2147483647 (mk_alloc 100 (Some "sem"%string)) =
    Allocated 100 (the_sem ex_sem_max) /\
  reachable 100 200 300 ex_sem_max /\
  V (mk_cpu 2000 0) 100 ex_sem_max = Panics.
Proof.
  split; [reflexivity | split; [exact ex_sem_max_reachable | reflexivity]].
Qed.

Lemma cv_wait_enqueues_or_halts_witness :
  cv_wait (mk_cpu 1000 0) 300 200 12 ex_held = Panics.
Proof.
  apply (proj1 (cv_wait_enqueues_or_halts (mk_cpu 1000 0) 300 200 12 ex_held)).
  lia.
Defined.

Lemma ex_waiters_ok : Forall (thread_ok 100 200) [4000; 1000; 2000; 3000].
Proof.
  repeat constructor; apply Z.eqb_neq; reflexivity.
Defined.

Lemma ex_waiters_nodup : NoDup [4000; 1000; 2000; 3000].
Proof.
  repeat constructor; simpl; intuition lia.
Defined.

Lemma ex_waiting_reachable : reachable 100 200 300 ex_waiting.
Proof.
  apply (exec_reachable 100 200 300
           (wait_events 0 [1000; 2000; 3000] ++ [Invoke (mk_cpu 4000 0) 0 CallAcquire])
           ex_boot).
  - exact ex_boot_reachable.
  - repeat constructor; apply Z.eqb_neq; reflexivity.
  - vm_compute. reflexivity.
Defined.

Lemma cv_signal_fifo_witness :
  reachable 100 200 300 ex_boot /\
  exists m1 m2,
    exec 100 200 300
      (wait_events 0 [1000; 2000; 3000] ++ [Invoke (mk_cpu 4000 0) 0 CallAcquire])
      ex_boot = Some m1 /\
    q (the_cv m1) = [1000; 2000; 3000] /\
    exec 100 200 300 (signal_events 0 4000 3) m1 = Some m2 /\
    map fst (runq m2) = map fst (runq m1) ++ [1000; 2000; 3000] /\
    q (the_cv m2) = [].
Proof.
  split; [exact ex_boot_reachable|].
  exact (proj2 (proj2 (proj2 (cv_signal_fifo 100 200 300 ex_boot (mk_cpu 4000 0)
           ex_boot_reachable)))
           eq_refl 0 [1000; 2000; 3000] 4000 3%nat
           ex_waiters_nodup ex_waiters_ok (fun t _ (H : In t []) => H)).
Defined.

Lemma cv_broadcast_spec_witness :
  reachable 100 200 300 ex_waiting /\
  exists m',
    cv_broadcast (mk_cpu 4000 0) 300 200 ex_waiting = Returns m' /\
    q (the_cv m') = [] /\
    map fst (runq m') = [1000; 2000; 3000] /\
    cv_signal (mk_cpu 4000 0) 300 200 m' = Returns m'.
Proof.
  split; [exact ex_waiting_reachable|].
  destruct (proj1 (proj2 (cv_broadcast_spec 100 200 300 ex_waiting (mk_cpu 4000 0)
              ex_waiting_reachable)) eq_refl)
    as (m' & Hb & Hq & Hrq & _ & _ & _ & _ & _ & Hsig).
  exists m'. split; [exact Hb | split; [exact Hq | split; [exact Hrq | exact Hsig]]].
Defined.

(** ** The further properties on the example configuration *)

Lemma ex_held2_reachable : reachable 100 200 300 ex_held2.
Proof.
  apply (reach_step 100 200 300 ex_held (Invoke (mk_cpu 1000 0) 0 CallAcquire)).
  - exact ex_held_reachable.
  - apply ex_thread_ok; reflexivity.
  - reflexivity.
Defined.

Lemma P_counts_down_witness :
  repeat_call (P (mk_cpu 1000 0) 100) 2 ex_count2 = Returns ex_boot.
Proof.
  exact (proj1 (P_counts_down (mk_cpu 1000 0) 100 2 ex_count2
                  (ex_not_null 100 eq_refl) eq_refl eq_refl)).
Defined.

Lemma cv_wait_releases_once_witness :
  reachable 100 200 300 ex_held2 /\
  exists m',
    cv_wait (mk_cpu 1000 0) 300 200 0 ex_held2 = Sleeps m' /\
    q (the_cv m') = [1000] /\
    the_lock m' = mk_lock "lock" 1 1000 1.
Proof.
  split; [exact ex_held2_reachable|].
  destruct (cv_wait_releases_once 100 200 300 ex_held2 (mk_cpu 1000 0)
              ex_held2_reachable (ex_thread_ok 1000 eq_refl eq_refl eq_refl) eq_refl)
    as (m' & Hw & Hq & _ & Hnested).
  exists m'. split; [exact Hw | split; [exact Hq|]].
  apply Hnested. simpl. lia.
Defined.

Lemma cv_wait_returns_as_owner_witness :
  lock_ok (the_lock ex_held) /\
  exists m',
    resume_at (mk_cpu 1000 0) (InCvWait 200 0) ex_held = Returns m' /\
    the_lock m' = mk_lock "lock" 1 1000 2.
Proof.
  pose proof (proj1 (reachable_inv 100 200 300 ex_held ex_held_reachable)) as Hok.
  split; [exact Hok|].
  destruct (cv_wait_returns_as_owner (mk_cpu 1000 0) 200 0 ex_held
              (ex_not_null 200 eq_refl) (ex_not_null 1000 eq_refl) Hok)
    as (Hret & Hex & _).
  destruct Hex as (m' & Hm'); [right; reflexivity|].
  exists m'. split; [exact Hm'|].
  exact (proj1 (proj2 (Hret m' Hm'))).
Defined.

Lemma lock_do_i_hold_tracks_witness :
  lock_do_i_hold (mk_cpu 1000 0) 200 ex_boot = (0, ex_boot) /\
  exists m1 m2,
    repeat_call (lock_acquire (mk_cpu 1000 0) 200) 2 ex_boot = Returns m1 /\
    repeat_call (lock_release (mk_cpu 1000 0) 200) 1 m1 = Returns m2 /\
    lock_do_i_hold (mk_cpu 1000 0) 200 m2 = (1, m2) /\
    lock_do_i_hold (mk_cpu 2000 0) 200 m1 = (0, m1).
Proof.
  destruct (lock_do_i_hold_tracks 100 200 300 ex_boot (mk_cpu 1000 0)
              ex_boot_reachable (ex_not_null 1000 eq_refl) eq_refl) as [H0 Hk].
  split; [exact H0|].
  assert ((1 <= 2)%nat) as H12 by lia.
  assert (Z.of_nat 2 <= int_modulus) as Hmod by (unfold int_modulus; lia).
  assert (curthread (mk_cpu 2000 0) <> curthread (mk_cpu 1000 0)) as Hne
    by (simpl; lia).
  destruct (Hk 2%nat 1%nat H12 H12 Hmod) as (m1 & m2 & Hacq & Hrel & _ & Hh2 & Hoth).
  exists m1, m2.
  split; [exact Hacq | split; [exact Hrel | split; [exact Hh2 | exact (Hoth _ Hne)]]].
Defined.

Lemma wait_queue_is_the_waiters_witness :
  cv_sleepers ex_waiting = [1000; 2000; 3000].
Proof.
  exact (wait_queue_is_the_waiters 100 200 300 ex_waiting ex_waiting_reachable).
Defined.

Lemma ex_after_V_exec :
  exec 100 200 300
    [Invoke (mk_cpu 1000 0) 0 CallP; Invoke (mk_cpu 2000 0) 0 CallV] ex_boot =
  Some ex_after_V.
Proof. vm_compute. reflexivity. Defined.

Lemma ex_after_V_reachable : reachable 100 200 300 ex_after_V.
Proof.
  apply (exec_reachable 100 200 300
           [Invoke (mk_cpu 1000 0) 0 CallP; Invoke (mk_cpu 2000 0) 0 CallV] ex_boot).
  - exact ex_boot_reachable.
  - repeat constructor; apply Z.eqb_neq; reflexivity.
  - exact ex_after_V_exec.
Defined.

Lemma no_wakeup_is_lost_witness :
  100 <> 200 /\ reachable 100 200 300 ex_after_V /\
  sleeping_on 200 ex_after_V = [] /\ sleeping_on 100 ex_after_V = [].
Proof.
  assert (100 <> 200) as Hd by lia.
  assert (0 < count (the_sem ex_after_V)) as Hpos by (simpl; lia).
  split; [exact Hd | split; [exact ex_after_V_reachable|]].
  destruct (no_wakeup_is_lost 100 200 300 Hd ex_after_V ex_after_V_reachable)
    as [Hl Hs].
  split; [exact (Hl eq_refl) | exact (Hs Hpos)].
Defined.

Lemma sem_destroy_checks_sleepers_witness :
  sem_destroy 100 ex_boot = Destroyed ex_boot [FreedName "sem"; FreedStruct 100] /\
  sem_destroy 100
    (thread_sleep (mk_cpu 1000 0) 100 (InP 100 0) (set_spl SPL_HIGH ex_boot)) =
    DestroyPanics /\
  sem_destroy 100 ex_after_V =
    Destroyed ex_after_V [FreedName "sem"; FreedStruct 100].
Proof.
  assert (100 <> 200) as Hd by lia.
  assert (0 < count (the_sem ex_after_V)) as Hpos by (simpl; lia).
  split; [|split].
  - exact (proj1 (sem_destroy_checks_sleepers 100 200 300 ex_boot
                    ex_boot_reachable Hd) eq_refl).
  - exact (proj1 (proj2 (proj2 (proj2 (proj2
             (sem_destroy_checks_sleepers 100 200 300 ex_boot
                ex_boot_reachable Hd)))))
             (mk_cpu 1000 0) _ eq_refl).
  - exact (proj1 (proj2 (proj2 (sem_destroy_checks_sleepers 100 200 300 ex_after_V
                                  ex_after_V_reachable Hd))) Hpos).
Defined.

Lemma V_hands_over_to_P_witness :
  exists m',
    exec 100 200 300
      [Invoke (mk_cpu 1000 0) 0 CallP; Invoke (mk_cpu 2000 1) 0 CallV; Resume 1000]
      ex_boot = Some m' /\
    count (the_sem m') = 0 /\
    ~ In 1000 (busy_threads m') /\
    curspl m' = 0 /\
    the_lock m' = the_lock ex_boot /\ the_cv m' = the_cv ex_boot.
Proof.
  assert (2000 <> 1000) as Hne by lia.
  exact (V_hands_over_to_P 100 200 300 ex_boot 1000 0 (mk_cpu 2000 1) 0
           ex_boot_reachable eq_refl
           (ex_thread_ok 1000 eq_refl eq_refl eq_refl)
           (ex_thread_ok 2000 eq_refl eq_refl eq_refl)
           Hne (fun H => H) (fun H => H)).
Defined.

Lemma signal_hands_lock_back_witness :
  exists m2 m',
    exec 100 200 300
      [Invoke (mk_cpu 1000 0) 0 (CallWait 0);
       Invoke (mk_cpu 2000 0) 0 CallAcquire] ex_held = Some m2 /\
    curthread_with_lock (the_lock m2) = 2000 /\
    exec 100 200 300
      [Invoke (mk_cpu 2000 0) 0 CallSignal;
       Invoke (mk_cpu 2000 0) 0 CallRelease;
       Resume 1000] m2 = Some m' /\
    the_lock m' = mk_lock "lock" 1 1000 1 /\
    q (the_cv m') = [] /\
    ~ In 1000 (busy_threads m') /\
    curspl m' = 0.
Proof.
  assert (1000 <> 2000) as Hne by lia.
  exact (signal_hands_lock_back 100 200 300 ex_held 1000 2000 0 0
           ex_held_reachable eq_refl eq_refl eq_refl
           (ex_thread_ok 1000 eq_refl eq_refl eq_refl)
           (ex_thread_ok 2000 eq_refl eq_refl eq_refl)
           Hne (fun H => H) (fun H => H)).
Defined.

Lemma ex_blocked_step :
  step 100 200 300 ex_held (Invoke (mk_cpu 2000 0) 0 CallAcquire) = Some ex_blocked.
Proof. vm_compute. reflexivity. Defined.

Lemma lock_stays_with_owner_witness :
  step 100 200 300 ex_held (Invoke (mk_cpu 2000 0) 0 CallAcquire) = Some ex_blocked /\
  curthread_with_lock (the_lock ex_blocked) = 1000.
Proof.
  split; [exact ex_blocked_step|].
  apply (proj2 (lock_stays_with_owner 100 200 300 ex_held
                  (Invoke (mk_cpu 2000 0) 0 CallAcquire) ex_blocked
                  ex_held_reachable ex_blocked_step)).
  - apply ex_not_null. reflexivity.
  - simpl. lia.
Defined.

Lemma broadcast_is_repeated_signal_witness :
  cv_broadcast (mk_cpu 4000 0) 300 200 ex_waiting =
  repeat_call (cv_signal (mk_cpu 4000 0) 300 200) 3 ex_waiting.
Proof.
  exact (proj1 (broadcast_is_repeated_signal (mk_cpu 4000 0) 300 200 ex_waiting
                  (ex_not_null 300 eq_refl) eq_refl)).
Defined.

Lemma halts_only_on_misuse_witness :
  step 100 200 300 ex_boot (Invoke (mk_cpu 1000 1) 0 CallP) = None /\
  step 100 200 300 ex_sem_max (Invoke (mk_cpu 2000 0) 0 CallV) = None /\
  step 100 200 300 ex_boot (Invoke (mk_cpu 2000 0) 0 CallV) <> None.
Proof.
  split; [|split].
  - apply (proj2 (halts_only_on_misuse 100 200 300 ex_boot
                    (Invoke (mk_cpu 1000 1) 0 CallP) ex_boot_reachable)).
    split; [exact (fun H => H) | simpl; lia].
  - apply (proj2 (halts_only_on_misuse 100 200 300 ex_sem_max
                    (Invoke (mk_cpu 2000 0) 0 CallV) ex_sem_max_reachable)).
    split; [exact (fun H => H) | reflexivity].
  - intros H.
    apply (proj1 (halts_only_on_misuse 100 200 300 ex_boot
                    (Invoke (mk_cpu 2000 0) 0 CallV) ex_boot_reachable)) in H.
    destruct H as [_ H]. simpl in H. unfold INT_MAX in H. lia.
Defined.

Lemma null_thread_passes_for_owner_witness :
  lock_do_i_hold (mk_cpu 0 0) 200 ex_boot = (1, ex_boot) /\
  lock_acquire (mk_cpu 0 0) 200 ex_boot =
    Returns (set_lock (mk_lock "lock" 0 NULL 1) ex_boot).
Proof.
  destruct (null_thread_passes_for_owner 100 200 300 ex_boot (mk_cpu 0 0)
              (mk_cpu 1000 0) ex_boot_reachable eq_refl eq_refl
              (ex_not_null 1000 eq_refl))
    as (H1 & H2 & _).
  split; [exact H1 | exact H2].
Defined.

Lemma lock_status_tracks_owner_witness :
  reachable 100 200 300 (ex_held_at INT_MIN) /\
  status (the_lock (ex_held_at INT_MIN)) = 1 /\
  (status (the_lock (ex_held_at INT_MIN)) = 0 <->
   curthread_with_lock (the_lock (ex_held_at INT_MIN)) = NULL).
Proof.
  split; [exact ex_held_min_reachable | split; [reflexivity|]].
  exact (proj1 (proj2 (lock_status_tracks_owner 100 200 300 (ex_held_at INT_MIN)
                         ex_held_min_reachable))).
Defined.
